(** * XY-cut reading-order sorter: a shallow embedding of
      [pero_ocr/layout_engines/xy_cut.py] and the properties of its
      projection profile, profile splitter and recursive cut. *)

From Stdlib Require Import List ZArith QArith Qround Bool Lia Arith.
From Stdlib Require Import Permutation Sorted.
Import ListNotations.

Local Open Scope Z_scope.

(** ** Exceptions and results

    The Python code signals failure by raising.  [RecursionError] is what
    the interpreter raises when the call depth is used up; the embedding
    counts depth with a fuel argument. *)

Inductive exn : Type :=
| AssertionError
| ValueError
| RecursionError.

Inductive result (A : Type) : Type :=
| Ok (a : A)
| Raise (e : exn).

Arguments Ok {A} a.
Arguments Raise {A} e.

Definition bind {A B : Type} (r : result A) (k : A -> result B) : result B :=
  match r with
  | Ok a => k a
  | Raise e => Raise e
  end.

Notation "x <- r ;; k" := (bind r (fun x => k))
  (at level 61, r at next level, right associativity).

(** A [for] loop whose body may raise, threading the loop state. *)
Fixpoint for_each {A S : Type} (body : A -> S -> result S) (l : list A) (s : S)
  : result S :=
  match l with
  | [] => Ok s
  | a :: t => s' <- body a s ;; for_each body t s'
  end.

(** ** The numpy operations the module uses *)

(** [np.where(cond)[0]]: the positions at which the condition holds. *)
Fixpoint where_from {A : Type} (f : A -> bool) (i : nat) (l : list A) : list nat :=
  match l with
  | [] => []
  | a :: t => if f a then i :: where_from f (S i) t else where_from f (S i) t
  end.

Definition np_where {A : Type} (f : A -> bool) (l : list A) : list nat :=
  where_from f 0%nat l.

(** [arr[idx]] for an array of positions [idx].  numpy raises IndexError on
    a position past the end; the index arrays of this module are in range
    (they come from [np_where] over a shorter array, [where_from_lt], or
    from [argsort], [argsort_in_range]), and the embedding skips such a
    position. *)
Definition take_idx {A : Type} (l : list A) (idx : list nat) : list A :=
  flat_map (fun i => match nth_error l i with Some a => [a] | None => [] end) idx.

(** [arr[mask]] for a boolean mask of the array's length. *)
Fixpoint compress {A : Type} (mask : list bool) (l : list A) : list A :=
  match mask, l with
  | b :: m, a :: t => if b then a :: compress m t else compress m t
  | _, _ => []
  end.

(** [np.max] of a flat array; it raises ValueError on an empty one. *)
Definition np_max (l : list Z) : option Z :=
  match l with
  | [] => None
  | a :: t => Some (fold_left Z.max t a)
  end.

(** A bound of a Python slice [res[start:end]] over a sequence of length
    [len]: a negative bound counts from the end, and both are clipped. *)
Definition slice_bound (len i : Z) : Z :=
  if i <? 0 then Z.max 0 (i + len) else Z.min i len.

Fixpoint incr_from (p lo hi : Z) (res : list Z) : list Z :=
  match res with
  | [] => []
  | v :: t =>
      (if (lo <=? p) && (p <? hi) then v + 1 else v) :: incr_from (p + 1) lo hi t
  end.

(** [res[start:end] += 1] *)
Definition slice_incr (res : list Z) (start end_ : Z) : list Z :=
  let n := Z.of_nat (length res) in
  incr_from 0 (slice_bound n start) (slice_bound n end_) res.

(** [a > b] between an integer array element and a numeric threshold. *)
Definition gt_threshold (v : Z) (t : Q) : bool := negb (Qle_bool (inject_Z v) t).

(** ** Boxes *)

(** A row [x0, y0, x1, y1] of the [N x 4] integer array. *)
Record Box : Type := mkBox { x0 : Z; y0 : Z; x1 : Z; y1 : Z }.

(** A row of [boxes[:, axis::2]]: columns 0 and 2 for axis 0, columns 1 and
    3 for axis 1. *)
Definition axis_slice (axis : Z) (b : Box) : Z * Z :=
  if axis =? 0 then (x0 b, x1 b) else (y0 b, y1 b).

(** ** [projection_by_bboxes] *)

Definition projection_by_bboxes (boxes : list Box) (axis : Z) : result (list Z) :=
  if negb ((axis =? 0) || (axis =? 1)) then Raise AssertionError else
  let cols := map (axis_slice axis) boxes in
  match np_max (flat_map (fun se => [fst se; snd se]) cols) with
  | None => Raise ValueError
  | Some length =>
      if length <? 0 then Raise ValueError else
      Ok (fold_left (fun res se => slice_incr res (fst se) (snd se)) cols
            (repeat 0 (Z.to_nat length)))
  end.

(** ** [split_projection_profile] *)

Definition split_projection_profile (arr_values : list Z) (min_value min_gap : Q)
  : option (list Z * list Z) :=
  let arr_index :=
    map Z.of_nat (np_where (fun v => gt_threshold v min_value) arr_values) in
  if (length arr_index =? 0)%nat then None else
  let arr_diff :=
    map (fun ab => fst ab - snd ab) (combine (tl arr_index) (removelast arr_index)) in
  let arr_diff_index := np_where (fun d => gt_threshold d min_gap) arr_diff in
  let arr_zero_intvl_start := take_idx arr_index arr_diff_index in
  let arr_zero_intvl_end := take_idx arr_index (map S arr_diff_index) in
  let arr_start := hd 0 arr_index :: arr_zero_intvl_end in
  let arr_end := arr_zero_intvl_start ++ [last arr_index 0] in
  Some (arr_start, map (fun e => e + 1) arr_end).

(** ** [recursive_xy_cut]

    [argsort] stands for numpy's [ndarray.argsort()] with its default
    kind: it returns the positions of the keys in ascending key order, and
    numpy leaves the order of equal keys unspecified.  The program is
    parametric in it, and each result states what it needs of it as a
    hypothesis: that it returns a permutation of the positions, that the
    keys ascend along it, that equal keys stay in input order. *)

Definition in_run (r : Z * Z) (v : Z) : bool := (fst r <=? v) && (v <? snd r).

Section Cut.

Variable argsort : list Z -> list nat.

(** The body of the inner loop [for c0, c1 in zip(arr_x0, arr_x1)]. *)
Definition cut_column (rec : list Box -> list nat -> list nat -> result (list nat))
  (x_sorted_boxes_chunk : list Box) (x_sorted_indices_chunk : list nat)
  (c : Z * Z) (res : list nat) : result (list nat) :=
  let _indices := map (fun b => in_run c (x0 b)) x_sorted_boxes_chunk in
  rec (compress _indices x_sorted_boxes_chunk)
      (compress _indices x_sorted_indices_chunk) res.

(** The body of the outer loop [for r0, r1 in zip(arr_y0, arr_y1)]. *)
Definition cut_band (rec : list Box -> list nat -> list nat -> result (list nat))
  (y_sorted_boxes : list Box) (y_sorted_indices : list nat)
  (r : Z * Z) (res : list nat) : result (list nat) :=
  let _indices := map (fun b => in_run r (y0 b)) y_sorted_boxes in
  let y_sorted_boxes_chunk := compress _indices y_sorted_boxes in
  let y_sorted_indices_chunk := compress _indices y_sorted_indices in
  let _indices := argsort (map x0 y_sorted_boxes_chunk) in
  let x_sorted_boxes_chunk := take_idx y_sorted_boxes_chunk _indices in
  let x_sorted_indices_chunk := take_idx y_sorted_indices_chunk _indices in
  x_projection <- projection_by_bboxes x_sorted_boxes_chunk 0 ;;
  match split_projection_profile x_projection 0 1 with
  | None => Ok res
  | Some (arr_x0, arr_x1) =>
      if (length arr_x0 =? 1)%nat then Ok (res ++ y_sorted_indices_chunk)
      else for_each (cut_column rec x_sorted_boxes_chunk x_sorted_indices_chunk)
             (combine arr_x0 arr_x1) res
  end.

(** [res] is the shared output list: the state threaded through the
    calls.  [fuel] bounds the depth of the recursion. *)
Fixpoint recursive_xy_cut (fuel : nat) (boxes : list Box) (indices : list nat)
  (res : list nat) : result (list nat) :=
  match fuel with
  | O => Raise RecursionError
  | S fuel' =>
      if negb (length boxes =? length indices)%nat then Raise AssertionError else
      let _indices := argsort (map y0 boxes) in
      let y_sorted_boxes := take_idx boxes _indices in
      let y_sorted_indices := take_idx indices _indices in
      y_projection <- projection_by_bboxes y_sorted_boxes 1 ;;
      match split_projection_profile y_projection 0 1 with
      | None => Ok res
      | Some (arr_y0, arr_y1) =>
          for_each (cut_band (recursive_xy_cut fuel') y_sorted_boxes y_sorted_indices)
            (combine arr_y0 arr_y1) res
      end
  end.

End Cut.

(** [ndarray.argsort()] is called with the default kind, which returns a
    permutation of the positions in ascending key order and promises
    nothing about the order of equal keys.  The cut takes [argsort] as a
    parameter, and the properties assume of it what numpy promises.

    Two instances, both by insertion from the right end.
    [insertion_argsort] puts a position before the first key to its right
    that is not smaller, so equal keys stay in input order;
    [reversing_argsort] puts it before the first strictly larger key, so
    equal keys come out in reverse input order.  Both return the
    positions in ascending key order; neither is numpy's own order of
    equal keys. *)
Fixpoint insert_key (before : Z -> Z -> bool) (k : Z) (i : nat)
  (l : list (Z * nat)) : list (Z * nat) :=
  match l with
  | [] => [(k, i)]
  | (k', i') :: t =>
      if before k k' then (k, i) :: l else (k', i') :: insert_key before k i t
  end.

Definition argsort_with (before : Z -> Z -> bool) (keys : list Z) : list nat :=
  map snd (fold_right (fun ki acc => insert_key before (fst ki) (snd ki) acc) []
             (combine keys (seq 0 (length keys)))).

Definition insertion_argsort : list Z -> list nat := argsort_with Z.leb.

Definition reversing_argsort : list Z -> list nat := argsort_with Z.ltb.

(** ** [process_page]

    A region carries a polygon, an array of [(x, y)] vertices with real
    coordinates.  The page layout and the two helpers that split off and
    merge back the ignored categories belong to other modules
    ([pero_ocr.core.layout], [layout_helpers]); they are parameters here. *)

Record Region : Type := mkRegion { region_id : nat; polygon : list (Q * Q) }.

Record PageLayout : Type := mkPageLayout { regions : list Region }.

(** [arr.min()] and [arr.max()] of a float array; empty arrays raise. *)
Definition Qarr_min (l : list Q) : result Q :=
  match l with
  | [] => Raise ValueError
  | a :: t => Ok (fold_left (fun m v => if Qle_bool v m then v else m) t a)
  end.

Definition Qarr_max (l : list Q) : result Q :=
  match l with
  | [] => Raise ValueError
  | a :: t => Ok (fold_left (fun m v => if Qle_bool m v then v else m) t a)
  end.

(** The row [x0, y0, x1, y1] built from a region's polygon. *)
Definition region_box (reg : Region) : result Box :=
  let xs := map fst (polygon reg) in
  let ys := map snd (polygon reg) in
  xmin <- Qarr_min xs ;;
  ymin <- Qarr_min ys ;;
  xmax <- Qarr_max xs ;;
  ymax <- Qarr_max ys ;;
  Ok (mkBox (Qfloor xmin) (Qfloor ymin) (Qceiling xmax) (Qceiling ymax)).

Fixpoint region_boxes (regs : list Region) : result (list Box) :=
  match regs with
  | [] => Ok []
  | reg :: t => b <- region_box reg ;; bs <- region_boxes t ;; Ok (b :: bs)
  end.

Section Page.

Variable argsort : list Z -> list nat.
Variable categories : Type.
Variable split_page_layout_by_categories :
  PageLayout -> categories -> PageLayout * PageLayout.
Variable merge_page_layouts : PageLayout -> PageLayout -> PageLayout.

(** The [try] block: any exception of the cut turns [res] into [None]. *)
Definition try_cut (fuel : nat) (boxes : list Box) (indices : list nat)
  : option (list nat) :=
  match recursive_xy_cut argsort fuel boxes indices [] with
  | Ok res => Some res
  | Raise _ => None
  end.

(** [if not res]: [None] and the empty list are falsy. *)
Definition falsy (res : option (list nat)) : bool :=
  match res with
  | None | Some [] => true
  | Some (_ :: _) => false
  end.

Definition process_page (self_categories : categories) (fuel : nat)
  (layout : PageLayout) : result PageLayout :=
  let (page_layout, page_layout_ignore) :=
    split_page_layout_by_categories layout self_categories in
  if (length (regions page_layout) <? 2)%nat
  then Ok (merge_page_layouts page_layout_ignore page_layout)
  else
    boxes <- region_boxes (regions page_layout) ;;
    let indices := seq 0 (length (regions page_layout)) in
    let res := try_cut fuel boxes indices in
    if falsy res
    then Ok (merge_page_layouts page_layout_ignore page_layout)
    else
      let ordered_regions :=
        take_idx (regions page_layout) (match res with Some r => r | None => [] end) in
      Ok (merge_page_layouts page_layout_ignore (mkPageLayout ordered_regions)).

End Page.

(** ** Notions used to state the properties *)

(** The active positions of a histogram, in the words of the splitter's
    description: the positions whose value strictly exceeds [min_value],
    in ascending order. *)
Definition active_positions (h : list Z) (min_value : Q) : list Z :=
  map Z.of_nat
    (filter (fun i => gt_threshold (nth i h 0) min_value) (seq 0 (length h))).

(** Consecutive members of a group differ by no more than [min_gap]. *)
Fixpoint within_gap (min_gap : Q) (g : list Z) : Prop :=
  match g with
  | u :: (v :: _) as t => (inject_Z (v - u)%Z <= min_gap)%Q /\ within_gap min_gap t
  | _ => True
  end.

(** The last member of a group and the first of the next differ by more
    than [min_gap]. *)
Fixpoint gap_between (min_gap : Q) (gs : list (list Z)) : Prop :=
  match gs with
  | g1 :: (g2 :: _) as t =>
      (min_gap < inject_Z (hd 0 g2 - last g1 0)%Z)%Q /\ gap_between min_gap t
  | _ => True
  end.

(** [starts[i] < ends[i] <= starts[i+1]] along a list of runs. *)
Fixpoint chain (runs : list (Z * Z)) : Prop :=
  match runs with
  | r :: (r' :: _) as t => fst r < snd r /\ snd r <= fst r' /\ chain t
  | [r] => fst r < snd r
  | [] => True
  end.

(** The groups of a non-empty ascending list of positions: a new group
    opens wherever the step from one position to the next exceeds
    [min_gap]. *)
Fixpoint groups_of (min_gap : Q) (a : Z) (t : list Z) : list (list Z) :=
  match t with
  | [] => [[a]]
  | p :: t' =>
      if gt_threshold (p - a) min_gap then [a] :: groups_of min_gap p t'
      else match groups_of min_gap p t' with
           | g :: gs => (a :: g) :: gs
           | [] => [[a]]
           end
  end.

(** The runs [(starts[i], ends[i])] the splitter returns, as the loops
    [for r0, r1 in zip(...)] walk them; no run when it returns [None]. *)
Definition profile_runs (h : list Z) (min_value min_gap : Q) : list (Z * Z) :=
  match split_projection_profile h min_value min_gap with
  | None => []
  | Some (starts, ends) => combine starts ends
  end.

Definition run_of_group (g : list Z) : Z * Z := (hd 0 g, last g 0 + 1).

(** A histogram value strictly exceeds a numeric threshold. *)
Definition exceeds (v : Z) (t : Q) : Prop := (t < inject_Z v)%Q.

(** A box as the specification wants it: non-negative integer coordinates
    with [x0 < x1] and [y0 < y1]. *)
Definition well_formed (b : Box) : Prop :=
  0 <= x0 b < x1 b /\ 0 <= y0 b < y1 b.

(** The number of boxes whose half-open interval on the axis contains [p]. *)
Definition coverage (boxes : list Box) (axis : Z) (p : Z) : Z :=
  Z.of_nat (length (filter (fun b => in_run (axis_slice axis b) p) boxes)).

(** Position [p] lies in the slice [res[start:end]] of a sequence of
    length [len]. *)
Definition in_slice (len : Z) (se : Z * Z) (p : Z) : bool :=
  (slice_bound len (fst se) <=? p) && (p <? slice_bound len (snd se)).

(** ** The cut on a list of (box, identifier) pairs

    The arrays [boxes] and [indices] are always indexed and masked
    together; on the list of pairs the same computation reads as follows,
    returning what the call appends to [res] ([recursive_xy_cut_pairs]
    proves the correspondence). *)

Definition sort_by {A : Type} (argsort : list Z -> list nat) (key : A -> Z)
  (l : list A) : list A :=
  take_idx l (argsort (map key l)).

Fixpoint concat_each {A B : Type} (body : A -> result (list B)) (l : list A)
  : result (list B) :=
  match l with
  | [] => Ok []
  | a :: t => o <- body a ;; os <- concat_each body t ;; Ok (o ++ os)
  end.

Definition px0 (p : Box * nat) : Z := x0 (fst p).
Definition py0 (p : Box * nat) : Z := y0 (fst p).

Section CutPairs.

Variable argsort : list Z -> list nat.

Definition column_pairs (rec : list (Box * nat) -> result (list (Box * nat)))
  (X : list (Box * nat)) (c : Z * Z) : result (list (Box * nat)) :=
  rec (filter (fun p => in_run c (px0 p)) X).

Definition band_pairs (rec : list (Box * nat) -> result (list (Box * nat)))
  (S : list (Box * nat)) (r : Z * Z) : result (list (Box * nat)) :=
  let T := filter (fun p => in_run r (py0 p)) S in
  let X := sort_by argsort px0 T in
  x_projection <- projection_by_bboxes (map fst X) 0 ;;
  match split_projection_profile x_projection 0 1 with
  | None => Ok []
  | Some (arr_x0, arr_x1) =>
      if (length arr_x0 =? 1)%nat then Ok T
      else concat_each (column_pairs rec X) (combine arr_x0 arr_x1)
  end.

Fixpoint cut_pairs (fuel : nat) (L : list (Box * nat)) : result (list (Box * nat)) :=
  match fuel with
  | O => Raise RecursionError
  | S fuel' =>
      let S := sort_by argsort py0 L in
      y_projection <- projection_by_bboxes (map fst S) 1 ;;
      match split_projection_profile y_projection 0 1 with
      | None => Ok []
      | Some (arr_y0, arr_y1) =>
          concat_each (band_pairs (cut_pairs fuel') S) (combine arr_y0 arr_y1)
      end
  end.

End CutPairs.

(** [o] holds some of the members of [l], each at most as often as [l]. *)
Definition subperm {A : Type} (o l : list A) : Prop :=
  exists rest, Permutation (o ++ rest) l.

(** The arrays one invocation of [recursive_xy_cut] builds on the way to a
    recursive call: the boxes sorted by [y0], the chunk of a band [r], the
    chunk sorted by [x0], and the boxes of a column [c] of the band. *)
Section Chunks.

Variable argsort : list Z -> list nat.

Definition y_sorted_boxes (boxes : list Box) : list Box :=
  take_idx boxes (argsort (map y0 boxes)).

Definition y_sorted_boxes_chunk (boxes : list Box) (r : Z * Z) : list Box :=
  compress (map (fun b => in_run r (y0 b)) (y_sorted_boxes boxes))
    (y_sorted_boxes boxes).

Definition x_sorted_boxes_chunk (boxes : list Box) (r : Z * Z) : list Box :=
  take_idx (y_sorted_boxes_chunk boxes r)
    (argsort (map x0 (y_sorted_boxes_chunk boxes r))).

Definition column_boxes (boxes : list Box) (r c : Z * Z) : list Box :=
  compress (map (fun b => in_run c (x0 b)) (x_sorted_boxes_chunk boxes r))
    (x_sorted_boxes_chunk boxes r).

(** The identifier arrays that go with them. *)
Definition y_sorted_indices (boxes : list Box) (indices : list nat) : list nat :=
  take_idx indices (argsort (map y0 boxes)).

Definition y_sorted_indices_chunk (boxes : list Box) (indices : list nat)
  (r : Z * Z) : list nat :=
  compress (map (fun b => in_run r (y0 b)) (y_sorted_boxes boxes))
    (y_sorted_indices boxes indices).

Definition x_sorted_indices_chunk (boxes : list Box) (indices : list nat)
  (r : Z * Z) : list nat :=
  take_idx (y_sorted_indices_chunk boxes indices r)
    (argsort (map x0 (y_sorted_boxes_chunk boxes r))).

(** Boxes [a] and [b] fall in one band of the vertical split: one run
    [r] of the split holds both vertical start coordinates, so both
    boxes are in the chunk of [r] that is split horizontally next. *)
Definition same_band (boxes : list Box) (a b : Box) : Prop :=
  exists y_projection arr_y0 arr_y1 r,
    projection_by_bboxes (y_sorted_boxes boxes) 1 = Ok y_projection /\
    split_projection_profile y_projection 0 1 = Some (arr_y0, arr_y1) /\
    In r (combine arr_y0 arr_y1) /\
    In a (y_sorted_boxes_chunk boxes r) /\ In b (y_sorted_boxes_chunk boxes r).

End Chunks.

(** The two layout helpers when no category is ignored: the split keeps
    every region for sorting and the merge appends the sorted regions to
    the (empty) ignored ones.  [process_page] is evaluated with them. *)
Definition split_nothing_ignored (layout : PageLayout) (_ : unit)
  : PageLayout * PageLayout :=
  (layout, mkPageLayout []).

Definition merge_appending (page_layout_ignore page_layout : PageLayout) : PageLayout :=
  mkPageLayout (regions page_layout_ignore ++ regions page_layout).

(** The number of empty units between the vertical extents of two boxes;
    zero when they touch, negative when they overlap. *)
Definition vertical_gap (a b : Box) : Z :=
  Z.max (y0 a) (y0 b) - Z.min (y1 a) (y1 b).

(** The runs of the projection of a list of pairs on an axis, thresholds
    (0, 1): the bands for axis 1, the columns for axis 0. *)
Definition runs_of (axis : Z) (L : list (Box * nat)) : list (Z * Z) :=
  match projection_by_bboxes (map fst L) axis with
  | Ok h => profile_runs h 0 1
  | Raise _ => []
  end.

(** The value of the cut on pairs when the call depth is the number of
    pairs (enough on well-formed boxes, see [cut_pairs_value]), and the
    value of one band in terms of it. *)
Definition cut_value (argsort : list Z -> list nat) (L : list (Box * nat))
  : list (Box * nat) :=
  match cut_pairs argsort (length L) L with
  | Ok o => o
  | Raise _ => []
  end.

Definition band_value (argsort : list Z -> list nat) (T : list (Box * nat))
  : list (Box * nat) :=
  if (length (runs_of 0 T) =? 1)%nat then T
  else concat (map (fun c => cut_value argsort
                               (filter (fun p => in_run c (px0 p)) (sort_by argsort px0 T)))
                 (runs_of 0 T)).

(** A two-by-two grid of boxes, given bottom-right first. *)
Definition grid_boxes : list Box :=
  [mkBox 10 20 15 30; mkBox 0 0 5 10; mkBox 10 0 15 10; mkBox 0 20 5 30].

(** The steps between consecutive members of a list of positions. *)
Fixpoint steps (l : list Z) : list Z :=
  match l with
  | a :: (b :: _) as t => (b - a) :: steps t
  | _ => []
  end.

(** Position [p] of a histogram is active for a threshold. *)
Definition active (h : list Z) (min_value : Q) (p : Z) : Prop :=
  0 <= p < Z.of_nat (length h) /\ exceeds (nth (Z.to_nat p) h 0) min_value.

(** The sum of an integer array. *)
Definition total (l : list Z) : Z := fold_right Z.add 0 l.

(** The result of a call with its normal value mapped. *)
Definition map_result {A B : Type} (g : A -> B) (r : result A) : result B :=
  match r with
  | Ok a => Ok (g a)
  | Raise e => Raise e
  end.

(** [x] comes before [y] in a list. *)
Definition precedes {A : Type} (x y : A) (l : list A) : Prop :=
  exists l1 l2 l3, l = l1 ++ x :: l2 ++ y :: l3.

(** A polygon with non-negative coordinates, a positive width and a
    positive height. *)
Definition proper_polygon (poly : list (Q * Q)) : Prop :=
  (forall p, In p poly -> (0 <= fst p)%Q /\ (0 <= snd p)%Q) /\
  (exists p q, In p poly /\ In q poly /\ (fst p < fst q)%Q) /\
  (exists p q, In p poly /\ In q poly /\ (snd p < snd q)%Q).

(** Four regions of a two-by-two page, bottom-right first; their boxes
    are [grid_boxes]. *)
Definition grid_regions : list Region :=
  [mkRegion 0 [(21 # 2, 41 # 2); (15, 41 # 2); (15, 30); (21 # 2, 30)]%Q;
   mkRegion 1 [(0, 0); (5, 0); (5, 10); (0, 10)]%Q;
   mkRegion 2 [(10, 0); (29 # 2, 19 # 2)]%Q;
   mkRegion 3 [(1 # 3, 20); (5, 20); (5, 30); (1 # 3, 30)]%Q].

(** Boxes that start on the same row are kept apart by an empty column:
    any two boxes at different positions with the same [y0] have a
    column [g] between their left edges that no box of the list covers.
    It holds in particular when no two boxes share [y0]. *)
Definition tied_boxes_apart (boxes : list Box) : Prop :=
  forall i j a b,
    nth_error boxes i = Some a -> nth_error boxes j = Some b ->
    i <> j -> y0 a = y0 b ->
    exists g, (x0 a < g <= x0 b \/ x0 b < g <= x0 a) /\ coverage boxes 0 g = 0.

(** The same on (box, identifier) pairs. *)
Definition ties_apart (L : list (Box * nat)) : Prop :=
  forall p q, In p L -> In q L -> p <> q -> py0 p = py0 q ->
    exists g, (px0 p < g <= px0 q \/ px0 q < g <= px0 p) /\
              forall x, In x L -> in_run (axis_slice 0 (fst x)) g = false.

(** * Properties *)

(** ** Lists and the numpy operations *)

Lemma where_from_filter {A : Type} (f : A -> bool) (d : A) (l : list A) (i : nat) :
  where_from f i l = filter (fun j => f (nth (j - i) l d)) (seq i (length l)).
Proof.
  revert i; induction l as [|a t IH]; intros i; simpl; [reflexivity|].
  rewrite Nat.sub_diag. rewrite IH.
  assert (E : filter (fun j => f (nth (j - S i) t d)) (seq (S i) (length t)) =
              filter (fun j => f match (j - i)%nat with O => a | S m => nth m t d end)
                (seq (S i) (length t))).
  { apply filter_ext_in. intros j Hj. apply in_seq in Hj.
    replace (j - i)%nat with (S (j - S i)) by lia. reflexivity. }
  rewrite E. destruct (f a); reflexivity.
Qed.

Lemma where_from_S {A : Type} (f : A -> bool) (l : list A) (i : nat) :
  where_from f (S i) l = map S (where_from f i l).
Proof.
  revert i; induction l as [|a t IH]; intros i; simpl; [reflexivity|].
  rewrite IH. destruct (f a); reflexivity.
Qed.

Lemma where_from_lt {A : Type} (f : A -> bool) (l : list A) (i j : nat) :
  In j (where_from f i l) -> (i <= j < i + length l)%nat.
Proof.
  revert i; induction l as [|a t IH]; intros i; simpl; [tauto|].
  destruct (f a); simpl; intros H.
  - destruct H as [->|H]; [lia|]. apply IH in H. lia.
  - apply IH in H. lia.
Qed.

Lemma np_where_active (h : list Z) (min_value : Q) :
  map Z.of_nat (np_where (fun v => gt_threshold v min_value) h)
  = active_positions h min_value.
Proof.
  unfold np_where, active_positions. f_equal.
  rewrite (where_from_filter _ 0 h 0%nat).
  apply filter_ext. intros j. rewrite Nat.sub_0_r. reflexivity.
Qed.

Lemma take_idx_nil {A : Type} (l : list A) : take_idx l [] = [].
Proof. reflexivity. Qed.

Lemma take_idx_app {A : Type} (l : list A) (i j : list nat) :
  take_idx l (i ++ j) = take_idx l i ++ take_idx l j.
Proof. unfold take_idx. apply flat_map_app. Qed.

Lemma take_idx_cons_S {A : Type} (a : A) (l : list A) (idx : list nat) :
  take_idx (a :: l) (map S idx) = take_idx l idx.
Proof.
  unfold take_idx. induction idx as [|i t IH]; simpl; [reflexivity|].
  rewrite IH. reflexivity.
Qed.

(** ** The profile splitter *)

Lemma gt_threshold_true (v : Z) (t : Q) :
  gt_threshold v t = true <-> (t < inject_Z v)%Q.
Proof.
  unfold gt_threshold. rewrite negb_true_iff. split.
  - intros E. apply Qnot_le_lt. intros H. apply Qle_bool_iff in H. congruence.
  - intros H. destruct (Qle_bool (inject_Z v) t) eqn:E; [|reflexivity].
    apply Qle_bool_iff in E. exfalso. apply (Qlt_not_le _ _ H E).
Qed.

Lemma gt_threshold_false (v : Z) (t : Q) :
  gt_threshold v t = false <-> (inject_Z v <= t)%Q.
Proof.
  unfold gt_threshold. rewrite negb_false_iff. apply Qle_bool_iff.
Qed.

Lemma groups_of_head (mg : Q) (t : list Z) (a : Z) :
  exists g gs, groups_of mg a t = (a :: g) :: gs.
Proof.
  destruct t as [|p t']; simpl; [now exists [], []|].
  destruct (gt_threshold (p - a) mg); [now eexists; eexists|].
  destruct (groups_of mg p t') as [|g gs]; [now exists [], []|].
  now exists g, gs.
Qed.

Lemma groups_of_concat (mg : Q) (t : list Z) (a : Z) :
  concat (groups_of mg a t) = a :: t.
Proof.
  revert a; induction t as [|p t' IH]; intros a; simpl; [reflexivity|].
  specialize (IH p).
  destruct (gt_threshold (p - a) mg); simpl; [now rewrite IH|].
  destruct (groups_of_head mg t' p) as (g & gs & E). rewrite E in *.
  simpl in *. now rewrite IH.
Qed.

Lemma groups_of_nonempty (mg : Q) (t : list Z) (a : Z) :
  Forall (fun g => g <> []) (groups_of mg a t).
Proof.
  revert a; induction t as [|p t' IH]; intros a; simpl.
  - constructor; [discriminate|constructor].
  - specialize (IH p). destruct (gt_threshold (p - a) mg).
    + constructor; [discriminate|exact IH].
    + destruct (groups_of mg p t') as [|g gs].
      * constructor; [discriminate|constructor].
      * inversion IH; subst. constructor; [discriminate|assumption].
Qed.

Lemma groups_of_within (mg : Q) (t : list Z) (a : Z) :
  Forall (within_gap mg) (groups_of mg a t).
Proof.
  revert a; induction t as [|p t' IH]; intros a; simpl.
  - constructor; [exact I|constructor].
  - specialize (IH p). destruct (gt_threshold (p - a) mg) eqn:G.
    + constructor; [exact I|exact IH].
    + destruct (groups_of_head mg t' p) as (g & gs & E). rewrite E in *.
      inversion IH; subst. constructor; [|assumption].
      simpl. split; [now apply gt_threshold_false|assumption].
Qed.

Lemma groups_of_between (mg : Q) (t : list Z) (a : Z) :
  gap_between mg (groups_of mg a t).
Proof.
  revert a; induction t as [|p t' IH]; intros a; simpl; [exact I|].
  specialize (IH p). destruct (gt_threshold (p - a) mg) eqn:G.
  - destruct (groups_of_head mg t' p) as (g & gs & E). rewrite E in *.
    split; [now apply gt_threshold_true|exact IH].
  - destruct (groups_of_head mg t' p) as (g & gs & E). rewrite E in *.
    destruct gs as [|g2 gs']; [exact I|].
    simpl in IH. destruct IH as [H1 H2]. split; [|exact H2].
    change (last (a :: p :: g) 0) with (last (p :: g) 0). exact H1.
Qed.

Lemma arr_diff_index_step (mg : Q) (a p : Z) (t' : list Z) :
  np_where (fun d => gt_threshold d mg)
    (map (fun ab => fst ab - snd ab)
       (combine (tl (a :: p :: t')) (removelast (a :: p :: t'))))
  = (if gt_threshold (p - a) mg then [0%nat] else []) ++
    map S (np_where (fun d => gt_threshold d mg)
             (map (fun ab => fst ab - snd ab)
                (combine (tl (p :: t')) (removelast (p :: t'))))).
Proof.
  change (tl (a :: p :: t')) with (p :: t').
  change (removelast (a :: p :: t')) with (a :: removelast (p :: t')).
  change (tl (p :: t')) with t'.
  unfold np_where.
  change (combine (p :: t') (a :: removelast (p :: t')))
    with ((p, a) :: combine t' (removelast (p :: t'))).
  rewrite map_cons. cbn [where_from fst snd]. rewrite where_from_S.
  destruct (gt_threshold (p - a) mg); reflexivity.
Qed.

(** The arrays the code builds by index arithmetic are the heads and the
    last members of the groups. *)
Lemma split_arrays_groups (mg : Q) (t : list Z) (a : Z) :
  let L := a :: t in
  let DI := np_where (fun d => gt_threshold d mg)
              (map (fun ab => fst ab - snd ab) (combine (tl L) (removelast L))) in
  hd 0 L :: take_idx L (map S DI) = map (hd 0) (groups_of mg a t) /\
  map (fun e => e + 1) (take_idx L DI ++ [last L 0])
  = map (fun g => last g 0 + 1) (groups_of mg a t).
Proof.
  revert a; induction t as [|p t' IH]; intros a.
  - simpl. split; reflexivity.
  - specialize (IH p). cbv zeta in IH. destruct IH as [IH1 IH2].
    cbv zeta. rewrite arr_diff_index_step.
    set (DI' := np_where (fun d => gt_threshold d mg)
                  (map (fun ab => fst ab - snd ab)
                     (combine (tl (p :: t')) (removelast (p :: t'))))) in *.
    change (last (a :: p :: t') 0) with (last (p :: t') 0).
    change (hd 0 (a :: p :: t')) with a.
    change (hd 0 (p :: t')) with p in IH1.
    cbn [groups_of]. rewrite map_app, !take_idx_app.
    rewrite (take_idx_cons_S a (p :: t') (map S DI')).
    rewrite (take_idx_cons_S a (p :: t') DI').
    destruct (gt_threshold (p - a) mg) eqn:G.
    + change (take_idx (a :: p :: t') (map S [0%nat])) with [p].
      change (take_idx (a :: p :: t') [0%nat]) with [a].
      cbn [app map hd last]. rewrite <- IH1, <- IH2. split; reflexivity.
    + cbn [map app take_idx flat_map].
      destruct (groups_of_head mg t' p) as (g & gs & E). rewrite E in *.
      cbn [map hd] in IH1. injection IH1 as IH1. split.
      * cbn [map hd]. now rewrite IH1.
      * rewrite IH2. reflexivity.
Qed.

(** What [split_projection_profile] returns, in terms of the groups of the
    active positions. *)
Lemma split_projection_profile_groups (h : list Z) (mv mg : Q) :
  split_projection_profile h mv mg =
  match active_positions h mv with
  | [] => None
  | a :: t => Some (map (hd 0) (groups_of mg a t),
                    map (fun g => last g 0 + 1) (groups_of mg a t))
  end.
Proof.
  unfold split_projection_profile. rewrite np_where_active.
  destruct (active_positions h mv) as [|a t]; [reflexivity|].
  simpl length. simpl Nat.eqb. cbv iota.
  destruct (split_arrays_groups mg t a) as [H1 H2]. cbv zeta in H1, H2.
  rewrite H1, H2. reflexivity.
Qed.

Lemma combine_map_same {A B C : Type} (f : A -> B) (g : A -> C) (l : list A) :
  combine (map f l) (map g l) = map (fun x => (f x, g x)) l.
Proof. induction l as [|a t IH]; simpl; [reflexivity|now rewrite IH]. Qed.

Lemma profile_runs_groups (h : list Z) (mv mg : Q) :
  profile_runs h mv mg =
  match active_positions h mv with
  | [] => []
  | a :: t => map run_of_group (groups_of mg a t)
  end.
Proof.
  unfold profile_runs. rewrite split_projection_profile_groups.
  destruct (active_positions h mv) as [|a t]; [reflexivity|].
  apply combine_map_same.
Qed.

Lemma runs_cons (mg : Q) (a p : Z) (t : list Z) :
  map run_of_group (groups_of mg a (p :: t)) =
  if gt_threshold (p - a) mg
  then (a, a + 1) :: map run_of_group (groups_of mg p t)
  else (a, snd (hd (0, 0) (map run_of_group (groups_of mg p t))))
         :: tl (map run_of_group (groups_of mg p t)).
Proof.
  cbn [groups_of]. destruct (gt_threshold (p - a) mg); [reflexivity|].
  destruct (groups_of_head mg t p) as (g & gs & E). rewrite E.
  reflexivity.
Qed.

Lemma runs_head (mg : Q) (a : Z) (t : list Z) :
  exists e rs, map run_of_group (groups_of mg a t) = (a, e) :: rs.
Proof.
  destruct (groups_of_head mg t a) as (g & gs & E). rewrite E.
  now eexists; eexists.
Qed.

Lemma gt_threshold_0 (v : Z) : gt_threshold v 0 = true <-> 0 < v.
Proof.
  unfold gt_threshold. rewrite negb_true_iff.
  destruct (Qle_bool (inject_Z v) 0) eqn:E.
  - apply Qle_bool_iff in E. change 0%Q with (inject_Z 0) in E.
    rewrite <- Zle_Qle in E. split; [discriminate|lia].
  - split; [intros _|reflexivity].
    destruct (Z_lt_le_dec 0 v) as [H|H]; [exact H|].
    rewrite (Zle_Qle v 0) in H. apply Qle_bool_iff in H.
    change (inject_Z 0) with 0%Q in H. congruence.
Qed.

Lemma gt_threshold_1 (v : Z) : gt_threshold v 1 = true <-> 1 < v.
Proof.
  unfold gt_threshold. rewrite negb_true_iff.
  destruct (Qle_bool (inject_Z v) 1) eqn:E.
  - apply Qle_bool_iff in E. change 1%Q with (inject_Z 1) in E.
    rewrite <- Zle_Qle in E. split; [discriminate|lia].
  - split; [intros _|reflexivity].
    destruct (Z_lt_le_dec 1 v) as [H|H]; [exact H|].
    rewrite (Zle_Qle v 1) in H. apply Qle_bool_iff in H.
    change (inject_Z 1) with 1%Q in H. congruence.
Qed.

Lemma active_positions_spec (h : list Z) (mv : Q) (p : Z) :
  In p (active_positions h mv) <->
  0 <= p < Z.of_nat (length h) /\ gt_threshold (nth (Z.to_nat p) h 0) mv = true.
Proof.
  unfold active_positions. rewrite in_map_iff. split.
  - intros (i & <- & Hi). apply filter_In in Hi. destruct Hi as [Hi Hf].
    apply in_seq in Hi. rewrite Nat2Z.id. split; [lia|exact Hf].
  - intros [Hp Hf]. exists (Z.to_nat p). split; [lia|].
    apply filter_In. split; [apply in_seq; lia|exact Hf].
Qed.

Lemma seq_sorted_lt (n i : nat) : StronglySorted lt (seq i n).
Proof.
  revert i; induction n as [|n IH]; intros i; simpl; constructor; [apply IH|].
  apply Forall_forall. intros j Hj. apply in_seq in Hj. lia.
Qed.

Lemma StronglySorted_filter {A : Type} (R : A -> A -> Prop) (f : A -> bool) (l : list A) :
  StronglySorted R l -> StronglySorted R (filter f l).
Proof.
  induction 1 as [|a l Hs IH Ha]; simpl; [constructor|].
  destruct (f a); [|exact IH]. constructor; [exact IH|].
  apply Forall_forall. intros x Hx. apply filter_In in Hx.
  rewrite Forall_forall in Ha. apply Ha. tauto.
Qed.

Lemma StronglySorted_map {A B : Type} (R : A -> A -> Prop) (R' : B -> B -> Prop)
  (f : A -> B) (l : list A) :
  (forall x y, R x y -> R' (f x) (f y)) ->
  StronglySorted R l -> StronglySorted R' (map f l).
Proof.
  intros HR. induction 1 as [|a l Hs IH Ha]; simpl; constructor; [exact IH|].
  apply Forall_forall. intros y Hy. apply in_map_iff in Hy.
  destruct Hy as (x & <- & Hx). rewrite Forall_forall in Ha. auto.
Qed.

Lemma active_positions_sorted (h : list Z) (mv : Q) :
  StronglySorted Z.lt (active_positions h mv).
Proof.
  unfold active_positions.
  apply StronglySorted_map with (R := lt); [intros; lia|].
  apply StronglySorted_filter, seq_sorted_lt.
Qed.

Lemma in_run_iff (r : Z * Z) (v : Z) : in_run r v = true <-> fst r <= v < snd r.
Proof. unfold in_run. rewrite andb_true_iff, Z.leb_le, Z.ltb_lt. tauto. Qed.

Lemma chain_inv (r : Z * Z) (rs : list (Z * Z)) :
  chain (r :: rs) ->
  fst r < snd r /\ chain rs /\
  forall r', In r' rs -> snd r <= fst r' /\ fst r' < snd r'.
Proof.
  revert r; induction rs as [|r1 rs IH]; intros r H.
  - simpl in H. repeat split; [exact H|contradiction|contradiction].
  - destruct H as (H1 & H2 & H3). destruct (IH r1 H3) as (H4 & H5 & H6).
    repeat split; try assumption.
    + destruct H as [<-|H]; [exact H2|]. specialize (H6 _ H). lia.
    + destruct H as [<-|H]; [exact H4|]. apply (H6 _ H).
Qed.

Lemma chain_cons (r : Z * Z) (rs : list (Z * Z)) :
  fst r < snd r -> chain rs ->
  (forall r', In r' rs -> snd r <= fst r') ->
  chain (r :: rs).
Proof.
  intros H1 H2 H3. destruct rs as [|r1 rs]; [exact H1|].
  split; [exact H1|]. split; [apply H3; now left|exact H2].
Qed.

Lemma chain_inv_in (rs : list (Z * Z)) (r : Z * Z) :
  chain rs -> In r rs -> fst r < snd r.
Proof.
  intros C Hr. destruct rs as [|r0 rs]; [contradiction|].
  destruct (chain_inv _ _ C) as (H1 & _ & H3).
  destruct Hr as [<-|Hr]; [exact H1|]. apply (H3 _ Hr).
Qed.

(** The runs of an ascending list of positions, for any gap threshold:
    they are ascending and disjoint, every position lies in one of them,
    and both ends of a run come from positions of the list. *)
Lemma runs_generic (mg : Q) (t : list Z) (a : Z) :
  StronglySorted Z.lt (a :: t) ->
  let R := map run_of_group (groups_of mg a t) in
  chain R /\
  (forall p, In p (a :: t) -> exists r, In r R /\ in_run r p = true) /\
  (forall r, In r R -> In (fst r) (a :: t) /\ In (snd r - 1) (a :: t)).
Proof.
  revert a; induction t as [|p t' IH]; intros a Hs; cbv zeta.
  - simpl. repeat split.
    + lia.
    + intros q [Hq|[]]. subst q. exists (a, a + 1). split; [now left|].
      apply in_run_iff; simpl; lia.
    + destruct H as [<-|[]]. now left.
    + destruct H as [<-|[]]. left. simpl. lia.
  - inversion Hs as [|? ? Hs' Ha]; subst.
    specialize (IH p Hs'). cbv zeta in IH. destruct IH as (C & Cov & Ends).
    rewrite runs_cons. destruct (runs_head mg p t') as (e & rs & E).
    rewrite E in *. cbn [hd tl snd].
    destruct (chain_inv _ _ C) as (C1 & C2 & C3). cbn [fst snd] in C1, C3.
    assert (Hap : a < p) by (inversion Ha; assumption).
    destruct (gt_threshold (p - a) mg).
    + repeat split.
      * cbn [chain fst snd]. lia.
      * cbn [fst snd]. lia.
      * exact C.
      * intros q [Hq|Hq].
        -- subst q. exists (a, a + 1). split; [now left|]. apply in_run_iff; simpl; lia.
        -- destruct (Cov q Hq) as (r & Hr & Hin). exists r. split; [now right|exact Hin].
      * destruct H as [<-|H]; [now left|]. right. apply (Ends _ H).
      * destruct H as [<-|H]; [left; simpl; lia|]. right. apply (Ends _ H).
    + repeat split.
      * apply chain_cons; [cbn; lia|exact C2|].
        intros r' Hr'. apply (C3 _ Hr').
      * intros q [Hq|Hq].
        -- subst q. exists (a, e). split; [now left|]. apply in_run_iff; simpl; lia.
        -- destruct (Cov q Hq) as (r & [<-|Hr] & Hin).
           ++ exists (a, e). split; [now left|].
              apply in_run_iff in Hin. apply in_run_iff. simpl in *. lia.
           ++ exists r. split; [now right|exact Hin].
      * destruct H as [<-|H]; [now left|]. right. apply (Ends r). now right.
      * destruct H as [<-|H].
        -- right. apply (Ends (p, e)). now left.
        -- right. apply (Ends r). now right.
Qed.

(** With the gap threshold 1 a run is a maximal interval of consecutive
    positions of the list. *)
Lemma runs_gap1 (t : list Z) (a : Z) :
  StronglySorted Z.lt (a :: t) ->
  forall r, In r (map run_of_group (groups_of 1 a t)) ->
  (forall q, fst r <= q < snd r -> In q (a :: t)) /\
  ~ In (fst r - 1) (a :: t) /\ ~ In (snd r) (a :: t).
Proof.
  revert a; induction t as [|p t' IH]; intros a Hs r Hr.
  - simpl in Hr. destruct Hr as [<-|[]]. cbn [fst snd run_of_group hd last].
    repeat split.
    + intros q Hq. left. lia.
    + intros [H|[]]. lia.
    + intros [H|[]]. lia.
  - inversion Hs as [|? ? Hs' Ha]; subst.
    specialize (IH p Hs').
    destruct (runs_generic 1 t' p Hs') as (C & _ & Ends).
    rewrite runs_cons in Hr. destruct (runs_head 1 p t') as (e & rs & E).
    rewrite E in *. cbn [hd tl snd] in Hr.
    destruct (chain_inv _ _ C) as (C1 & C2 & C3). cbn [fst snd] in C1, C3.
    assert (Hap : a < p) by (inversion Ha; assumption).
    assert (Hlb : forall q, In q (p :: t') -> p <= q).
    { intros q [<-|Hq]; [lia|]. inversion Hs' as [|? ? _ Hp]; subst.
      rewrite Forall_forall in Hp. specialize (Hp _ Hq). lia. }
    destruct (gt_threshold (p - a) 1) eqn:G.
    + apply gt_threshold_1 in G. destruct Hr as [<-|Hr]; cbn [fst snd].
      * repeat split.
        -- intros q Hq. left. lia.
        -- intros [H|H]; [lia|]. apply Hlb in H. lia.
        -- intros [H|H]; [lia|]. apply Hlb in H. lia.
      * destruct (IH r Hr) as (I1 & I2 & I3).
        assert (Hr1 : p <= fst r /\ fst r < snd r).
        { destruct Hr as [<-|Hr]; [simpl; lia|]. specialize (C3 _ Hr). lia. }
        repeat split.
        -- intros q Hq. right. apply I1, Hq.
        -- intros [H|H]; [lia|]. apply I2, H.
        -- intros [H|H]; [lia|]. apply I3, H.
    + assert (Hp : p = a + 1).
      { destruct (Z_lt_le_dec 1 (p - a)) as [H|H]; [|lia].
        apply gt_threshold_1 in H. congruence. }
      destruct Hr as [<-|Hr]; cbn [fst snd].
      * destruct (IH (p, e) (or_introl eq_refl)) as (I1 & I2 & I3).
        cbn [fst snd] in I1, I2, I3. repeat split.
        -- intros q Hq. destruct (Z.eq_dec q a) as [->|Hne]; [now left|].
           right. apply I1. lia.
        -- intros [H|H]; [lia|]. apply Hlb in H. lia.
        -- intros [H|H]; [lia|]. apply I3, H.
      * destruct (IH r (or_intror Hr)) as (I1 & I2 & I3).
        specialize (C3 _ Hr). repeat split.
        -- intros q Hq. right. apply I1, Hq.
        -- intros [H|H]; [lia|]. apply I2, H.
        -- intros [H|H]; [lia|]. apply I3, H.
Qed.

Lemma active_positions_Qlt (h : list Z) (mv : Q) (p : Z) :
  In p (active_positions h mv) <->
  0 <= p < Z.of_nat (length h) /\ exceeds (nth (Z.to_nat p) h 0) mv.
Proof. rewrite active_positions_spec, gt_threshold_true. unfold exceeds. tauto. Qed.

Lemma active_positions_nil (h : list Z) (mv : Q) :
  active_positions h mv = [] <->
  ~ exists p, (p < length h)%nat /\ exceeds (nth p h 0) mv.
Proof.
  split.
  - intros E (p & Hp & Hv).
    assert (H : In (Z.of_nat p) (active_positions h mv)).
    { apply active_positions_Qlt. rewrite Nat2Z.id. split; [lia|exact Hv]. }
    rewrite E in H. exact H.
  - intros H. destruct (active_positions h mv) as [|a t] eqn:E; [reflexivity|].
    exfalso. apply H. assert (Ha : In a (active_positions h mv)) by (rewrite E; now left).
    apply active_positions_Qlt in Ha. exists (Z.to_nat a). split; [lia|tauto].
Qed.

(** C6: [split_projection_profile] returns [None] exactly when no position
    of the histogram has a value strictly above [min_value]; when some
    position has, it returns a pair of non-empty boundary sequences. *)
Theorem split_none_iff_no_active (h : list Z) (min_value min_gap : Q) :
  (split_projection_profile h min_value min_gap = None <->
   ~ exists p, (p < length h)%nat /\ exceeds (nth p h 0) min_value) /\
  ((exists p, (p < length h)%nat /\ exceeds (nth p h 0) min_value) ->
   exists starts ends,
     split_projection_profile h min_value min_gap = Some (starts, ends) /\
     starts <> [] /\ ends <> []).
Proof.
  rewrite split_projection_profile_groups.
  pose proof (active_positions_nil h min_value) as N.
  destruct (active_positions h min_value) as [|a t].
  - split.
    + split; [intros _; now apply N|reflexivity].
    + intros H. exfalso. destruct N as [N _]. now apply N.
  - split.
    + split; [discriminate|]. intros H. apply N in H. discriminate.
    + intros _. destruct (groups_of_head min_gap t a) as (g & gs & E).
      rewrite E. eexists; eexists. split; [reflexivity|].
      split; discriminate.
Qed.

(** C5: on a histogram with an active position the splitter returns
    [starts] and [ends] of one length; they are the first member and the
    last member plus one of the groups into which the ascending active
    positions fall when a new group opens exactly at the steps larger than
    [min_gap]; and [starts[i] < ends[i] <= starts[i+1]]. *)
Theorem split_runs_are_gap_groups (h : list Z) (min_value min_gap : Q) :
  (exists p, (p < length h)%nat /\ exceeds (nth p h 0) min_value) ->
  exists starts ends groups,
    split_projection_profile h min_value min_gap = Some (starts, ends) /\
    length starts = length ends /\
    (forall p, In p (concat groups) <->
       0 <= p < Z.of_nat (length h) /\ exceeds (nth (Z.to_nat p) h 0) min_value) /\
    StronglySorted Z.lt (concat groups) /\
    Forall (fun g => g <> [] /\ within_gap min_gap g) groups /\
    gap_between min_gap groups /\
    starts = map (hd 0) groups /\
    ends = map (fun g => last g 0 + 1) groups /\
    chain (combine starts ends).
Proof.
  intros Hact. rewrite split_projection_profile_groups.
  pose proof (active_positions_nil h min_value) as N.
  pose proof (active_positions_sorted h min_value) as Hs.
  pose proof (active_positions_Qlt h min_value) as Hin.
  destruct (active_positions h min_value) as [|a t].
  { exfalso. destruct N as [N _]. now apply N. }
  exists (map (hd 0) (groups_of min_gap a t)),
         (map (fun g => last g 0 + 1) (groups_of min_gap a t)),
         (groups_of min_gap a t).
  rewrite groups_of_concat, !length_map.
  split; [reflexivity|]. split; [reflexivity|]. split; [exact Hin|].
  split; [exact Hs|]. split.
  { apply Forall_forall. intros g Hg. split.
    - pose proof (groups_of_nonempty min_gap t a) as F.
      rewrite Forall_forall in F. now apply F.
    - pose proof (groups_of_within min_gap t a) as F.
      rewrite Forall_forall in F. now apply F. }
  split; [apply groups_of_between|].
  split; [reflexivity|]. split; [reflexivity|].
  rewrite combine_map_same.
  apply (runs_generic min_gap t a Hs).
Qed.

Lemma split_runs_witness :
  (exists p, (p < length [0; 1; 1; 0; 0; 1; 0; 2; 0; 0; 0; 1])%nat /\
             exceeds (nth p [0; 1; 1; 0; 0; 1; 0; 2; 0; 0; 0; 1] 0) 0) /\
  exists starts ends groups,
    split_projection_profile [0; 1; 1; 0; 0; 1; 0; 2; 0; 0; 0; 1] 0 2
      = Some (starts, ends) /\
    length starts = length ends /\
    (forall p, In p (concat groups) <->
       0 <= p < Z.of_nat (length [0; 1; 1; 0; 0; 1; 0; 2; 0; 0; 0; 1]) /\
       exceeds (nth (Z.to_nat p) [0; 1; 1; 0; 0; 1; 0; 2; 0; 0; 0; 1] 0) 0) /\
    StronglySorted Z.lt (concat groups) /\
    Forall (fun g => g <> [] /\ within_gap 2 g) groups /\
    gap_between 2 groups /\
    starts = map (hd 0) groups /\
    ends = map (fun g => last g 0 + 1) groups /\
    chain (combine starts ends).
Proof.
  assert (H : exists p, (p < length [0; 1; 1; 0; 0; 1; 0; 2; 0; 0; 0; 1])%nat /\
             exceeds (nth p [0; 1; 1; 0; 0; 1; 0; 2; 0; 0; 0; 1] 0) 0).
  { exists 1%nat. split; [simpl; lia|reflexivity]. }
  split; [exact H|].
  exact (split_runs_are_gap_groups [0; 1; 1; 0; 0; 1; 0; 2; 0; 0; 0; 1] 0 2 H).
Defined.

(** ** The projection profile *)

Lemma incr_from_length (p lo hi : Z) (res : list Z) :
  length (incr_from p lo hi res) = length res.
Proof.
  revert p; induction res as [|v t IH]; intros p; simpl; [reflexivity|].
  now rewrite IH.
Qed.

Lemma incr_from_nth (lo hi : Z) (res : list Z) (p : Z) (i : nat) :
  (i < length res)%nat ->
  nth i (incr_from p lo hi res) 0 =
  nth i res 0 +
  (if (lo <=? p + Z.of_nat i) && (p + Z.of_nat i <? hi) then 1 else 0).
Proof.
  revert p i; induction res as [|v t IH]; intros p i Hi; simpl in Hi; [lia|].
  destruct i as [|i]; cbn [incr_from nth].
  - rewrite Z.add_0_r. destruct ((lo <=? p) && (p <? hi)); lia.
  - rewrite IH by lia. replace (p + 1 + Z.of_nat i) with (p + Z.of_nat (S i)) by lia.
    reflexivity.
Qed.

Lemma slice_incr_length (res : list Z) (s e : Z) :
  length (slice_incr res s e) = length res.
Proof. apply incr_from_length. Qed.

Lemma slice_incr_nth (res : list Z) (s e : Z) (i : nat) :
  (i < length res)%nat ->
  nth i (slice_incr res s e) 0 =
  nth i res 0 + (if in_slice (Z.of_nat (length res)) (s, e) (Z.of_nat i) then 1 else 0).
Proof.
  intros Hi. unfold slice_incr. rewrite incr_from_nth by exact Hi.
  rewrite Z.add_0_l. reflexivity.
Qed.

Lemma fold_slice_incr_length (cols : list (Z * Z)) (res : list Z) :
  length (fold_left (fun res se => slice_incr res (fst se) (snd se)) cols res)
  = length res.
Proof.
  revert res; induction cols as [|c cs IH]; intros res; simpl; [reflexivity|].
  rewrite IH. apply slice_incr_length.
Qed.

Lemma fold_slice_incr_nth (cols : list (Z * Z)) (res : list Z) (i : nat) :
  (i < length res)%nat ->
  nth i (fold_left (fun res se => slice_incr res (fst se) (snd se)) cols res) 0 =
  nth i res 0 +
  Z.of_nat (length (filter (fun se => in_slice (Z.of_nat (length res)) se (Z.of_nat i)) cols)).
Proof.
  revert res; induction cols as [|c cs IH]; intros res Hi; simpl.
  - lia.
  - rewrite IH by (rewrite slice_incr_length; exact Hi).
    rewrite slice_incr_length, slice_incr_nth by exact Hi.
    destruct c as [s e]. cbn [fst snd].
    destruct (in_slice (Z.of_nat (length res)) (s, e) (Z.of_nat i)); simpl length; lia.
Qed.

Lemma fold_max_spec (t : list Z) (a : Z) :
  let m := fold_left Z.max t a in
  In m (a :: t) /\ forall x, In x (a :: t) -> x <= m.
Proof.
  revert a; induction t as [|b t IH]; intros a; cbv zeta.
  - simpl. split; [now left|]. intros x [<-|[]]. lia.
  - cbn [fold_left]. destruct (IH (Z.max a b)) as [H1 H2]. split.
    + destruct H1 as [H1|H1]; [|right; now right].
      rewrite <- H1. destruct (Z.max_spec a b) as [[_ ->]|[_ ->]];
        [right; now left|now left].
    + intros x [<-|[<-|Hx]].
      * specialize (H2 (Z.max a b) (or_introl eq_refl)). lia.
      * specialize (H2 (Z.max a b) (or_introl eq_refl)). lia.
      * apply H2. now right.
Qed.

Lemma np_max_spec (l : list Z) (m : Z) :
  np_max l = Some m -> In m l /\ forall x, In x l -> x <= m.
Proof.
  destruct l as [|a t]; [discriminate|]. simpl. intros [= <-].
  apply fold_max_spec.
Qed.

Lemma np_max_some (l : list Z) : l <> [] -> exists m, np_max l = Some m.
Proof. destruct l; [congruence|]. intros _. now eexists. Qed.

Lemma np_max_perm (l l' : list Z) :
  Permutation l l' -> np_max l = np_max l'.
Proof.
  intros P. destruct l as [|a t].
  - apply Permutation_nil in P. now subst.
  - destruct l' as [|a' t'].
    + apply Permutation_sym, Permutation_nil in P. discriminate.
    + destruct (np_max_spec (a :: t) _ eq_refl) as [H1 H2].
      destruct (np_max_spec (a' :: t') _ eq_refl) as [H3 H4].
      simpl. f_equal. apply Z.le_antisymm.
      * apply H4. now apply (Permutation_in _ P).
      * apply H2. now apply (Permutation_in _ (Permutation_sym P)).
Qed.

Lemma filter_map_comm {A B : Type} (f : B -> bool) (g : A -> B) (l : list A) :
  filter f (map g l) = map g (filter (fun a => f (g a)) l).
Proof.
  induction l as [|a t IH]; simpl; [reflexivity|].
  rewrite IH. destruct (f (g a)); reflexivity.
Qed.

Lemma filter_perm {A : Type} (f : A -> bool) (l l' : list A) :
  Permutation l l' -> Permutation (filter f l) (filter f l').
Proof.
  induction 1 as [|x l l' P IH|x y l|l l' l'' P1 IH1 P2 IH2]; simpl.
  - constructor.
  - destruct (f x); [now constructor|exact IH].
  - destruct (f x), (f y); try reflexivity. constructor.
  - now transitivity (filter f l').
Qed.

(** The histogram the projection builds, for any boxes: one entry per
    position below the largest coordinate, counting the slices that hold
    the position. *)
Lemma projection_by_bboxes_general (boxes : list Box) (axis : Z) :
  axis = 0 \/ axis = 1 ->
  boxes <> [] ->
  exists m,
    np_max (flat_map (fun se => [fst se; snd se]) (map (axis_slice axis) boxes)) = Some m /\
    (m < 0 -> projection_by_bboxes boxes axis = Raise ValueError) /\
    (0 <= m ->
     exists h, projection_by_bboxes boxes axis = Ok h /\
       length h = Z.to_nat m /\
       forall i, (i < length h)%nat ->
         nth i h 0 =
         Z.of_nat (length (filter (fun b => in_slice m (axis_slice axis b) (Z.of_nat i)) boxes))).
Proof.
  intros Hax Hne. unfold projection_by_bboxes.
  assert (E : negb ((axis =? 0) || (axis =? 1)) = false).
  { destruct Hax as [-> | ->]; reflexivity. }
  rewrite E.
  destruct (np_max_some (flat_map (fun se => [fst se; snd se]) (map (axis_slice axis) boxes)))
    as (m & Hm).
  { destruct boxes; [congruence|]. discriminate. }
  exists m. rewrite Hm. split; [reflexivity|]. split.
  - intros Hneg. apply Z.ltb_lt in Hneg. now rewrite Hneg.
  - intros Hpos. assert (F : (m <? 0) = false) by (apply Z.ltb_ge; exact Hpos).
    rewrite F. eexists. split; [reflexivity|].
    rewrite fold_slice_incr_length, repeat_length. split; [reflexivity|].
    intros i Hi. rewrite fold_slice_incr_nth by (rewrite repeat_length; exact Hi).
    rewrite repeat_length, nth_repeat, Z.add_0_l, Z2Nat.id by exact Hpos.
    rewrite filter_map_comm, length_map. reflexivity.
Qed.

Lemma projection_by_bboxes_perm (boxes boxes' : list Box) (axis : Z) :
  Permutation boxes boxes' ->
  projection_by_bboxes boxes axis = projection_by_bboxes boxes' axis.
Proof.
  intros P. unfold projection_by_bboxes.
  destruct (negb ((axis =? 0) || (axis =? 1))); [reflexivity|].
  rewrite (np_max_perm _ (flat_map (fun se => [fst se; snd se]) (map (axis_slice axis) boxes'))).
  2:{ apply Permutation_flat_map, Permutation_map, P. }
  destruct (np_max _) as [m|]; [|reflexivity].
  destruct (m <? 0); [reflexivity|]. f_equal.
  apply nth_ext with (d := 0) (d' := 0).
  - now rewrite !fold_slice_incr_length.
  - intros i Hi. rewrite fold_slice_incr_length in Hi.
    rewrite !fold_slice_incr_nth by exact Hi. f_equal. f_equal.
    apply Permutation_length, filter_perm, Permutation_map, P.
Qed.

Lemma axis_slice_well_formed (axis : Z) (b : Box) :
  well_formed b -> 0 <= fst (axis_slice axis b) < snd (axis_slice axis b).
Proof.
  intros [Hx Hy]. unfold axis_slice. destruct (axis =? 0); simpl; lia.
Qed.

(** The histogram of well-formed boxes: its length is the largest
    coordinate [m] on the axis and its entries count the covering boxes. *)
Lemma projection_by_bboxes_well_formed (boxes : list Box) (axis : Z) :
  boxes <> [] ->
  Forall well_formed boxes ->
  axis = 0 \/ axis = 1 ->
  exists h m,
    np_max (flat_map (fun se => [fst se; snd se]) (map (axis_slice axis) boxes)) = Some m /\
    projection_by_bboxes boxes axis = Ok h /\
    Z.of_nat (length h) = m /\
    Forall (fun b => snd (axis_slice axis b) <= m) boxes /\
    forall p, 0 <= p < m -> nth (Z.to_nat p) h 0 = coverage boxes axis p.
Proof.
  intros Hne Hwf Hax.
  destruct (projection_by_bboxes_general boxes axis Hax Hne) as (m & Hm & _ & Hok).
  destruct (np_max_spec _ _ Hm) as [Hin Hmax].
  assert (Hb : forall b, In b boxes ->
                 0 <= fst (axis_slice axis b) < snd (axis_slice axis b) /\
                 snd (axis_slice axis b) <= m).
  { intros b Hb. rewrite Forall_forall in Hwf. split.
    - apply axis_slice_well_formed, Hwf, Hb.
    - apply Hmax. apply in_flat_map. exists (axis_slice axis b).
      split; [now apply in_map|]. right. now left. }
  assert (Hpos : 0 <= m).
  { destruct boxes as [|b0 bs]; [congruence|].
    destruct (Hb b0 (or_introl eq_refl)). lia. }
  destruct (Hok Hpos) as (h & Hh & Hlen & Hnth).
  exists h, m. split; [exact Hm|]. split; [exact Hh|].
  split; [rewrite Hlen; now apply Z2Nat.id|]. split.
  { apply Forall_forall. intros b Hbb. apply (Hb b Hbb). }
  intros p Hp. rewrite Hnth by lia. unfold coverage. f_equal. f_equal.
  apply filter_ext_in. intros b Hbb. destruct (Hb b Hbb) as [H1 H2].
  unfold in_slice, in_run, slice_bound. rewrite Z2Nat.id by lia.
  replace (fst (axis_slice axis b) <? 0) with false by (symmetry; apply Z.ltb_ge; lia).
  replace (snd (axis_slice axis b) <? 0) with false by (symmetry; apply Z.ltb_ge; lia).
  rewrite !Z.min_l by lia. reflexivity.
Qed.

(** C7: on a non-empty list of well-formed boxes and an axis 0 or 1 the
    projection returns an array whose length is the largest end
    coordinate on the axis, and whose value at every position is the
    number of boxes whose half-open interval holds the position (so 0
    where no box does). *)
Theorem projection_counts_coverage (boxes : list Box) (axis : Z) :
  boxes <> [] ->
  Forall well_formed boxes ->
  axis = 0 \/ axis = 1 ->
  exists h,
    projection_by_bboxes boxes axis = Ok h /\
    Forall (fun b => snd (axis_slice axis b) <= Z.of_nat (length h)) boxes /\
    Exists (fun b => snd (axis_slice axis b) = Z.of_nat (length h)) boxes /\
    forall p, 0 <= p < Z.of_nat (length h) ->
      nth (Z.to_nat p) h 0 = coverage boxes axis p.
Proof.
  intros Hne Hwf Hax.
  destruct (projection_by_bboxes_well_formed boxes axis Hne Hwf Hax)
    as (h & m & Hm & Hh & Hlen & Hle & Hcov).
  exists h. rewrite Hlen. split; [exact Hh|]. split; [exact Hle|].
  split; [|exact Hcov].
  (* the largest coordinate is an end coordinate, starts being smaller *)
  destruct (np_max_spec _ _ Hm) as [Hin _].
  apply in_flat_map in Hin. destruct Hin as (se & Hse & Hmse).
  apply in_map_iff in Hse. destruct Hse as (b0 & <- & Hb0).
  apply Exists_exists. exists b0. split; [exact Hb0|].
  rewrite Forall_forall in Hwf, Hle.
  pose proof (axis_slice_well_formed axis b0 (Hwf b0 Hb0)) as W.
  specialize (Hle b0 Hb0). cbv beta in Hle.
  destruct Hmse as [H|[H|[]]]; [lia|exact H].
Qed.

(** ** Runs of the profile of well-formed boxes, thresholds (0, 1) *)

Lemma split_Some_runs (h : list Z) (mv mg : Q) (starts ends : list Z) :
  split_projection_profile h mv mg = Some (starts, ends) ->
  profile_runs h mv mg = combine starts ends /\
  length starts = length (combine starts ends) /\ starts <> [].
Proof.
  intros E. unfold profile_runs. rewrite E. split; [reflexivity|].
  rewrite split_projection_profile_groups in E.
  destruct (active_positions h mv) as [|a t]; [discriminate|].
  injection E as <- <-. rewrite combine_map_same, !length_map. split; [reflexivity|].
  destruct (groups_of_head mg t a) as (g & gs & E). rewrite E. discriminate.
Qed.

Lemma profile_runs_chain (h : list Z) (mv mg : Q) : chain (profile_runs h mv mg).
Proof.
  rewrite profile_runs_groups.
  pose proof (active_positions_sorted h mv) as Hs.
  destruct (active_positions h mv) as [|a t]; [exact I|].
  apply (runs_generic mg t a Hs).
Qed.

Lemma coverage_pos (boxes : list Box) (axis p : Z) :
  0 < coverage boxes axis p <->
  exists b, In b boxes /\ in_run (axis_slice axis b) p = true.
Proof.
  unfold coverage. split.
  - intros H. destruct (filter _ boxes) as [|b t] eqn:E; [simpl in H; lia|].
    exists b.
    apply (proj1 (filter_In (fun b => in_run (axis_slice axis b) p) b boxes)).
    rewrite E. now left.
  - intros (b & Hb & Hin).
    assert (Hf : In b (filter (fun b => in_run (axis_slice axis b) p) boxes))
      by (apply filter_In; tauto).
    destruct (filter _ boxes); [contradiction|]. simpl length. lia.
Qed.

Lemma well_formed_runs (boxes : list Box) (axis : Z) :
  boxes <> [] -> Forall well_formed boxes -> axis = 0 \/ axis = 1 ->
  exists h starts ends,
    projection_by_bboxes boxes axis = Ok h /\
    split_projection_profile h 0 1 = Some (starts, ends) /\
    length starts = length (combine starts ends) /\
    chain (combine starts ends) /\
    (forall b, In b boxes ->
       exists r, In r (combine starts ends) /\ in_run r (fst (axis_slice axis b)) = true) /\
    (forall r, In r (combine starts ends) ->
       exists b, In b boxes /\ in_run r (fst (axis_slice axis b)) = true) /\
    (forall b b', In b boxes -> In b' boxes ->
       fst (axis_slice axis b) <= fst (axis_slice axis b') <= snd (axis_slice axis b) ->
       exists r, In r (combine starts ends) /\
         in_run r (fst (axis_slice axis b)) = true /\
         in_run r (fst (axis_slice axis b')) = true).
Proof.
  intros Hne Hwf Hax.
  destruct (projection_by_bboxes_well_formed boxes axis Hne Hwf Hax)
    as (h & m & _ & Hh & Hlen & Hle & Hcov).
  rewrite <- Hlen in Hle, Hcov.
  rewrite Forall_forall in Hle, Hwf.
  assert (Hact : forall p, In p (active_positions h 0) <->
                   exists b, In b boxes /\ in_run (axis_slice axis b) p = true).
  { intros p. rewrite active_positions_spec, gt_threshold_0. split.
    - intros [Hp Hv]. rewrite Hcov in Hv by exact Hp. now apply coverage_pos.
    - intros (b & Hb & Hin). apply in_run_iff in Hin.
      pose proof (axis_slice_well_formed axis b (Hwf b Hb)) as W.
      specialize (Hle b Hb). cbv beta in Hle.
      assert (Hp : 0 <= p < Z.of_nat (length h)) by lia.
      split; [exact Hp|]. rewrite Hcov by exact Hp. apply coverage_pos.
      exists b. split; [exact Hb|now apply in_run_iff]. }
  assert (Hstart : forall b, In b boxes -> In (fst (axis_slice axis b)) (active_positions h 0)).
  { intros b Hb. apply Hact. exists b. split; [exact Hb|].
    apply in_run_iff. pose proof (axis_slice_well_formed axis b (Hwf b Hb)). lia. }
  pose proof (active_positions_sorted h 0) as Hs.
  pose proof (profile_runs_chain h 0 1) as Hchain.
  destruct (split_projection_profile h 0 1) as [[starts ends]|] eqn:E.
  2:{ exfalso. rewrite split_projection_profile_groups in E.
      destruct boxes as [|b0 bs]; [congruence|].
      specialize (Hstart b0 (or_introl eq_refl)).
      destruct (active_positions h 0); [contradiction|discriminate]. }
  destruct (split_Some_runs _ _ _ _ _ E) as (ER & EL & _).
  exists h, starts, ends. split; [exact Hh|]. split; [exact E|].
  clear E. rewrite <- ER in *. clear ER. rewrite profile_runs_groups in *.
  destruct (active_positions h 0) as [|a t] eqn:EA.
  { exfalso. destruct boxes as [|b0 bs]; [congruence|].
    apply (Hstart b0). now left. }
  destruct (runs_generic 1 t a Hs) as (_ & Cov & Ends).
  pose proof (runs_gap1 t a Hs) as Gap.
  split; [exact EL|]. split; [exact Hchain|]. split; [|split].
  - intros b Hb. apply Cov, Hstart, Hb.
  - intros r Hr. destruct (Ends r Hr) as [E1 _]. destruct (Gap r Hr) as (_ & G2 & _).
    apply Hact in E1. destruct E1 as (b & Hb & Hin). exists b. split; [exact Hb|].
    apply in_run_iff in Hin. apply in_run_iff.
    pose proof (axis_slice_well_formed axis b (Hwf b Hb)) as W.
    pose proof (chain_inv_in _ _ Hchain Hr) as Hlt.
    destruct (Z.eq_dec (fst (axis_slice axis b)) (fst r)) as [Heq|Hneq]; [lia|].
    exfalso. apply G2. apply Hact. exists b. split; [exact Hb|].
    apply in_run_iff. lia.
  - intros b b' Hb Hb' Hrel.
    destruct (Cov _ (Hstart b Hb)) as (r & Hr & Hin). exists r.
    split; [exact Hr|]. split; [exact Hin|].
    apply in_run_iff in Hin. apply in_run_iff.
    destruct (Gap r Hr) as (_ & _ & G3).
    destruct (Z_lt_le_dec (fst (axis_slice axis b')) (snd r)) as [Hlt|Hge]; [lia|].
    exfalso. apply G3. apply Hact.
    destruct (Z_lt_le_dec (snd r) (snd (axis_slice axis b))) as [H1|H1].
    + exists b. split; [exact Hb|]. apply in_run_iff. lia.
    + exists b'. split; [exact Hb'|]. apply in_run_iff.
      pose proof (axis_slice_well_formed axis b' (Hwf b' Hb')) as W. lia.
Qed.

(** ** From the arrays to the list of pairs *)

Lemma combine_fst {A B : Type} (a : list A) (b : list B) :
  length a = length b -> map fst (combine a b) = a.
Proof.
  revert b; induction a as [|x a IH]; intros [|y b] H; simpl in *; try congruence.
  f_equal. apply IH. congruence.
Qed.

Lemma combine_snd {A B : Type} (a : list A) (b : list B) :
  length a = length b -> map snd (combine a b) = b.
Proof.
  revert b; induction a as [|x a IH]; intros [|y b] H; simpl in *; try congruence.
  f_equal. apply IH. congruence.
Qed.

Lemma nth_error_combine {A B : Type} (a : list A) (b : list B) (i : nat) :
  nth_error (combine a b) i =
  match nth_error a i, nth_error b i with
  | Some x, Some y => Some (x, y)
  | _, _ => None
  end.
Proof.
  revert b i; induction a as [|x a IH]; intros [|y b] [|i]; simpl; try reflexivity.
  - destruct (nth_error a i); reflexivity.
  - apply IH.
Qed.

Lemma nth_error_same_length {A B : Type} (a : list A) (b : list B) (i : nat) :
  length a = length b ->
  (nth_error a i = None /\ nth_error b i = None) \/
  (exists x y, nth_error a i = Some x /\ nth_error b i = Some y).
Proof.
  intros H. destruct (nth_error a i) as [x|] eqn:Ea.
  - right. destruct (nth_error b i) as [y|] eqn:Eb; [now exists x, y|].
    apply nth_error_None in Eb.
    assert (i < length a)%nat by (apply nth_error_Some; congruence). lia.
  - left. split; [reflexivity|]. apply nth_error_None in Ea.
    apply nth_error_None. lia.
Qed.

Lemma take_idx_combine {A B : Type} (a : list A) (b : list B) (idx : list nat) :
  length a = length b ->
  take_idx (combine a b) idx = combine (take_idx a idx) (take_idx b idx) /\
  length (take_idx a idx) = length (take_idx b idx).
Proof.
  intros H. induction idx as [|i t [IH1 IH2]]; [split; reflexivity|].
  unfold take_idx in *. cbn [flat_map]. rewrite nth_error_combine, IH1.
  destruct (nth_error_same_length a b i H) as [[-> ->]|(x & y & -> & ->)].
  - split; [reflexivity|exact IH2].
  - split; [reflexivity|]. simpl. now rewrite IH2.
Qed.

Lemma compress_map_filter {A : Type} (f : A -> bool) (l : list A) :
  compress (map f l) l = filter f l.
Proof.
  induction l as [|a t IH]; simpl; [reflexivity|]. rewrite IH. reflexivity.
Qed.

Lemma compress_combine {A B : Type} (m : list bool) (a : list A) (b : list B) :
  length a = length b ->
  compress m (combine a b) = combine (compress m a) (compress m b) /\
  length (compress m a) = length (compress m b).
Proof.
  revert a b; induction m as [|c m IH]; intros [|x a] [|y b] H; simpl in *;
    try (split; reflexivity); try congruence.
  destruct (IH a b) as [IH1 IH2]; [congruence|].
  destruct c; simpl; rewrite IH1, IH2; split; reflexivity.
Qed.

Lemma filter_fst_combine {A B : Type} (f : A -> bool) (a : list A) (b : list B) :
  length a = length b ->
  filter (fun p => f (fst p)) (combine a b)
  = combine (compress (map f a) a) (compress (map f a) b).
Proof.
  intros H. rewrite <- (proj1 (compress_combine (map f a) a b H)).
  rewrite <- compress_map_filter. f_equal.
  rewrite <- (combine_fst a b H) at 2. rewrite map_map. reflexivity.
Qed.

Lemma for_each_concat_each {A : Type} (body : A -> list nat -> result (list nat))
  (body' : A -> result (list (Box * nat))) (l : list A) :
  (forall a res, In a l ->
     body a res = (o <- body' a ;; Ok (res ++ map snd o))) ->
  forall res,
    for_each body l res = (os <- concat_each body' l ;; Ok (res ++ map snd os)).
Proof.
  induction l as [|a t IH]; intros Hb res.
  - simpl. now rewrite app_nil_r.
  - cbn [for_each concat_each]. rewrite Hb by now left.
    destruct (body' a) as [o|e]; cbn [bind]; [|reflexivity].
    rewrite IH by (intros; apply Hb; now right).
    destruct (concat_each body' t) as [os|e]; cbn [bind]; [|reflexivity].
    now rewrite map_app, app_assoc.
Qed.

Section Pairs.

Variable argsort : list Z -> list nat.

Lemma cut_band_pairs (rec : list Box -> list nat -> list nat -> result (list nat))
  (rec' : list (Box * nat) -> result (list (Box * nat)))
  (ys_boxes : list Box) (ys_idx : list nat) (r : Z * Z) (res : list nat) :
  length ys_boxes = length ys_idx ->
  (forall bs ids res', length bs = length ids ->
     rec bs ids res' = (o <- rec' (combine bs ids) ;; Ok (res' ++ map snd o))) ->
  cut_band argsort rec ys_boxes ys_idx r res =
  (o <- band_pairs argsort rec' (combine ys_boxes ys_idx) r ;; Ok (res ++ map snd o)).
Proof.
  intros Hlen Hrec. unfold cut_band, band_pairs. cbv zeta.
  set (m := map (fun b => in_run r (y0 b)) ys_boxes).
  assert (ET : filter (fun p => in_run r (py0 p)) (combine ys_boxes ys_idx)
               = combine (compress m ys_boxes) (compress m ys_idx)).
  { apply (filter_fst_combine (fun b => in_run r (y0 b)) ys_boxes ys_idx Hlen). }
  rewrite ET.
  destruct (compress_combine m ys_boxes ys_idx Hlen) as [_ Hlen1].
  set (cb := compress m ys_boxes) in *. set (ci := compress m ys_idx) in *.
  assert (EK : map px0 (combine cb ci) = map x0 cb).
  { rewrite <- (combine_fst cb ci Hlen1) at 2. now rewrite map_map. }
  unfold sort_by. rewrite EK.
  destruct (take_idx_combine cb ci (argsort (map x0 cb)) Hlen1) as [EX Hlen2].
  rewrite EX. rewrite (combine_fst _ _ Hlen2).
  set (xb := take_idx cb (argsort (map x0 cb))) in *.
  set (xi := take_idx ci (argsort (map x0 cb))) in *.
  destruct (projection_by_bboxes xb 0) as [xp|e]; cbn [bind]; [|reflexivity].
  destruct (split_projection_profile xp 0 1) as [[c0 c1]|]; cbn [bind].
  2:{ now rewrite app_nil_r. }
  destruct (length c0 =? 1)%nat; cbn [bind].
  { now rewrite (combine_snd _ _ Hlen1). }
  apply for_each_concat_each. intros c res' _.
  unfold cut_column, column_pairs. cbv zeta.
  destruct (compress_combine (map (fun b => in_run c (x0 b)) xb) xb xi Hlen2) as [_ Hlen3].
  rewrite Hrec by exact Hlen3. unfold px0.
  rewrite (filter_fst_combine (fun b => in_run c (x0 b)) xb xi Hlen2). reflexivity.
Qed.

(** The array program and the program on pairs compute the same. *)
Lemma recursive_xy_cut_pairs (fuel : nat) :
  forall (boxes : list Box) (indices res : list nat),
    length boxes = length indices ->
    recursive_xy_cut argsort fuel boxes indices res =
    (o <- cut_pairs argsort fuel (combine boxes indices) ;; Ok (res ++ map snd o)).
Proof.
  induction fuel as [|fuel IH]; intros boxes indices res Hlen; [reflexivity|].
  cbn [recursive_xy_cut cut_pairs].
  assert (E : negb (length boxes =? length indices)%nat = false).
  { apply negb_false_iff, Nat.eqb_eq, Hlen. }
  rewrite E. cbv zeta.
  assert (EK : map py0 (combine boxes indices) = map y0 boxes).
  { rewrite <- (combine_fst boxes indices Hlen) at 2. now rewrite map_map. }
  unfold sort_by. rewrite EK.
  destruct (take_idx_combine boxes indices (argsort (map y0 boxes)) Hlen) as [ES Hlen1].
  rewrite ES, (combine_fst _ _ Hlen1).
  destruct (projection_by_bboxes _ 1) as [yp|e]; cbn [bind]; [|reflexivity].
  destruct (split_projection_profile yp 0 1) as [[r0 r1]|]; cbn [bind].
  2:{ now rewrite app_nil_r. }
  apply for_each_concat_each. intros r res' _.
  apply cut_band_pairs; [exact Hlen1|]. intros bs ids res'' Hl. now apply IH.
Qed.

Lemma recursive_xy_cut_assert (fuel : nat) (boxes : list Box) (indices res : list nat) :
  length boxes <> length indices ->
  recursive_xy_cut argsort (S fuel) boxes indices res = Raise AssertionError.
Proof.
  intros H. cbn [recursive_xy_cut].
  assert (E : negb (length boxes =? length indices)%nat = true).
  { apply negb_true_iff, Nat.eqb_neq, H. }
  now rewrite E.
Qed.

End Pairs.

(** ** Splitting a list along disjoint runs *)

Lemma take_idx_seq {A : Type} (l : list A) : take_idx l (seq 0 (length l)) = l.
Proof.
  induction l as [|a t IH]; [reflexivity|].
  cbn [length seq]. rewrite <- seq_shift.
  change (take_idx (a :: t) (0%nat :: map S (seq 0 (length t))))
    with (a :: take_idx (a :: t) (map S (seq 0 (length t)))).
  now rewrite take_idx_cons_S, IH.
Qed.

Lemma take_idx_perm {A : Type} (l : list A) (idx : list nat) :
  Permutation idx (seq 0 (length l)) -> Permutation (take_idx l idx) l.
Proof.
  intros P. rewrite <- (take_idx_seq l) at 2.
  unfold take_idx. now apply Permutation_flat_map.
Qed.

Lemma argsort_in_range (argsort : list Z -> list nat) (ks : list Z) :
  Permutation (argsort ks) (seq 0 (length ks)) ->
  Forall (fun i => (i < length ks)%nat) (argsort ks).
Proof.
  intros P. apply Forall_forall. intros i Hi.
  apply (Permutation_in i P) in Hi. apply in_seq in Hi. lia.
Qed.

Lemma concat_each_ok {A B : Type} (body : A -> result (list B)) (l : list A)
  (P : A -> list B -> Prop) :
  (forall a, In a l -> exists o, body a = Ok o /\ P a o) ->
  exists outs, concat_each body l = Ok (concat outs) /\ Forall2 P l outs.
Proof.
  induction l as [|a t IH]; intros H.
  - exists []. split; [reflexivity|constructor].
  - destruct (H a (or_introl eq_refl)) as (o & Ho & HP).
    destruct IH as (outs & Hc & HF); [intros; apply H; now right|].
    exists (o :: outs). cbn [concat_each]. rewrite Ho, Hc. cbn [bind concat].
    split; [reflexivity|now constructor].
Qed.

Lemma Forall2_perm_concat {A B : Type} (f : A -> list B) (l : list A) (outs : list (list B)) :
  Forall2 (fun a o => Permutation o (f a)) l outs ->
  Permutation (concat outs) (concat (map f l)).
Proof.
  induction 1 as [|a o l outs H _ IH]; simpl; [constructor|].
  now apply Permutation_app.
Qed.

Lemma filter_partition_perm {A : Type} (f : A -> bool) (l : list A) :
  Permutation (filter f l ++ filter (fun x => negb (f x)) l) l.
Proof.
  induction l as [|a t IH]; simpl; [constructor|].
  destruct (f a); simpl.
  - now constructor.
  - apply Permutation_sym, Permutation_cons_app, Permutation_sym, IH.
Qed.

Lemma filter_filter {A : Type} (f g : A -> bool) (l : list A) :
  filter f (filter g l) = filter (fun x => f x && g x) l.
Proof.
  induction l as [|a t IH]; simpl; [reflexivity|].
  destruct (g a); simpl; rewrite IH.
  - rewrite andb_true_r. reflexivity.
  - rewrite andb_false_r. reflexivity.
Qed.

Lemma in_run_disjoint (r r' : Z * Z) (v : Z) :
  snd r <= fst r' -> in_run r' v = true -> in_run r v = false.
Proof.
  intros H H'. apply in_run_iff in H'.
  destruct (in_run r v) eqn:E; [|reflexivity].
  apply in_run_iff in E. lia.
Qed.

(** Filtering along a chain of runs that cover every key only regroups the
    list. *)
Lemma concat_filter_runs_perm {A : Type} (key : A -> Z) (R : list (Z * Z)) :
  chain R ->
  forall L : list A,
    (forall x, In x L -> exists r, In r R /\ in_run r (key x) = true) ->
    Permutation (concat (map (fun r => filter (fun x => in_run r (key x)) L) R)) L.
Proof.
  induction R as [|r rs IH]; intros C L Hcov.
  - destruct L as [|x L]; [constructor|].
    destruct (Hcov x (or_introl eq_refl)) as (r & [] & _).
  - destruct (chain_inv _ _ C) as (C1 & C2 & C3). cbn [map concat].
    set (L' := filter (fun x => negb (in_run r (key x))) L).
    assert (E : map (fun r0 => filter (fun x => in_run r0 (key x)) L) rs
              = map (fun r0 => filter (fun x => in_run r0 (key x)) L') rs).
    { apply map_ext_in. intros r' Hr'. unfold L'. rewrite filter_filter.
      apply filter_ext. intros x.
      destruct (in_run r' (key x)) eqn:E'; [|reflexivity].
      rewrite (in_run_disjoint r r' (key x)); [reflexivity|apply (C3 _ Hr')|exact E']. }
    rewrite E.
    transitivity (filter (fun x => in_run r (key x)) L ++ L').
    + apply Permutation_app_head. apply IH; [exact C2|].
      intros x Hx. apply filter_In in Hx. destruct Hx as [Hx Hn].
      destruct (Hcov x Hx) as (r' & [<-|Hr'] & Hin).
      * rewrite Hin in Hn. discriminate.
      * now exists r'.
    + apply filter_partition_perm.
Qed.

Lemma chain_other_run (R : list (Z * Z)) (c : Z * Z) :
  chain R -> (length R <> 1)%nat -> In c R ->
  exists c', In c' R /\ forall v, in_run c' v = true -> in_run c v = false.
Proof.
  intros C Hn Hc. destruct R as [|r1 [|r2 rs]]; [contradiction|simpl in Hn; lia|].
  destruct (chain_inv _ _ C) as (C1 & C2 & C3).
  destruct Hc as [<-|Hc].
  - exists r2. split; [right; now left|]. intros v Hv.
    apply (in_run_disjoint r1 r2 v); [apply C3; now left|exact Hv].
  - exists r1. split; [now left|]. intros v Hv.
    destruct (in_run c v) eqn:E; [|reflexivity].
    apply in_run_iff in Hv, E. specialize (C3 _ Hc). lia.
Qed.

Lemma filter_length_lt {A : Type} (f : A -> bool) (l : list A) (x : A) :
  In x l -> f x = false -> (length (filter f l) < length l)%nat.
Proof.
  induction l as [|a t IH]; intros Hx Hf; [contradiction|].
  simpl. pose proof (filter_length_le f t) as Hle.
  destruct Hx as [->|Hx].
  - rewrite Hf. lia.
  - specialize (IH Hx Hf). destruct (f a); simpl; lia.
Qed.

(** ** The cut on well-formed boxes: no pair is lost *)

Lemma well_formed_runs_pairs (L : list (Box * nat)) (axis : Z) :
  L <> [] -> Forall well_formed (map fst L) -> axis = 0 \/ axis = 1 ->
  exists h starts ends,
    projection_by_bboxes (map fst L) axis = Ok h /\
    split_projection_profile h 0 1 = Some (starts, ends) /\
    length starts = length (combine starts ends) /\
    chain (combine starts ends) /\
    (forall p, In p L ->
       exists r, In r (combine starts ends) /\
                 in_run r (fst (axis_slice axis (fst p))) = true) /\
    (forall r, In r (combine starts ends) ->
       exists p, In p L /\ in_run r (fst (axis_slice axis (fst p))) = true).
Proof.
  intros Hne Hwf Hax.
  destruct (well_formed_runs (map fst L) axis) as
    (h & starts & ends & H1 & H2 & H3 & H4 & H5 & H6 & _); try assumption.
  { destruct L; [congruence|discriminate]. }
  exists h, starts, ends. repeat (split; [assumption|]). split.
  - intros p Hp. apply H5. now apply in_map.
  - intros r Hr. destruct (H6 r Hr) as (b & Hb & Hin).
    apply in_map_iff in Hb. destruct Hb as (p & <- & Hp). now exists p.
Qed.

Lemma Forall_map_fst_filter (f : Box * nat -> bool) (L : list (Box * nat)) :
  Forall well_formed (map fst L) -> Forall well_formed (map fst (filter f L)).
Proof.
  rewrite !Forall_forall. intros H b Hb. apply in_map_iff in Hb.
  destruct Hb as (p & <- & Hp). apply filter_In in Hp.
  apply H, in_map, Hp.
Qed.

Lemma Forall_map_fst_perm (L L' : list (Box * nat)) :
  Permutation L L' ->
  Forall well_formed (map fst L') -> Forall well_formed (map fst L).
Proof.
  intros P. rewrite !Forall_forall. intros H b Hb. apply H.
  apply (Permutation_in b (Permutation_map fst P) Hb).
Qed.

Section WellFormedCut.

Variable argsort : list Z -> list nat.
Hypothesis argsort_perm : forall ks, Permutation (argsort ks) (seq 0 (length ks)).

Lemma sort_by_perm {A : Type} (key : A -> Z) (l : list A) :
  Permutation (sort_by argsort key l) l.
Proof.
  unfold sort_by. apply take_idx_perm.
  rewrite <- (length_map key l). apply argsort_perm.
Qed.

Lemma band_pairs_perm (rec : list (Box * nat) -> result (list (Box * nat)))
  (S : list (Box * nat)) (r : Z * Z) :
  Forall well_formed (map fst S) ->
  (exists p, In p S /\ in_run r (py0 p) = true) ->
  (forall C, C <> [] -> Forall well_formed (map fst C) ->
     (length C < length (filter (fun p => in_run r (py0 p)) S))%nat ->
     exists o, rec C = Ok o /\ Permutation o C) ->
  exists o, band_pairs argsort rec S r = Ok o /\
            Permutation o (filter (fun p => in_run r (py0 p)) S).
Proof.
  intros Hwf (p0 & Hp0 & Hin0) Hrec. unfold band_pairs. cbv zeta.
  set (T := filter (fun p => in_run r (py0 p)) S) in *.
  set (X := sort_by argsort px0 T).
  assert (PX : Permutation X T) by apply sort_by_perm.
  assert (HT : In p0 T) by (apply filter_In; tauto).
  assert (HwfX : Forall well_formed (map fst X)).
  { apply (Forall_map_fst_perm X T PX). now apply Forall_map_fst_filter. }
  assert (HneX : X <> []).
  { intros E. rewrite E in PX. apply Permutation_nil in PX.
    rewrite PX in HT. exact HT. }
  destruct (well_formed_runs_pairs X 0 HneX HwfX (or_introl eq_refl)) as
    (h & c0 & c1 & H1 & H2 & H3 & H4 & H5 & H6).
  rewrite H1. cbn [bind]. rewrite H2.
  destruct (length c0 =? 1)%nat eqn:E1.
  { exists T. split; [reflexivity|apply Permutation_refl]. }
  apply Nat.eqb_neq in E1.
  destruct (concat_each_ok (column_pairs rec X) (combine c0 c1)
              (fun c o => Permutation o (filter (fun p => in_run c (px0 p)) X)))
    as (outs & Hc & HF).
  { intros c Hc. unfold column_pairs. apply Hrec.
    - destruct (H6 c Hc) as (p & Hp & Hin).
      intros E. assert (Hf : In p (filter (fun p => in_run c (px0 p)) X))
        by (apply filter_In; split; [exact Hp|exact Hin]).
      rewrite E in Hf. exact Hf.
    - now apply Forall_map_fst_filter.
    - rewrite <- (Permutation_length PX).
      destruct (chain_other_run (combine c0 c1) c H4) as (c' & Hc' & Hdis);
        [lia|exact Hc|].
      destruct (H6 c' Hc') as (p & Hp & Hin).
      apply (filter_length_lt _ X p Hp). apply Hdis. exact Hin. }
  exists (concat outs). split; [exact Hc|].
  transitivity X; [|exact PX].
  transitivity (concat (map (fun c => filter (fun p => in_run c (px0 p)) X) (combine c0 c1))).
  - apply (Forall2_perm_concat _ _ _ HF).
  - apply (concat_filter_runs_perm px0 _ H4). exact H5.
Qed.

Lemma cut_pairs_perm (fuel : nat) :
  forall L : list (Box * nat),
    L <> [] -> Forall well_formed (map fst L) -> (length L <= fuel)%nat ->
    exists o, cut_pairs argsort fuel L = Ok o /\ Permutation o L.
Proof.
  induction fuel as [|fuel IH]; intros L Hne Hwf Hlen.
  { destruct L; [congruence|simpl in Hlen; lia]. }
  cbn [cut_pairs]. cbv zeta.
  set (S := sort_by argsort py0 L).
  assert (PS : Permutation S L) by apply sort_by_perm.
  assert (HwfS : Forall well_formed (map fst S)) by apply (Forall_map_fst_perm S L PS Hwf).
  assert (HneS : S <> []).
  { intros E. rewrite E in PS. apply Permutation_nil in PS. congruence. }
  destruct (well_formed_runs_pairs S 1 HneS HwfS (or_intror eq_refl)) as
    (h & r0 & r1 & H1 & H2 & H3 & H4 & H5 & H6).
  rewrite H1. cbn [bind]. rewrite H2.
  destruct (concat_each_ok (band_pairs argsort (cut_pairs argsort fuel) S) (combine r0 r1)
              (fun r o => Permutation o (filter (fun p => in_run r (py0 p)) S)))
    as (outs & Hc & HF).
  { intros r Hr. apply band_pairs_perm; [exact HwfS|apply (H6 r Hr)|].
    intros C HneC HwfC HlenC. apply IH; [exact HneC|exact HwfC|].
    pose proof (filter_length_le (fun p => in_run r (py0 p)) S) as Hle.
    rewrite (Permutation_length PS) in Hle. lia. }
  exists (concat outs). split; [exact Hc|].
  transitivity S; [|exact PS].
  transitivity (concat (map (fun r => filter (fun p => in_run r (py0 p)) S) (combine r0 r1))).
  - apply (Forall2_perm_concat _ _ _ HF).
  - apply (concat_filter_runs_perm py0 _ H4). exact H5.
Qed.

End WellFormedCut.

(** ** The cut on arbitrary boxes: no pair is emitted twice *)

Lemma subperm_nil {A : Type} (l : list A) : subperm [] l.
Proof. exists l. apply Permutation_refl. Qed.

Lemma subperm_refl {A : Type} (l : list A) : subperm l l.
Proof. exists []. rewrite app_nil_r. apply Permutation_refl. Qed.

Lemma subperm_perm {A : Type} (o l l' : list A) :
  subperm o l -> Permutation l l' -> subperm o l'.
Proof. intros (rest & P) P'. exists rest. now transitivity l. Qed.

Lemma subperm_app {A : Type} (o1 o2 l1 l2 : list A) :
  subperm o1 l1 -> subperm o2 l2 -> subperm (o1 ++ o2) (l1 ++ l2).
Proof.
  intros (r1 & P1) (r2 & P2). exists (r1 ++ r2).
  transitivity ((o1 ++ r1) ++ (o2 ++ r2)); [|now apply Permutation_app].
  rewrite <- !app_assoc. apply Permutation_app_head.
  rewrite !app_assoc. apply Permutation_app_tail, Permutation_app_comm.
Qed.

Lemma subperm_trans {A : Type} (o m l : list A) :
  subperm o m -> subperm m l -> subperm o l.
Proof.
  intros (r1 & P1) (r2 & P2). exists (r1 ++ r2).
  rewrite app_assoc. transitivity (m ++ r2); [|exact P2].
  now apply Permutation_app_tail.
Qed.

Lemma subperm_filter {A : Type} (f : A -> bool) (l : list A) : subperm (filter f l) l.
Proof. exists (filter (fun x => negb (f x)) l). apply filter_partition_perm. Qed.

Lemma subperm_NoDup {A B : Type} (f : A -> B) (o l : list A) :
  subperm o l -> NoDup (map f l) -> NoDup (map f o) /\ incl o l.
Proof.
  intros (rest & P) H. split.
  - apply (Permutation_NoDup (Permutation_sym (Permutation_map f P))) in H.
    rewrite map_app in H. apply (NoDup_app_remove_r _ _ H).
  - intros x Hx. apply (Permutation_in x P). apply in_or_app. now left.
Qed.

Lemma concat_each_inv {A B : Type} (body : A -> result (list B)) (l : list A)
  (o : list B) :
  concat_each body l = Ok o ->
  exists outs, o = concat outs /\ Forall2 (fun a o' => body a = Ok o') l outs.
Proof.
  revert o; induction l as [|a t IH]; intros o H.
  - injection H as <-. exists []. split; [reflexivity|constructor].
  - cbn [concat_each] in H. destruct (body a) as [oa|e] eqn:Ea; [|discriminate].
    cbn [bind] in H. destruct (concat_each body t) as [ot|e]; [|discriminate].
    cbn [bind] in H. injection H as <-.
    destruct (IH ot eq_refl) as (outs & -> & HF).
    exists (oa :: outs). split; [reflexivity|now constructor].
Qed.

Lemma Forall2_subperm_concat {A B : Type} (f : A -> list B) (l : list A)
  (outs : list (list B)) :
  Forall2 (fun a o => subperm o (f a)) l outs ->
  subperm (concat outs) (concat (map f l)).
Proof.
  induction 1 as [|a o l outs H _ IH]; simpl; [apply subperm_nil|].
  now apply subperm_app.
Qed.

(** Filtering along a chain of runs never takes a member twice. *)
Lemma concat_filter_runs_subperm {A : Type} (key : A -> Z) (R : list (Z * Z)) :
  chain R ->
  forall L : list A,
    subperm (concat (map (fun r => filter (fun x => in_run r (key x)) L) R)) L.
Proof.
  induction R as [|r rs IH]; intros C L; [apply subperm_nil|].
  destruct (chain_inv _ _ C) as (C1 & C2 & C3). cbn [map concat].
  set (L' := filter (fun x => negb (in_run r (key x))) L).
  assert (E : map (fun r0 => filter (fun x => in_run r0 (key x)) L) rs
            = map (fun r0 => filter (fun x => in_run r0 (key x)) L') rs).
  { apply map_ext_in. intros r' Hr'. unfold L'. rewrite filter_filter.
    apply filter_ext. intros x.
    destruct (in_run r' (key x)) eqn:E'; [|reflexivity].
    rewrite (in_run_disjoint r r' (key x)); [reflexivity|apply (C3 _ Hr')|exact E']. }
  rewrite E.
  apply subperm_perm with (l := filter (fun x => in_run r (key x)) L ++ L').
  - apply subperm_app; [apply subperm_refl|apply IH, C2].
  - apply filter_partition_perm.
Qed.

Lemma chain_unique (R : list (Z * Z)) (r r' : Z * Z) (v : Z) :
  chain R -> In r R -> In r' R ->
  in_run r v = true -> in_run r' v = true -> r = r'.
Proof.
  induction R as [|r1 rs IH]; intros C Hr Hr' Hv Hv'; [contradiction|].
  destruct (chain_inv _ _ C) as (C1 & C2 & C3).
  apply in_run_iff in Hv, Hv'.
  destruct Hr as [<-|Hr], Hr' as [<-|Hr'].
  - reflexivity.
  - specialize (C3 _ Hr'). lia.
  - specialize (C3 _ Hr). lia.
  - apply IH; try assumption; now apply in_run_iff.
Qed.

Lemma split_chain (h : list Z) (mv mg : Q) (starts ends : list Z) :
  split_projection_profile h mv mg = Some (starts, ends) ->
  chain (combine starts ends).
Proof.
  intros E. destruct (split_Some_runs _ _ _ _ _ E) as (<- & _).
  apply profile_runs_chain.
Qed.

Section AnyBoxes.

Variable argsort : list Z -> list nat.
Hypothesis argsort_perm : forall ks, Permutation (argsort ks) (seq 0 (length ks)).

Lemma band_pairs_subperm (rec : list (Box * nat) -> result (list (Box * nat)))
  (S : list (Box * nat)) (r : Z * Z) (o : list (Box * nat)) :
  (forall C o', rec C = Ok o' -> subperm o' C) ->
  band_pairs argsort rec S r = Ok o ->
  subperm o (filter (fun p => in_run r (py0 p)) S).
Proof.
  intros Hrec. unfold band_pairs. cbv zeta.
  set (T := filter (fun p => in_run r (py0 p)) S).
  set (X := sort_by argsort px0 T).
  assert (PX : Permutation X T) by apply (sort_by_perm argsort argsort_perm).
  destruct (projection_by_bboxes (map fst X) 0) as [xp|e]; [|discriminate].
  cbn [bind]. destruct (split_projection_profile xp 0 1) as [[c0 c1]|] eqn:E.
  2:{ intros [= <-]. apply subperm_nil. }
  destruct (length c0 =? 1)%nat.
  { intros [= <-]. apply subperm_refl. }
  intros H. apply concat_each_inv in H. destruct H as (outs & -> & HF).
  apply subperm_perm with (l := X); [|exact PX].
  apply subperm_trans with
    (m := concat (map (fun c => filter (fun p => in_run c (px0 p)) X) (combine c0 c1))).
  - apply Forall2_subperm_concat.
    eapply Forall2_impl; [|exact HF]. intros c o' Ho'. apply (Hrec _ _ Ho').
  - apply concat_filter_runs_subperm, (split_chain _ _ _ _ _ E).
Qed.

Lemma cut_pairs_subperm (fuel : nat) :
  forall (L o : list (Box * nat)), cut_pairs argsort fuel L = Ok o -> subperm o L.
Proof.
  induction fuel as [|fuel IH]; intros L o; [discriminate|].
  cbn [cut_pairs]. cbv zeta.
  set (S := sort_by argsort py0 L).
  assert (PS : Permutation S L) by apply (sort_by_perm argsort argsort_perm).
  destruct (projection_by_bboxes (map fst S) 1) as [yp|e]; [|discriminate].
  cbn [bind]. destruct (split_projection_profile yp 0 1) as [[r0 r1]|] eqn:E.
  2:{ intros [= <-]. apply subperm_nil. }
  intros H. apply concat_each_inv in H. destruct H as (outs & -> & HF).
  apply subperm_perm with (l := S); [|exact PS].
  apply subperm_trans with
    (m := concat (map (fun r => filter (fun p => in_run r (py0 p)) S) (combine r0 r1))).
  - apply Forall2_subperm_concat.
    eapply Forall2_impl; [|exact HF]. intros r o' Ho'.
    apply (band_pairs_subperm _ _ _ _ IH Ho').
  - apply concat_filter_runs_subperm, (split_chain _ _ _ _ _ E).
Qed.

End AnyBoxes.

(** ** The results on [recursive_xy_cut] *)

Section CutResults.

Variable argsort : list Z -> list nat.
Hypothesis argsort_perm : forall ks, Permutation (argsort ks) (seq 0 (length ks)).

Lemma recursive_xy_cut_well_formed (fuel : nat) (boxes : list Box)
  (indices res : list nat) :
  boxes <> [] -> Forall well_formed boxes ->
  length boxes = length indices -> (length boxes <= fuel)%nat ->
  exists out,
    recursive_xy_cut argsort fuel boxes indices res = Ok (res ++ out) /\
    Permutation out indices.
Proof.
  intros Hne Hwf Hlen Hfuel. rewrite recursive_xy_cut_pairs by exact Hlen.
  destruct (cut_pairs_perm argsort argsort_perm fuel (combine boxes indices))
    as (o & Ho & P).
  - destruct boxes, indices; simpl in *; congruence.
  - now rewrite combine_fst.
  - rewrite length_combine. lia.
  - exists (map snd o). rewrite Ho. cbn [bind]. split; [reflexivity|].
    rewrite <- (combine_snd boxes indices Hlen).
    now apply Permutation_map.
Qed.

Lemma recursive_xy_cut_any (fuel : nat) (boxes : list Box)
  (indices res out : list nat) :
  NoDup indices ->
  recursive_xy_cut argsort fuel boxes indices res = Ok out ->
  exists new, out = res ++ new /\ NoDup new /\ incl new indices.
Proof.
  intros Hnd H.
  destruct (Nat.eq_dec (length boxes) (length indices)) as [Hlen|Hlen].
  2:{ destruct fuel; [discriminate|].
      rewrite recursive_xy_cut_assert in H by exact Hlen. discriminate. }
  rewrite recursive_xy_cut_pairs in H by exact Hlen.
  destruct (cut_pairs argsort fuel (combine boxes indices)) as [o|e] eqn:Eo;
    [|discriminate].
  cbn [bind] in H. injection H as <-.
  apply (cut_pairs_subperm argsort argsort_perm) in Eo.
  destruct (subperm_NoDup snd _ _ Eo) as [H1 H2].
  { now rewrite combine_snd. }
  exists (map snd o). split; [reflexivity|]. split; [exact H1|].
  intros i Hi. apply in_map_iff in Hi. destruct Hi as (p & <- & Hp).
  apply H2 in Hp. destruct p as [b i]. apply in_combine_r in Hp. exact Hp.
Qed.

(** C1: on N >= 1 well-formed boxes paired with N distinct identifiers,
    and with a call depth of at least N available, [recursive_xy_cut]
    returns normally and what it has appended to the output is a
    permutation of the input identifiers: N of them, each input
    identifier exactly once. *)
Theorem recursive_xy_cut_permutation (fuel : nat) (boxes : list Box)
  (indices res : list nat) :
  boxes <> [] -> Forall well_formed boxes ->
  length boxes = length indices -> NoDup indices ->
  (length boxes <= fuel)%nat ->
  exists out,
    recursive_xy_cut argsort fuel boxes indices res = Ok (res ++ out) /\
    Permutation out indices /\
    length out = length boxes /\
    forall i, In i indices -> count_occ Nat.eq_dec out i = 1%nat.
Proof.
  intros Hne Hwf Hlen Hnd Hfuel.
  destruct (recursive_xy_cut_well_formed fuel boxes indices res Hne Hwf Hlen Hfuel)
    as (out & Hout & P).
  exists out. split; [exact Hout|]. split; [exact P|]. split.
  - rewrite (Permutation_length P). now symmetry.
  - intros i Hi. apply NoDup_count_occ'.
    + apply (Permutation_NoDup (Permutation_sym P) Hnd).
    + apply (Permutation_in i (Permutation_sym P) Hi).
Qed.

(** C10: with distinct identifiers no identifier is appended twice.  On
    well-formed boxes the call returns and its output has no duplicate;
    on any boxes at all, whenever the call returns, what it has appended
    has no duplicate and holds input identifiers only; and a coordinate
    lies in at most one run of a split, hence a box in at most one band
    and at most one column. *)
Theorem recursive_xy_cut_no_duplicate (fuel : nat) (boxes : list Box)
  (indices res : list nat) :
  NoDup indices ->
  (boxes <> [] -> Forall well_formed boxes ->
   length boxes = length indices -> (length boxes <= fuel)%nat ->
   exists new,
     recursive_xy_cut argsort fuel boxes indices res = Ok (res ++ new) /\
     NoDup new) /\
  (forall out,
     recursive_xy_cut argsort fuel boxes indices res = Ok out ->
     exists new, out = res ++ new /\ NoDup new /\ incl new indices) /\
  (forall h r r' v,
     In r (profile_runs h 0 1) -> In r' (profile_runs h 0 1) ->
     in_run r v = true -> in_run r' v = true -> r = r').
Proof.
  intros Hnd. split; [|split].
  - intros Hne Hwf Hlen Hfuel.
    destruct (recursive_xy_cut_well_formed fuel boxes indices res Hne Hwf Hlen Hfuel)
      as (out & Hout & P).
    exists out. split; [exact Hout|].
    apply (Permutation_NoDup (Permutation_sym P) Hnd).
  - intros out. now apply recursive_xy_cut_any.
  - intros h r r' v. apply chain_unique, profile_runs_chain.
Qed.

Lemma cut_column_receives (rec : list Box -> list nat -> list nat -> result (list nat))
  (boxes : list Box) (r c : Z * Z) (xi res : list nat) :
  cut_column rec (x_sorted_boxes_chunk argsort boxes r) xi c res =
  rec (column_boxes argsort boxes r c)
      (compress (map (fun b => in_run c (x0 b)) (x_sorted_boxes_chunk argsort boxes r)) xi)
      res.
Proof. reflexivity. Qed.

Lemma column_boxes_smaller (boxes : list Box) (r c : Z * Z)
  (xp c0 c1 : list Z) :
  Forall well_formed boxes ->
  projection_by_bboxes (x_sorted_boxes_chunk argsort boxes r) 0 = Ok xp ->
  split_projection_profile xp 0 1 = Some (c0, c1) ->
  (length c0 <> 1)%nat -> In c (combine c0 c1) ->
  (0 < length (column_boxes argsort boxes r c) < length boxes)%nat.
Proof.
  intros Hwf Hxp Hsplit Hn Hc.
  assert (Pys : Permutation (y_sorted_boxes argsort boxes) boxes).
  { apply take_idx_perm. rewrite <- (length_map y0 boxes). apply argsort_perm. }
  set (chunk := y_sorted_boxes_chunk argsort boxes r).
  assert (Echunk : chunk = filter (fun b => in_run r (y0 b)) (y_sorted_boxes argsort boxes))
    by apply compress_map_filter.
  set (xs := x_sorted_boxes_chunk argsort boxes r) in *.
  assert (Pxs : Permutation xs chunk).
  { apply take_idx_perm. rewrite <- (length_map x0 chunk). apply argsort_perm. }
  assert (Hlen : (length xs <= length boxes)%nat).
  { rewrite (Permutation_length Pxs), Echunk, <- (Permutation_length Pys).
    apply filter_length_le. }
  assert (Hwfxs : Forall well_formed xs).
  { rewrite Forall_forall in *. intros b Hb. apply Hwf.
    apply (Permutation_in b Pys). apply (Permutation_in b Pxs) in Hb.
    rewrite Echunk in Hb. apply filter_In in Hb. tauto. }
  assert (Hne : xs <> []).
  { intros E. rewrite E in Hxp. discriminate. }
  destruct (well_formed_runs xs 0 Hne Hwfxs (or_introl eq_refl)) as
    (h & s & e & H1 & H2 & H3 & H4 & _ & H6 & _).
  rewrite Hxp in H1. injection H1 as <-.
  rewrite Hsplit in H2. injection H2 as <- <-.
  unfold column_boxes. fold xs. rewrite compress_map_filter.
  destruct (H6 c Hc) as (b & Hb & Hin). split.
  - assert (Hf : In b (filter (fun b => in_run c (x0 b)) xs))
      by (apply filter_In; split; [exact Hb|exact Hin]).
    destruct (filter (fun b => in_run c (x0 b)) xs); [contradiction|simpl; lia].
  - destruct (chain_other_run (combine c0 c1) c H4) as (c' & Hc' & Hdis);
      [lia|exact Hc|].
    destruct (H6 c' Hc') as (b' & Hb' & Hin').
    pose proof (filter_length_lt (fun b => in_run c (x0 b)) xs b' Hb' (Hdis _ Hin')).
    lia.
Qed.

(** C8: on a non-empty list of well-formed boxes [recursive_xy_cut]
    terminates: a call depth equal to the number of boxes is enough for
    it to return normally, because whenever the horizontal split of a
    band has two runs or more, the box set handed to each recursive call
    is non-empty and strictly smaller than the caller's. *)
Theorem recursive_xy_cut_terminates (fuel : nat) (boxes : list Box)
  (indices res : list nat) :
  boxes <> [] -> Forall well_formed boxes ->
  length boxes = length indices -> (length boxes <= fuel)%nat ->
  (exists out, recursive_xy_cut argsort fuel boxes indices res = Ok out) /\
  (forall r c xp c0 c1,
     projection_by_bboxes (x_sorted_boxes_chunk argsort boxes r) 0 = Ok xp ->
     split_projection_profile xp 0 1 = Some (c0, c1) ->
     (length c0 <> 1)%nat -> In c (combine c0 c1) ->
     (0 < length (column_boxes argsort boxes r c) < length boxes)%nat).
Proof.
  intros Hne Hwf Hlen Hfuel. split.
  - destruct (recursive_xy_cut_well_formed fuel boxes indices res Hne Hwf Hlen Hfuel)
      as (out & Hout & _).
    now exists (res ++ out).
  - intros r c xp c0 c1. now apply column_boxes_smaller.
Qed.

End CutResults.

(** ** The two argsort instances *)

Lemma insert_key_perm (before : Z -> Z -> bool) (k : Z) (i : nat) (l : list (Z * nat)) :
  Permutation (insert_key before k i l) ((k, i) :: l).
Proof.
  induction l as [|[k' i'] t IH]; simpl; [apply Permutation_refl|].
  destruct (before k k'); [apply Permutation_refl|].
  transitivity ((k', i') :: (k, i) :: t); [now constructor|constructor].
Qed.

Lemma insert_all_perm (before : Z -> Z -> bool) (l : list (Z * nat)) :
  Permutation
    (fold_right (fun ki acc => insert_key before (fst ki) (snd ki) acc) [] l) l.
Proof.
  induction l as [|[k i] t IH]; simpl; [constructor|].
  transitivity ((k, i) :: fold_right
                  (fun ki acc => insert_key before (fst ki) (snd ki) acc) [] t).
  - apply insert_key_perm.
  - now constructor.
Qed.

Lemma argsort_with_perm (before : Z -> Z -> bool) (ks : list Z) :
  Permutation (argsort_with before ks) (seq 0 (length ks)).
Proof.
  unfold argsort_with.
  rewrite <- (combine_snd ks (seq 0 (length ks))) at 2 by (now rewrite length_seq).
  apply Permutation_map, insert_all_perm.
Qed.

Lemma insert_key_sorted (before : Z -> Z -> bool) (k : Z) (i : nat) (l : list (Z * nat)) :
  (forall a b, before a b = true -> a <= b) ->
  (forall a b, before a b = false -> b <= a) ->
  StronglySorted (fun p q => fst p <= fst q) l ->
  StronglySorted (fun p q => fst p <= fst q) (insert_key before k i l).
Proof.
  intros Ht Hf. induction 1 as [|[k' i'] t Hs IH Ha]; simpl.
  - constructor; constructor.
  - destruct (before k k') eqn:E.
    + constructor; [now constructor|]. apply Ht in E.
      constructor; [exact E|]. rewrite Forall_forall in *.
      intros q Hq. specialize (Ha q Hq). simpl in *. lia.
    + constructor; [exact IH|]. apply Hf in E. rewrite Forall_forall in *.
      intros q Hq. apply (Permutation_in q (insert_key_perm before k i t)) in Hq.
      destruct Hq as [<-|Hq]; [exact E|now apply Ha].
Qed.

Lemma insert_all_sorted (before : Z -> Z -> bool) (l : list (Z * nat)) :
  (forall a b, before a b = true -> a <= b) ->
  (forall a b, before a b = false -> b <= a) ->
  StronglySorted (fun p q => fst p <= fst q)
    (fold_right (fun ki acc => insert_key before (fst ki) (snd ki) acc) [] l).
Proof.
  intros Ht Hf. induction l as [|[k i] t IH]; simpl; [constructor|].
  now apply insert_key_sorted.
Qed.

Lemma in_combine_seq_nth (ks : list Z) (k : Z) (i : nat) :
  In (k, i) (combine ks (seq 0 (length ks))) ->
  nth_error ks i = Some k /\ nth i ks 0 = k.
Proof.
  intros H. apply In_nth_error in H. destruct H as (n & Hn).
  rewrite nth_error_combine in Hn.
  destruct (nth_error ks n) as [x|] eqn:E1; [|discriminate].
  destruct (nth_error (seq 0 (length ks)) n) as [y|] eqn:E2; [|discriminate].
  injection Hn as -> ->.
  assert (Hlt : (n < length ks)%nat) by (apply nth_error_Some; congruence).
  rewrite (nth_error_nth' _ 0%nat) in E2 by (now rewrite length_seq).
  rewrite seq_nth in E2 by exact Hlt. injection E2 as <-. simpl.
  split; [exact E1|]. now apply nth_error_nth.
Qed.

Lemma take_idx_pairs (ks : list Z) (P : list (Z * nat)) :
  (forall k i, In (k, i) P -> nth_error ks i = Some k) ->
  take_idx ks (map snd P) = map fst P.
Proof.
  induction P as [|[k i] t IH]; intros H; [reflexivity|].
  unfold take_idx in *. cbn [map flat_map fst snd].
  rewrite (H k i (or_introl eq_refl)), IH; [reflexivity|].
  intros k' i' Hin. apply H. now right.
Qed.

Lemma argsort_with_sorted (before : Z -> Z -> bool) (ks : list Z) :
  (forall a b, before a b = true -> a <= b) ->
  (forall a b, before a b = false -> b <= a) ->
  StronglySorted Z.le (take_idx ks (argsort_with before ks)).
Proof.
  intros Ht Hf. unfold argsort_with. rewrite take_idx_pairs.
  - apply StronglySorted_map with (R := fun p q => fst p <= fst q); [auto|].
    now apply insert_all_sorted.
  - intros k i Hin. apply (Permutation_in _ (insert_all_perm before _)) in Hin.
    apply (in_combine_seq_nth ks k i Hin).
Qed.

Lemma insertion_argsort_perm (ks : list Z) :
  Permutation (insertion_argsort ks) (seq 0 (length ks)).
Proof. apply argsort_with_perm. Qed.

Lemma insertion_argsort_sorted (ks : list Z) :
  StronglySorted Z.le (take_idx ks (insertion_argsort ks)).
Proof.
  apply argsort_with_sorted; intros a b H.
  - now apply Z.leb_le.
  - apply Z.leb_gt in H. lia.
Qed.

Lemma reversing_argsort_perm (ks : list Z) :
  Permutation (reversing_argsort ks) (seq 0 (length ks)).
Proof. apply argsort_with_perm. Qed.

Lemma reversing_argsort_sorted (ks : list Z) :
  StronglySorted Z.le (take_idx ks (reversing_argsort ks)).
Proof.
  apply argsort_with_sorted; intros a b H.
  - apply Z.ltb_lt in H. lia.
  - now apply Z.ltb_ge.
Qed.

Lemma insert_key_leb_filter (v k : Z) (i : nat) (l : list (Z * nat)) :
  filter (fun p => fst p =? v) (insert_key Z.leb k i l)
  = filter (fun p => fst p =? v) ((k, i) :: l).
Proof.
  induction l as [|[k' i'] t IH]; [reflexivity|].
  cbn [insert_key]. destruct (k <=? k') eqn:E; [reflexivity|].
  apply Z.leb_gt in E. cbn [filter fst] in *. rewrite IH.
  destruct (k' =? v) eqn:E1, (k =? v) eqn:E2; try reflexivity.
  apply Z.eqb_eq in E1, E2. lia.
Qed.

Lemma insert_all_leb_filter (v : Z) (l : list (Z * nat)) :
  filter (fun p => fst p =? v)
    (fold_right (fun ki acc => insert_key Z.leb (fst ki) (snd ki) acc) [] l)
  = filter (fun p => fst p =? v) l.
Proof.
  induction l as [|[k i] t IH]; [reflexivity|].
  cbn [fold_right fst snd]. rewrite insert_key_leb_filter.
  cbn [filter fst]. now rewrite IH.
Qed.

Lemma insertion_argsort_stable (ks : list Z) (v : Z) :
  filter (fun i => nth i ks 0 =? v) (insertion_argsort ks)
  = filter (fun i => nth i ks 0 =? v) (seq 0 (length ks)).
Proof.
  unfold insertion_argsort, argsort_with.
  set (P := fold_right _ _ _).
  assert (HP : forall p, In p P -> nth (snd p) ks 0 = fst p).
  { intros [k i] Hin. apply (Permutation_in _ (insert_all_perm Z.leb _)) in Hin.
    apply (in_combine_seq_nth ks k i Hin). }
  rewrite filter_map_comm.
  rewrite (filter_ext_in (fun p => nth (snd p) ks 0 =? v) (fun p => fst p =? v))
    by (intros p Hp; now rewrite HP).
  unfold P. rewrite insert_all_leb_filter.
  transitivity (map snd (filter (fun p => nth (snd p) ks 0 =? v)
                           (combine ks (seq 0 (length ks))))).
  - f_equal. apply filter_ext_in. intros [k i] Hin. simpl.
    now rewrite (proj2 (in_combine_seq_nth ks k i Hin)).
  - rewrite <- (filter_map_comm (fun i => nth i ks 0 =? v) snd).
    now rewrite combine_snd by (now rewrite length_seq).
Qed.

(** ** Bands *)

Section Bands.

Variable argsort : list Z -> list nat.
Hypothesis argsort_perm : forall ks, Permutation (argsort ks) (seq 0 (length ks)).

Lemma y_sorted_boxes_perm (boxes : list Box) :
  Permutation (y_sorted_boxes argsort boxes) boxes.
Proof.
  apply take_idx_perm. rewrite <- (length_map y0 boxes). apply argsort_perm.
Qed.

(** C4, amended: with the thresholds (0, 1), two boxes of the input
    whose vertical extents touch or overlap (no empty unit between them)
    fall in one band of the vertical split, whose chunk is then split
    horizontally. *)
Theorem touching_boxes_share_band (boxes : list Box) (a b : Box) :
  Forall well_formed boxes -> In a boxes -> In b boxes ->
  vertical_gap a b <= 0 ->
  same_band argsort boxes a b.
Proof.
  intros Hwf Ha Hb Hgap.
  pose proof (y_sorted_boxes_perm boxes) as P.
  assert (Hwfy : Forall well_formed (y_sorted_boxes argsort boxes)).
  { rewrite Forall_forall in *. intros x Hx. apply Hwf, (Permutation_in x P Hx). }
  assert (Hay : In a (y_sorted_boxes argsort boxes))
    by apply (Permutation_in a (Permutation_sym P) Ha).
  assert (Hby : In b (y_sorted_boxes argsort boxes))
    by apply (Permutation_in b (Permutation_sym P) Hb).
  assert (Hne : y_sorted_boxes argsort boxes <> []).
  { intros E. rewrite E in Hay. exact Hay. }
  destruct (well_formed_runs _ 1 Hne Hwfy (or_intror eq_refl)) as
    (h & s & e & H1 & H2 & _ & _ & _ & _ & H7).
  rewrite Forall_forall in Hwf.
  destruct (Hwf a Ha) as [_ Wa]. destruct (Hwf b Hb) as [_ Wb].
  unfold vertical_gap in Hgap.
  assert (Hr : exists r, In r (combine s e) /\
                 in_run r (y0 a) = true /\ in_run r (y0 b) = true).
  { destruct (Z_le_gt_dec (y0 a) (y0 b)) as [Hle|Hgt].
    - apply (H7 a b Hay Hby). cbn. lia.
    - destruct (H7 b a Hby Hay) as (r & Hr & R1 & R2); [cbn; lia|].
      exists r. tauto. }
  destruct Hr as (r & Hr & R1 & R2).
  exists h, s, e, r. repeat (split; [assumption|]).
  unfold y_sorted_boxes_chunk. rewrite compress_map_filter.
  split; apply filter_In; split; assumption.
Qed.

End Bands.

(** C4 as stated fails: two well-formed boxes whose vertical extents are
    one empty unit apart (a gap equal to [min_gap] = 1) fall in two
    different bands. *)
Lemma gap_of_one_splits_bands :
  let a := mkBox 0 0 10 5 in
  let b := mkBox 0 6 10 10 in
  well_formed a /\ well_formed b /\ vertical_gap a b <= 1 /\
  ~ same_band insertion_argsort [a; b] a b.
Proof.
  cbv zeta. split; [unfold well_formed; simpl; lia|].
  split; [unfold well_formed; simpl; lia|].
  split; [vm_compute; discriminate|].
  intros (yp & a0 & a1 & r & H1 & H2 & H3 & H4 & H5).
  vm_compute in H1. injection H1 as <-.
  vm_compute in H2. injection H2 as <- <-.
  destruct H3 as [<-|[<-|[]]].
  - vm_compute in H5. destruct H5 as [H5|[]]. discriminate.
  - vm_compute in H4. destruct H4 as [H4|[]]. discriminate.
Qed.

Lemma touching_boxes_witness :
  let a := mkBox 0 0 10 5 in
  let b := mkBox 0 5 10 10 in
  (forall ks, Permutation (insertion_argsort ks) (seq 0 (length ks))) /\
  Forall well_formed [a; b] /\ In a [a; b] /\ In b [a; b] /\
  vertical_gap a b <= 0 /\
  same_band insertion_argsort [a; b] a b.
Proof.
  cbv zeta.
  assert (Hwf : Forall well_formed [mkBox 0 0 10 5; mkBox 0 5 10 10]).
  { repeat constructor; simpl; lia. }
  assert (Hgap : vertical_gap (mkBox 0 0 10 5) (mkBox 0 5 10 10) <= 0).
  { vm_compute. discriminate. }
  split; [exact insertion_argsort_perm|]. split; [exact Hwf|].
  split; [now left|]. split; [right; now left|]. split; [exact Hgap|].
  exact (touching_boxes_share_band insertion_argsort insertion_argsort_perm
           [mkBox 0 0 10 5; mkBox 0 5 10 10] (mkBox 0 0 10 5) (mkBox 0 5 10 10)
           Hwf (or_introl eq_refl) (or_intror (or_introl eq_refl)) Hgap).
Defined.

Lemma take_idx_map {A B : Type} (f : A -> B) (l : list A) (idx : list nat) :
  take_idx (map f l) idx = map f (take_idx l idx).
Proof.
  unfold take_idx. induction idx as [|i t IH]; [reflexivity|].
  cbn [flat_map]. rewrite map_app, IH, nth_error_map.
  destruct (nth_error l i); reflexivity.
Qed.

Lemma StronglySorted_map_inv {A : Type} (key : A -> Z) (l : list A) :
  StronglySorted Z.le (map key l) ->
  StronglySorted (fun a b => key a <= key b) l.
Proof.
  induction l as [|a t IH]; intros H; [constructor|].
  inversion H as [|? ? Hs Ha]; subst. constructor; [now apply IH|].
  rewrite Forall_forall in *. intros x Hx. apply Ha. now apply in_map.
Qed.

Section LeafOrder.

Variable argsort : list Z -> list nat.
Hypothesis argsort_sorted :
  forall ks, StronglySorted Z.le (take_idx ks (argsort ks)).

Lemma y_sorted_boxes_chunk_sorted (boxes : list Box) (r : Z * Z) :
  StronglySorted Z.le (map y0 (y_sorted_boxes_chunk argsort boxes r)).
Proof.
  unfold y_sorted_boxes_chunk. rewrite compress_map_filter.
  apply StronglySorted_map with (R := fun a b => y0 a <= y0 b); [auto|].
  apply StronglySorted_filter, StronglySorted_map_inv.
  unfold y_sorted_boxes. rewrite <- take_idx_map. apply argsort_sorted.
Qed.

(** C2, amended: for a band whose horizontal split yields exactly one
    run, the identifiers of the band are appended in the order of the
    band's chunk of the arrays sorted by vertical start coordinate
    ([y_sorted_indices_chunk], ascending [y0]), not in the order sorted
    by horizontal start coordinate. *)
Theorem single_run_band_appends_y_sorted_chunk
  (rec : list Box -> list nat -> list nat -> result (list nat))
  (boxes : list Box) (indices res : list nat) (r : Z * Z)
  (x_projection arr_x0 arr_x1 : list Z) :
  projection_by_bboxes (x_sorted_boxes_chunk argsort boxes r) 0 = Ok x_projection ->
  split_projection_profile x_projection 0 1 = Some (arr_x0, arr_x1) ->
  length arr_x0 = 1%nat ->
  cut_band argsort rec (y_sorted_boxes argsort boxes)
    (y_sorted_indices argsort boxes indices) r res
  = Ok (res ++ y_sorted_indices_chunk argsort boxes indices r) /\
  StronglySorted Z.le (map y0 (y_sorted_boxes_chunk argsort boxes r)).
Proof.
  intros Hp Hs Hl. split; [|apply y_sorted_boxes_chunk_sorted].
  unfold cut_band. cbv zeta.
  change (take_idx
            (compress (map (fun b => in_run r (y0 b)) (y_sorted_boxes argsort boxes))
               (y_sorted_boxes argsort boxes))
            (argsort (map x0
               (compress (map (fun b => in_run r (y0 b)) (y_sorted_boxes argsort boxes))
                  (y_sorted_boxes argsort boxes)))))
    with (x_sorted_boxes_chunk argsort boxes r).
  rewrite Hp. cbn [bind]. rewrite Hs, Hl. reflexivity.
Qed.

End LeafOrder.

(** C2 as stated fails: a band of two boxes whose horizontal split has
    one run; sorted by horizontal start the identifiers read [1; 0], and
    the call appends [0; 1]. *)
Lemma single_run_band_not_x_sorted :
  let boxes := [mkBox 5 0 10 10; mkBox 0 2 8 10] in
  let indices := [0%nat; 1%nat] in
  let r := (0, 10) in
  (exists x_projection c0 c1,
     projection_by_bboxes (x_sorted_boxes_chunk insertion_argsort boxes r) 0
       = Ok x_projection /\
     split_projection_profile x_projection 0 1 = Some ([c0], [c1])) /\
  x_sorted_indices_chunk insertion_argsort boxes indices r = [1%nat; 0%nat] /\
  cut_band insertion_argsort (recursive_xy_cut insertion_argsort 1)
    (y_sorted_boxes insertion_argsort boxes)
    (y_sorted_indices insertion_argsort boxes indices) r []
  = Ok [0%nat; 1%nat] /\
  cut_band insertion_argsort (recursive_xy_cut insertion_argsort 1)
    (y_sorted_boxes insertion_argsort boxes)
    (y_sorted_indices insertion_argsort boxes indices) r []
  <> Ok ([] ++ x_sorted_indices_chunk insertion_argsort boxes indices r) /\
  recursive_xy_cut insertion_argsort 2 boxes indices [] = Ok [0%nat; 1%nat].
Proof.
  cbv zeta. split; [|split; [|split; [|split]]].
  - eexists; eexists; eexists. split; vm_compute; reflexivity.
  - vm_compute. reflexivity.
  - vm_compute. reflexivity.
  - vm_compute. discriminate.
  - vm_compute. reflexivity.
Qed.

Lemma single_run_band_witness :
  let boxes := [mkBox 5 0 10 10; mkBox 0 2 8 10] in
  let indices := [0%nat; 1%nat] in
  let r := (0, 10) in
  (forall ks, StronglySorted Z.le (take_idx ks (insertion_argsort ks))) /\
  projection_by_bboxes (x_sorted_boxes_chunk insertion_argsort boxes r) 0
    = Ok [1; 1; 1; 1; 1; 2; 2; 2; 1; 1] /\
  split_projection_profile [1; 1; 1; 1; 1; 2; 2; 2; 1; 1] 0 1 = Some ([0], [10]) /\
  length [0] = 1%nat /\
  cut_band insertion_argsort (recursive_xy_cut insertion_argsort 1)
    (y_sorted_boxes insertion_argsort boxes)
    (y_sorted_indices insertion_argsort boxes indices) r []
  = Ok ([] ++ y_sorted_indices_chunk insertion_argsort boxes indices r) /\
  StronglySorted Z.le (map y0 (y_sorted_boxes_chunk insertion_argsort boxes r)).
Proof.
  cbv zeta.
  assert (H1 : projection_by_bboxes
                 (x_sorted_boxes_chunk insertion_argsort
                    [mkBox 5 0 10 10; mkBox 0 2 8 10] (0, 10)) 0
               = Ok [1; 1; 1; 1; 1; 2; 2; 2; 1; 1]) by (vm_compute; reflexivity).
  assert (H2 : split_projection_profile [1; 1; 1; 1; 1; 2; 2; 2; 1; 1] 0 1
               = Some ([0], [10])) by (vm_compute; reflexivity).
  split; [exact insertion_argsort_sorted|]. split; [exact H1|].
  split; [exact H2|]. split; [reflexivity|].
  exact (single_run_band_appends_y_sorted_chunk insertion_argsort
           insertion_argsort_sorted (recursive_xy_cut insertion_argsort 1)
           [mkBox 5 0 10 10; mkBox 0 2 8 10] [0%nat; 1%nat] [] (0, 10)
           [1; 1; 1; 1; 1; 2; 2; 2; 1; 1] [0] [10] H1 H2 eq_refl).
Defined.

(** ** [process_page] *)

Section PageResults.

Variable argsort : list Z -> list nat.
Variable categories : Type.
Variable split_page_layout_by_categories :
  PageLayout -> categories -> PageLayout * PageLayout.
Variable merge_page_layouts : PageLayout -> PageLayout -> PageLayout.

(** C3, amended: with two sortable regions or more, [process_page]
    falls back to the original region order exactly when the cut raised
    or appended nothing; any non-empty result is used to reorder the
    regions, whatever its length: no comparison with the number of
    regions is made. *)
Theorem process_page_falls_back_on_empty_only (self_categories : categories)
  (fuel : nat) (layout page_layout page_layout_ignore : PageLayout)
  (boxes : list Box) :
  split_page_layout_by_categories layout self_categories
    = (page_layout, page_layout_ignore) ->
  (2 <= length (regions page_layout))%nat ->
  region_boxes (regions page_layout) = Ok boxes ->
  let res := try_cut argsort fuel boxes (seq 0 (length (regions page_layout))) in
  (res = None \/ res = Some [] ->
   process_page argsort categories split_page_layout_by_categories
     merge_page_layouts self_categories fuel layout
   = Ok (merge_page_layouts page_layout_ignore page_layout)) /\
  (forall i r, res = Some (i :: r) ->
   process_page argsort categories split_page_layout_by_categories
     merge_page_layouts self_categories fuel layout
   = Ok (merge_page_layouts page_layout_ignore
           (mkPageLayout (take_idx (regions page_layout) (i :: r))))).
Proof.
  intros Hsplit Hlen Hboxes res. unfold process_page. rewrite Hsplit.
  assert (E : (length (regions page_layout) <? 2)%nat = false)
    by (apply Nat.ltb_ge; exact Hlen).
  rewrite E, Hboxes. cbn [bind]. fold res. split.
  - intros [-> | ->]; reflexivity.
  - intros i r ->. reflexivity.
Qed.

End PageResults.

(** C3 as stated fails: three regions, the middle one a vertical segment
    (a zero-width box); the cut drops it and returns the two identifiers
    [0; 2], and [process_page] reorders with this short result, so the
    page comes back with two regions instead of the original three. *)
Lemma process_page_uses_short_result :
  let r0 := mkRegion 0 [(0, 0); (10, 0); (10, 10); (0, 10)]%Q in
  let r1 := mkRegion 1 [(20, 0); (20, 10)]%Q in
  let r2 := mkRegion 2 [(30, 0); (40, 0); (40, 10); (30, 10)]%Q in
  let layout := mkPageLayout [r0; r1; r2] in
  region_boxes (regions layout)
    = Ok [mkBox 0 0 10 10; mkBox 20 0 20 10; mkBox 30 0 40 10] /\
  try_cut insertion_argsort 3
    [mkBox 0 0 10 10; mkBox 20 0 20 10; mkBox 30 0 40 10] [0; 1; 2]%nat
    = Some [0; 2]%nat /\
  process_page insertion_argsort unit split_nothing_ignored merge_appending tt 3 layout
    = Ok (mkPageLayout [r0; r2]) /\
  process_page insertion_argsort unit split_nothing_ignored merge_appending tt 3 layout
    <> Ok (merge_appending (mkPageLayout []) layout).
Proof.
  cbv zeta. split; [|split; [|split]].
  - vm_compute. reflexivity.
  - vm_compute. reflexivity.
  - vm_compute. reflexivity.
  - vm_compute. discriminate.
Qed.

Lemma process_page_witness :
  let r0 := mkRegion 0 [(0, 0); (10, 0); (10, 10); (0, 10)]%Q in
  let r1 := mkRegion 1 [(20, 0); (20, 10)]%Q in
  let r2 := mkRegion 2 [(30, 0); (40, 0); (40, 10); (30, 10)]%Q in
  let layout := mkPageLayout [r0; r1; r2] in
  let boxes := [mkBox 0 0 10 10; mkBox 20 0 20 10; mkBox 30 0 40 10] in
  split_nothing_ignored layout tt = (layout, mkPageLayout []) /\
  (2 <= length (regions layout))%nat /\
  region_boxes (regions layout) = Ok boxes /\
  let res := try_cut insertion_argsort 3 boxes (seq 0 (length (regions layout))) in
  (res = None \/ res = Some [] ->
   process_page insertion_argsort unit split_nothing_ignored merge_appending tt 3 layout
   = Ok (merge_appending (mkPageLayout []) layout)) /\
  (forall i r, res = Some (i :: r) ->
   process_page insertion_argsort unit split_nothing_ignored merge_appending tt 3 layout
   = Ok (merge_appending (mkPageLayout [])
           (mkPageLayout (take_idx (regions layout) (i :: r))))).
Proof.
  cbv zeta.
  split; [reflexivity|]. split; [simpl; lia|]. split; [vm_compute; reflexivity|].
  apply (process_page_falls_back_on_empty_only insertion_argsort unit
           split_nothing_ignored merge_appending tt 3
           (mkPageLayout [mkRegion 0 [(0, 0); (10, 0); (10, 10); (0, 10)]%Q;
                          mkRegion 1 [(20, 0); (20, 10)]%Q;
                          mkRegion 2 [(30, 0); (40, 0); (40, 10); (30, 10)]%Q])
           _ (mkPageLayout [])
           [mkBox 0 0 10 10; mkBox 20 0 20 10; mkBox 30 0 40 10]).
  - reflexivity.
  - simpl. lia.
  - vm_compute. reflexivity.
Defined.

(** ** The results at concrete inputs *)

Lemma grid_boxes_well_formed : Forall well_formed grid_boxes.
Proof. repeat constructor; simpl; lia. Qed.

Lemma grid_boxes_nonempty : grid_boxes <> [].
Proof. discriminate. Qed.

Lemma projection_counts_coverage_witness :
  grid_boxes <> [] /\ Forall well_formed grid_boxes /\ (0 = 0 \/ 0 = 1) /\
  exists h,
    projection_by_bboxes grid_boxes 0 = Ok h /\
    Forall (fun b => snd (axis_slice 0 b) <= Z.of_nat (length h)) grid_boxes /\
    Exists (fun b => snd (axis_slice 0 b) = Z.of_nat (length h)) grid_boxes /\
    forall p, 0 <= p < Z.of_nat (length h) ->
      nth (Z.to_nat p) h 0 = coverage grid_boxes 0 p.
Proof.
  split; [exact grid_boxes_nonempty|]. split; [exact grid_boxes_well_formed|].
  split; [now left|].
  exact (projection_counts_coverage grid_boxes 0 grid_boxes_nonempty
           grid_boxes_well_formed (or_introl eq_refl)).
Defined.

Lemma recursive_xy_cut_permutation_witness :
  (forall ks, Permutation (insertion_argsort ks) (seq 0 (length ks))) /\
  grid_boxes <> [] /\ Forall well_formed grid_boxes /\
  length grid_boxes = length (seq 0 4) /\ NoDup (seq 0 4) /\
  (length grid_boxes <= 4)%nat /\
  exists out,
    recursive_xy_cut insertion_argsort 4 grid_boxes (seq 0 4) [] = Ok ([] ++ out) /\
    Permutation out (seq 0 4) /\
    length out = length grid_boxes /\
    forall i, In i (seq 0 4) -> count_occ Nat.eq_dec out i = 1%nat.
Proof.
  assert (H4 : (length grid_boxes <= 4)%nat) by (simpl; lia).
  split; [exact insertion_argsort_perm|]. split; [exact grid_boxes_nonempty|].
  split; [exact grid_boxes_well_formed|]. split; [reflexivity|].
  split; [apply seq_NoDup|]. split; [exact H4|].
  exact (recursive_xy_cut_permutation insertion_argsort insertion_argsort_perm
           4 grid_boxes (seq 0 4) [] grid_boxes_nonempty grid_boxes_well_formed
           eq_refl (seq_NoDup 4 0) H4).
Defined.

Lemma recursive_xy_cut_terminates_witness :
  (forall ks, Permutation (insertion_argsort ks) (seq 0 (length ks))) /\
  grid_boxes <> [] /\ Forall well_formed grid_boxes /\
  length grid_boxes = length (seq 0 4) /\ (length grid_boxes <= 4)%nat /\
  (exists out, recursive_xy_cut insertion_argsort 4 grid_boxes (seq 0 4) [] = Ok out) /\
  (forall r c xp c0 c1,
     projection_by_bboxes (x_sorted_boxes_chunk insertion_argsort grid_boxes r) 0 = Ok xp ->
     split_projection_profile xp 0 1 = Some (c0, c1) ->
     (length c0 <> 1)%nat -> In c (combine c0 c1) ->
     (0 < length (column_boxes insertion_argsort grid_boxes r c) < length grid_boxes)%nat).
Proof.
  assert (H4 : (length grid_boxes <= 4)%nat) by (simpl; lia).
  split; [exact insertion_argsort_perm|]. split; [exact grid_boxes_nonempty|].
  split; [exact grid_boxes_well_formed|]. split; [reflexivity|]. split; [exact H4|].
  exact (recursive_xy_cut_terminates insertion_argsort insertion_argsort_perm
           4 grid_boxes (seq 0 4) [] grid_boxes_nonempty grid_boxes_well_formed
           eq_refl H4).
Defined.

Lemma recursive_xy_cut_no_duplicate_witness :
  (forall ks, Permutation (insertion_argsort ks) (seq 0 (length ks))) /\
  NoDup (seq 0 4) /\
  (grid_boxes <> [] -> Forall well_formed grid_boxes ->
   length grid_boxes = length (seq 0 4) -> (length grid_boxes <= 4)%nat ->
   exists new,
     recursive_xy_cut insertion_argsort 4 grid_boxes (seq 0 4) [] = Ok ([] ++ new) /\
     NoDup new) /\
  (forall out,
     recursive_xy_cut insertion_argsort 4 grid_boxes (seq 0 4) [] = Ok out ->
     exists new, out = [] ++ new /\ NoDup new /\ incl new (seq 0 4)) /\
  (forall h r r' v,
     In r (profile_runs h 0 1) -> In r' (profile_runs h 0 1) ->
     in_run r v = true -> in_run r' v = true -> r = r').
Proof.
  split; [exact insertion_argsort_perm|]. split; [apply seq_NoDup|].
  exact (recursive_xy_cut_no_duplicate insertion_argsort insertion_argsort_perm
           4 grid_boxes (seq 0 4) [] (seq_NoDup 4 0)).
Defined.

(** ** Sorting by a key with a stable argsort *)

Lemma filter_take_idx {A : Type} (key : A -> Z) (v : Z) (l : list A) (idx : list nat) :
  filter (fun a => key a =? v) (take_idx l idx)
  = take_idx l (filter (fun i => nth i (map key l) 0 =? v) idx).
Proof.
  induction idx as [|i t IH]; [reflexivity|].
  change (take_idx l (i :: t))
    with ((match nth_error l i with Some a => [a] | None => [] end) ++ take_idx l t).
  rewrite filter_app, IH. cbn [filter].
  destruct (nth_error l i) as [a|] eqn:E.
  - assert (Ek : nth i (map key l) 0 = key a).
    { apply nth_error_nth. rewrite nth_error_map, E. reflexivity. }
    rewrite Ek. cbn [filter]. destruct (key a =? v); [|reflexivity].
    change (take_idx l (i :: filter (fun i => nth i (map key l) 0 =? v) t))
      with ((match nth_error l i with Some a => [a] | None => [] end)
              ++ take_idx l (filter (fun i => nth i (map key l) 0 =? v) t)).
    now rewrite E.
  - cbn [filter app]. destruct (nth i (map key l) 0 =? v); [|reflexivity].
    change (take_idx l (i :: filter (fun i => nth i (map key l) 0 =? v) t))
      with ((match nth_error l i with Some a => [a] | None => [] end)
              ++ take_idx l (filter (fun i => nth i (map key l) 0 =? v) t)).
    now rewrite E.
Qed.

Lemma filter_comm {A : Type} (f g : A -> bool) (l : list A) :
  filter f (filter g l) = filter g (filter f l).
Proof.
  rewrite !filter_filter. apply filter_ext. intros x. apply andb_comm.
Qed.

(** Two lists sorted by a key that agree on every class of equal keys are
    equal. *)
Lemma sorted_classes_unique {A : Type} (key : A -> Z) (l1 : list A) :
  forall l2,
    StronglySorted (fun a b => key a <= key b) l1 ->
    StronglySorted (fun a b => key a <= key b) l2 ->
    (forall v, filter (fun a => key a =? v) l1 = filter (fun a => key a =? v) l2) ->
    l1 = l2.
Proof.
  induction l1 as [|a t1 IH]; intros l2 S1 S2 Hc.
  - destruct l2 as [|b t2]; [reflexivity|].
    specialize (Hc (key b)). cbn [filter] in Hc. rewrite Z.eqb_refl in Hc.
    discriminate.
  - destruct l2 as [|b t2].
    { specialize (Hc (key a)). cbn [filter] in Hc. rewrite Z.eqb_refl in Hc.
      discriminate. }
    inversion S1 as [|? ? S1' F1]; subst. inversion S2 as [|? ? S2' F2]; subst.
    rewrite Forall_forall in F1, F2.
    assert (Ha : In a (b :: t2)).
    { assert (H : In a (filter (fun x => key x =? key a) (b :: t2))).
      { rewrite <- Hc. cbn [filter]. rewrite Z.eqb_refl. now left. }
      apply filter_In in H. tauto. }
    assert (Hb : In b (a :: t1)).
    { assert (H : In b (filter (fun x => key x =? key b) (a :: t1))).
      { rewrite Hc. cbn [filter]. rewrite Z.eqb_refl. now left. }
      apply filter_In in H. tauto. }
    assert (Hk : key a = key b).
    { apply Z.le_antisymm.
      - destruct Hb as [<-|Hb]; [lia|now apply F1].
      - destruct Ha as [<-|Ha]; [lia|now apply F2]. }
    assert (Hab : a = b).
    { specialize (Hc (key a)). cbn [filter] in Hc.
      rewrite <- Hk, Z.eqb_refl in Hc. now injection Hc. }
    subst b. f_equal. apply IH; try assumption.
    intros v. specialize (Hc v). cbn [filter] in Hc.
    destruct (key a =? v); [now injection Hc|exact Hc].
Qed.

Section StableSort.

Variable argsort : list Z -> list nat.
Hypothesis argsort_sorted : forall ks, StronglySorted Z.le (take_idx ks (argsort ks)).
Hypothesis argsort_stable : forall ks v,
  filter (fun i => nth i ks 0 =? v) (argsort ks)
  = filter (fun i => nth i ks 0 =? v) (seq 0 (length ks)).

Lemma sort_by_sorted {A : Type} (key : A -> Z) (l : list A) :
  StronglySorted (fun a b => key a <= key b) (sort_by argsort key l).
Proof.
  apply StronglySorted_map_inv. unfold sort_by. rewrite <- take_idx_map.
  apply argsort_sorted.
Qed.

Lemma sort_by_stable {A : Type} (key : A -> Z) (v : Z) (l : list A) :
  filter (fun a => key a =? v) (sort_by argsort key l)
  = filter (fun a => key a =? v) l.
Proof.
  unfold sort_by. rewrite filter_take_idx, argsort_stable, length_map.
  rewrite <- filter_take_idx, take_idx_seq. reflexivity.
Qed.

Lemma sort_by_classes {A : Type} (key : A -> Z) (l l' : list A) :
  (forall v, filter (fun a => key a =? v) l = filter (fun a => key a =? v) l') ->
  sort_by argsort key l = sort_by argsort key l'.
Proof.
  intros H. apply (sorted_classes_unique key); try apply sort_by_sorted.
  intros v. now rewrite !sort_by_stable.
Qed.

Lemma sort_by_sorted_id {A : Type} (key : A -> Z) (l : list A) :
  StronglySorted (fun a b => key a <= key b) l -> sort_by argsort key l = l.
Proof.
  intros H. apply (sorted_classes_unique key); [apply sort_by_sorted|exact H|].
  intros v. apply sort_by_stable.
Qed.

Lemma sort_by_idem {A : Type} (key : A -> Z) (l : list A) :
  sort_by argsort key (sort_by argsort key l) = sort_by argsort key l.
Proof. apply sort_by_sorted_id, sort_by_sorted. Qed.

Lemma sort_by_filter {A : Type} (key : A -> Z) (p : A -> bool) (l : list A) :
  filter p (sort_by argsort key l) = sort_by argsort key (filter p l).
Proof.
  apply (sorted_classes_unique key).
  - apply StronglySorted_filter, sort_by_sorted.
  - apply sort_by_sorted.
  - intros v. rewrite filter_comm, !sort_by_stable. apply filter_comm.
Qed.

Lemma sort_by_alternate {A : Type} (k1 k2 : A -> Z) (l : list A) :
  sort_by argsort k1 (sort_by argsort k2 (sort_by argsort k1 l))
  = sort_by argsort k1 (sort_by argsort k2 l).
Proof.
  apply sort_by_classes. intros v.
  rewrite !sort_by_filter. now rewrite <- (sort_by_filter k1), sort_by_stable.
Qed.

End StableSort.

(** ** The value of the cut on well-formed boxes *)

Lemma runs_of_perm (axis : Z) (L L' : list (Box * nat)) :
  Permutation L L' -> runs_of axis L = runs_of axis L'.
Proof.
  intros P. unfold runs_of.
  now rewrite (projection_by_bboxes_perm _ (map fst L') axis (Permutation_map fst P)).
Qed.

Lemma runs_of_spec (axis : Z) (L : list (Box * nat)) :
  L <> [] -> Forall well_formed (map fst L) -> axis = 0 \/ axis = 1 ->
  exists h starts ends,
    projection_by_bboxes (map fst L) axis = Ok h /\
    split_projection_profile h 0 1 = Some (starts, ends) /\
    combine starts ends = runs_of axis L /\
    length starts = length (runs_of axis L) /\
    chain (runs_of axis L) /\
    (forall p, In p L ->
       exists r, In r (runs_of axis L) /\
                 in_run r (fst (axis_slice axis (fst p))) = true) /\
    (forall r, In r (runs_of axis L) ->
       exists p, In p L /\ in_run r (fst (axis_slice axis (fst p))) = true).
Proof.
  intros Hne Hwf Hax.
  destruct (well_formed_runs_pairs L axis Hne Hwf Hax) as
    (h & s & e & H1 & H2 & H3 & H4 & H5 & H6).
  assert (E : combine s e = runs_of axis L).
  { unfold runs_of. rewrite H1. symmetry. apply (split_Some_runs _ _ _ _ _ H2). }
  exists h, s, e. rewrite <- E. repeat (split; [assumption|]).
  split; [reflexivity|]. repeat (split; [assumption|]). assumption.
Qed.

Lemma concat_each_map {A B : Type} (body : A -> result (list B)) (f : A -> list B)
  (l : list A) :
  (forall a, In a l -> body a = Ok (f a)) ->
  concat_each body l = Ok (concat (map f l)).
Proof.
  induction l as [|a t IH]; intros H; [reflexivity|].
  cbn [concat_each]. rewrite H by now left. cbn [bind].
  rewrite IH by (intros; apply H; now right). reflexivity.
Qed.

Section CutValue.

Variable argsort : list Z -> list nat.
Hypothesis argsort_perm : forall ks, Permutation (argsort ks) (seq 0 (length ks)).

Lemma cut_pairs_unfold (fuel : nat) (L : list (Box * nat)) :
  L <> [] -> Forall well_formed (map fst L) ->
  cut_pairs argsort (S fuel) L =
  concat_each (band_pairs argsort (cut_pairs argsort fuel) (sort_by argsort py0 L))
    (runs_of 1 L).
Proof.
  intros Hne Hwf. cbn [cut_pairs]. cbv zeta.
  pose proof (sort_by_perm argsort argsort_perm py0 L) as PS.
  rewrite (projection_by_bboxes_perm _ (map fst L) 1 (Permutation_map fst PS)).
  destruct (runs_of_spec 1 L Hne Hwf (or_intror eq_refl)) as
    (h & s & e & H1 & H2 & H3 & _).
  rewrite H1. cbn [bind]. rewrite H2, H3. reflexivity.
Qed.

Lemma band_pairs_unfold (rec : list (Box * nat) -> result (list (Box * nat)))
  (S : list (Box * nat)) (r : Z * Z) :
  let T := filter (fun p => in_run r (py0 p)) S in
  T <> [] -> Forall well_formed (map fst T) ->
  band_pairs argsort rec S r =
  if (length (runs_of 0 T) =? 1)%nat then Ok T
  else concat_each
         (fun c => rec (filter (fun p => in_run c (px0 p)) (sort_by argsort px0 T)))
         (runs_of 0 T).
Proof.
  intros T Hne Hwf. unfold band_pairs. cbv zeta. fold T.
  pose proof (sort_by_perm argsort argsort_perm px0 T) as PX.
  rewrite (projection_by_bboxes_perm _ (map fst T) 0 (Permutation_map fst PX)).
  destruct (runs_of_spec 0 T Hne Hwf (or_introl eq_refl)) as
    (h & s & e & H1 & H2 & H3 & H4 & _).
  rewrite H1. cbn [bind]. rewrite H2, H3, H4. reflexivity.
Qed.

(** The bands and the columns of well-formed pairs: non-empty, well
    formed, and the columns of a band with two columns or more are
    strictly smaller than the band. *)
Lemma band_facts (L : list (Box * nat)) (r : Z * Z) :
  L <> [] -> Forall well_formed (map fst L) -> In r (runs_of 1 L) ->
  let T := filter (fun p => in_run r (py0 p)) (sort_by argsort py0 L) in
  T <> [] /\ Forall well_formed (map fst T) /\ (length T <= length L)%nat.
Proof.
  intros Hne Hwf Hr T.
  pose proof (sort_by_perm argsort argsort_perm py0 L) as PS.
  destruct (runs_of_spec 1 L Hne Hwf (or_intror eq_refl)) as
    (_ & _ & _ & _ & _ & _ & _ & _ & _ & H6).
  destruct (H6 r Hr) as (p & Hp & Hin). split; [|split].
  - assert (Hf : In p T).
    { apply filter_In. split; [|exact Hin].
      apply (Permutation_in p (Permutation_sym PS) Hp). }
    intros E. rewrite E in Hf. exact Hf.
  - apply Forall_map_fst_filter, (Forall_map_fst_perm _ L PS Hwf).
  - unfold T. rewrite <- (Permutation_length PS). apply filter_length_le.
Qed.

Lemma column_facts (T : list (Box * nat)) (c : Z * Z) :
  T <> [] -> Forall well_formed (map fst T) -> In c (runs_of 0 T) ->
  let C := filter (fun p => in_run c (px0 p)) (sort_by argsort px0 T) in
  C <> [] /\ Forall well_formed (map fst C) /\
  ((length (runs_of 0 T) <> 1)%nat -> (length C < length T)%nat).
Proof.
  intros Hne Hwf Hc C.
  pose proof (sort_by_perm argsort argsort_perm px0 T) as PX.
  destruct (runs_of_spec 0 T Hne Hwf (or_introl eq_refl)) as
    (_ & _ & _ & _ & _ & _ & _ & H4 & _ & H6).
  destruct (H6 c Hc) as (p & Hp & Hin). split; [|split].
  - assert (Hf : In p C).
    { apply filter_In. split; [|exact Hin].
      apply (Permutation_in p (Permutation_sym PX) Hp). }
    intros E. rewrite E in Hf. exact Hf.
  - apply Forall_map_fst_filter, (Forall_map_fst_perm _ T PX Hwf).
  - intros Hn. rewrite <- (Permutation_length PX).
    destruct (chain_other_run (runs_of 0 T) c H4 Hn Hc) as (c' & Hc' & Hdis).
    destruct (H6 c' Hc') as (p' & Hp' & Hin').
    apply (filter_length_lt _ _ p').
    + apply (Permutation_in p' (Permutation_sym PX) Hp').
    + apply Hdis. exact Hin'.
Qed.

(** Any call depth from the number of pairs on gives the same value. *)
Lemma cut_pairs_value (fuel : nat) :
  forall L : list (Box * nat),
    L <> [] -> Forall well_formed (map fst L) -> (length L <= fuel)%nat ->
    cut_pairs argsort fuel L = Ok (cut_value argsort L).
Proof.
  induction fuel as [fuel IH] using (well_founded_induction lt_wf).
  intros L Hne Hwf Hlen.
  assert (Hstep : forall f1 f2, (length L <= S f1)%nat -> (length L <= S f2)%nat ->
            (S f1 <= fuel)%nat -> (S f2 <= fuel)%nat ->
            cut_pairs argsort (S f1) L = cut_pairs argsort (S f2) L).
  { intros f1 f2 L1 L2 F1 F2. rewrite !cut_pairs_unfold by assumption.
    assert (Hb : forall r, In r (runs_of 1 L) ->
              band_pairs argsort (cut_pairs argsort f1) (sort_by argsort py0 L) r
              = band_pairs argsort (cut_pairs argsort f2) (sort_by argsort py0 L) r).
    { intros r Hr. destruct (band_facts L r Hne Hwf Hr) as (TN & TW & TL).
      rewrite !band_pairs_unfold by assumption.
      destruct (length (runs_of 0 _) =? 1)%nat eqn:E1; [reflexivity|].
      apply Nat.eqb_neq in E1.
      assert (Hc : forall c, In c (runs_of 0 (filter (fun p => in_run r (py0 p))
                                                (sort_by argsort py0 L))) ->
                cut_pairs argsort f1
                  (filter (fun p => in_run c (px0 p))
                     (sort_by argsort px0
                        (filter (fun p => in_run r (py0 p)) (sort_by argsort py0 L))))
                = cut_pairs argsort f2
                  (filter (fun p => in_run c (px0 p))
                     (sort_by argsort px0
                        (filter (fun p => in_run r (py0 p)) (sort_by argsort py0 L))))).
      { intros c Hc. destruct (column_facts _ c TN TW Hc) as (CN & CW & CL).
        specialize (CL E1).
        rewrite (IH f1) by (try assumption; lia).
        rewrite (IH f2) by (try assumption; lia). reflexivity. }
      revert Hc. generalize (runs_of 0 (filter (fun p => in_run r (py0 p))
                                          (sort_by argsort py0 L))).
      intros cols. induction cols as [|c cols IHc]; intros Hc; [reflexivity|].
      cbn [concat_each]. rewrite (Hc c) by now left.
      rewrite IHc by (intros; apply Hc; now right). reflexivity. }
    revert Hb. generalize (runs_of 1 L). intros bands.
    induction bands as [|r bands IHb]; intros Hb; [reflexivity|].
    cbn [concat_each]. rewrite (Hb r) by now left.
    rewrite IHb by (intros; apply Hb; now right). reflexivity. }
  destruct (cut_pairs_perm argsort argsort_perm (length L) L Hne Hwf (le_n _))
    as (o & Ho & _).
  unfold cut_value. rewrite Ho.
  destruct fuel as [|fuel]; [destruct L; [congruence|simpl in Hlen; lia]|].
  destruct (length L) as [|n] eqn:En; [destruct L; [congruence|discriminate]|].
  rewrite <- Ho. apply Hstep; lia.
Qed.

Lemma cut_value_perm (L : list (Box * nat)) :
  L <> [] -> Forall well_formed (map fst L) -> Permutation (cut_value argsort L) L.
Proof.
  intros Hne Hwf.
  destruct (cut_pairs_perm argsort argsort_perm (length L) L Hne Hwf (le_n _))
    as (o & Ho & P).
  unfold cut_value. now rewrite Ho.
Qed.

Lemma band_pairs_value (fuel : nat) (L : list (Box * nat)) (r : Z * Z) :
  L <> [] -> Forall well_formed (map fst L) -> In r (runs_of 1 L) ->
  (length L <= S fuel)%nat ->
  band_pairs argsort (cut_pairs argsort fuel) (sort_by argsort py0 L) r
  = Ok (band_value argsort (filter (fun p => in_run r (py0 p)) (sort_by argsort py0 L))).
Proof.
  intros Hne Hwf Hr Hlen. destruct (band_facts L r Hne Hwf Hr) as (TN & TW & TL).
  rewrite band_pairs_unfold by assumption. unfold band_value.
  destruct (length (runs_of 0 _) =? 1)%nat eqn:E1; [reflexivity|].
  apply Nat.eqb_neq in E1. apply concat_each_map. intros c Hc.
  destruct (column_facts _ c TN TW Hc) as (CN & CW & CL). specialize (CL E1).
  apply cut_pairs_value; try assumption. lia.
Qed.

(** The value of the cut, band by band. *)
Lemma cut_value_bands (L : list (Box * nat)) :
  L <> [] -> Forall well_formed (map fst L) ->
  cut_value argsort L =
  concat (map (fun r => band_value argsort
                          (filter (fun p => in_run r (py0 p)) (sort_by argsort py0 L)))
            (runs_of 1 L)).
Proof.
  intros Hne Hwf.
  pose proof (cut_pairs_value (length L) L Hne Hwf (le_n _)) as Hv.
  destruct (length L) as [|n] eqn:En; [destruct L; [congruence|discriminate]|].
  rewrite cut_pairs_unfold in Hv by assumption.
  rewrite (concat_each_map _
             (fun r => band_value argsort
                         (filter (fun p => in_run r (py0 p)) (sort_by argsort py0 L))))
    in Hv.
  - now injection Hv.
  - intros r Hr. apply band_pairs_value; try assumption. lia.
Qed.

Lemma band_value_perm (T : list (Box * nat)) :
  T <> [] -> Forall well_formed (map fst T) -> Permutation (band_value argsort T) T.
Proof.
  intros Hne Hwf. unfold band_value.
  destruct (length (runs_of 0 T) =? 1)%nat eqn:E1; [apply Permutation_refl|].
  pose proof (sort_by_perm argsort argsort_perm px0 T) as PX.
  destruct (runs_of_spec 0 T Hne Hwf (or_introl eq_refl)) as
    (_ & _ & _ & _ & _ & _ & _ & H4 & H5 & _).
  transitivity (sort_by argsort px0 T); [|exact PX].
  transitivity (concat (map (fun c => filter (fun p => in_run c (px0 p))
                                        (sort_by argsort px0 T)) (runs_of 0 T))).
  - apply Forall2_perm_concat with
      (f := fun c => filter (fun p => in_run c (px0 p)) (sort_by argsort px0 T)).
    assert (H : forall c, In c (runs_of 0 T) ->
              Permutation
                (cut_value argsort (filter (fun p => in_run c (px0 p)) (sort_by argsort px0 T)))
                (filter (fun p => in_run c (px0 p)) (sort_by argsort px0 T))).
    { intros c Hc. destruct (column_facts T c Hne Hwf Hc) as (CN & CW & _).
      now apply cut_value_perm. }
    revert H. generalize (runs_of 0 T). intros cols.
    induction cols as [|c cols IH]; intros H; simpl; constructor.
    + apply H. now left.
    + apply IH. intros; apply H; now right.
  - apply (concat_filter_runs_perm px0 _ H4). intros p Hp.
    apply H5. apply (Permutation_in p PX Hp).
Qed.

End CutValue.

(** ** Sorting again *)

Lemma filter_all {A : Type} (f : A -> bool) (l : list A) :
  (forall x, In x l -> f x = true) -> filter f l = l.
Proof.
  induction l as [|a t IH]; intros H; [reflexivity|].
  simpl. rewrite (H a (or_introl eq_refl)), IH; [reflexivity|].
  intros; apply H; now right.
Qed.

Lemma filter_none {A : Type} (f : A -> bool) (l : list A) :
  (forall x, In x l -> f x = false) -> filter f l = [].
Proof.
  induction l as [|a t IH]; intros H; [reflexivity|].
  simpl. rewrite (H a (or_introl eq_refl)), IH; [reflexivity|].
  intros; apply H; now right.
Qed.

(** Filtering the concatenation of the pieces of a chain of runs by one
    run gives back the piece of that run. *)
Lemma filter_concat_chain {A : Type} (key : A -> Z) (O : Z * Z -> list A)
  (R : list (Z * Z)) :
  chain R ->
  (forall r' x, In r' R -> In x (O r') -> in_run r' (key x) = true) ->
  forall r, In r R ->
    filter (fun x => in_run r (key x)) (concat (map O R)) = O r.
Proof.
  induction R as [|r1 rs IH]; intros C HO r Hr; [contradiction|].
  destruct (chain_inv _ _ C) as (C1 & C2 & C3).
  cbn [map concat]. rewrite filter_app.
  destruct (Z.eq_dec (fst r) (fst r1)) as [Ef|Ef].
  - assert (E : r = r1).
    { destruct Hr as [Hr|Hr]; [now symmetry|]. specialize (C3 _ Hr). lia. }
    subst r. rewrite filter_all by (intros x Hx; apply (HO r1 x); [now left|exact Hx]).
    rewrite filter_none; [apply app_nil_r|].
    intros x Hx. apply in_concat in Hx. destruct Hx as (l & Hl & Hx).
    apply in_map_iff in Hl. destruct Hl as (r' & <- & Hr').
    apply (in_run_disjoint r1 r' (key x)); [apply (C3 _ Hr')|].
    apply (HO r' x); [now right|exact Hx].
  - destruct Hr as [Hr|Hr]; [congruence|].
    rewrite filter_none.
    + cbn [app]. apply IH; [exact C2| |exact Hr].
      intros r' x Hr' Hx. apply (HO r' x); [now right|exact Hx].
    + intros x Hx. assert (H1 : in_run r1 (key x) = true)
        by (apply (HO r1 x); [now left|exact Hx]).
      apply in_run_iff in H1. specialize (C3 _ Hr).
      destruct (in_run r (key x)) eqn:E; [|reflexivity].
      apply in_run_iff in E. lia.
Qed.

Section Idempotence.

Variable argsort : list Z -> list nat.
Hypothesis argsort_perm : forall ks, Permutation (argsort ks) (seq 0 (length ks)).
Hypothesis argsort_sorted : forall ks, StronglySorted Z.le (take_idx ks (argsort ks)).
Hypothesis argsort_stable : forall ks v,
  filter (fun i => nth i ks 0 =? v) (argsort ks)
  = filter (fun i => nth i ks 0 =? v) (seq 0 (length ks)).

Local Abbreviation sy := (sort_by (A := Box * nat) argsort py0).
Local Abbreviation sx := (sort_by (A := Box * nat) argsort px0).

(** The cut looks at its input only through the list sorted by [y0]. *)
Lemma cut_value_sorted_input (M M' : list (Box * nat)) :
  sy M = sy M' -> cut_value argsort M = cut_value argsort M'.
Proof.
  intros H.
  assert (P : Permutation M M').
  { transitivity (sy M); [apply Permutation_sym, sort_by_perm, argsort_perm|].
    rewrite H. apply sort_by_perm, argsort_perm. }
  unfold cut_value. rewrite <- (Permutation_length P).
  destruct (length M) as [|n]; [reflexivity|].
  cbn [cut_pairs]. cbv zeta. now rewrite H.
Qed.

Lemma nonempty_perm {A : Type} (l l' : list A) :
  Permutation l l' -> l' <> [] -> l <> [].
Proof.
  intros P H E. rewrite E in P. apply Permutation_nil in P. congruence.
Qed.

Lemma cut_again_core (g : list (Box * nat) -> list (Box * nat)) (L : list (Box * nat)) :
  (forall M, Permutation (g M) M) ->
  (forall p M, filter p (g M) = g (filter p M)) ->
  (forall V, sy (sx (sy (g V))) = sy (sx V)) ->
  sy (g (sy L)) = sy L ->
  L <> [] -> Forall well_formed (map fst L) ->
  (forall C, C <> [] -> Forall well_formed (map fst C) ->
     (length C < length L)%nat ->
     StronglySorted (fun a b => px0 a <= px0 b) C ->
     cut_value argsort (sx (cut_value argsort C)) = cut_value argsort C) ->
  cut_value argsort (g (cut_value argsort L)) = cut_value argsort L.
Proof.
  intros Hg1 Hg2 Hg3 HgL Hne Hwf IH.
  pose proof (cut_value_perm argsort argsort_perm L Hne Hwf) as PO.
  set (O := cut_value argsort L) in *.
  assert (PW : Permutation (g O) L) by (transitivity O; [apply Hg1|exact PO]).
  assert (HneW : g O <> []) by apply (nonempty_perm _ _ PW Hne).
  assert (HwfW : Forall well_formed (map fst (g O)))
    by apply (Forall_map_fst_perm _ _ PW Hwf).
  rewrite (cut_value_bands argsort argsort_perm (g O) HneW HwfW).
  rewrite (runs_of_perm 1 _ _ PW).
  unfold O at 2. rewrite (cut_value_bands argsort argsort_perm L Hne Hwf).
  f_equal. apply map_ext_in. intros r Hr.
  destruct (band_facts argsort argsort_perm L r Hne Hwf Hr) as (TN & TW & TL).
  set (T := filter (fun p => in_run r (py0 p)) (sy L)) in *.
  pose proof (band_value_perm argsort argsort_perm T TN TW) as POr.
  destruct (runs_of_spec 1 L Hne Hwf (or_intror eq_refl)) as
    (_ & _ & _ & _ & _ & _ & _ & CH & _ & _).
  assert (EO : filter (fun p => in_run r (py0 p)) O = band_value argsort T).
  { unfold O. rewrite (cut_value_bands argsort argsort_perm L Hne Hwf).
    apply (filter_concat_chain py0
             (fun r' => band_value argsort (filter (fun p => in_run r' (py0 p)) (sy L)))
             _ CH); [|exact Hr].
    intros r' x Hr' Hx.
    destruct (band_facts argsort argsort_perm L r' Hne Hwf Hr') as (TN' & TW' & _).
    apply (Permutation_in x (band_value_perm argsort argsort_perm _ TN' TW')) in Hx.
    apply filter_In in Hx. tauto. }
  assert (ET : filter (fun p => in_run r (py0 p)) (sy (g O)) = sy (g (band_value argsort T))).
  { rewrite (sort_by_filter argsort argsort_sorted argsort_stable).
    now rewrite Hg2, EO. }
  rewrite ET.
  assert (PT : Permutation (sy (g (band_value argsort T))) T).
  { transitivity (g (band_value argsort T)); [apply sort_by_perm, argsort_perm|].
    transitivity (band_value argsort T); [apply Hg1|exact POr]. }
  unfold band_value at 1 3. rewrite (runs_of_perm 0 _ _ PT).
  destruct (length (runs_of 0 T) =? 1)%nat eqn:E1.
  - (* leaf *)
    unfold band_value. rewrite E1. unfold T.
    rewrite <- Hg2.
    rewrite <- (sort_by_filter argsort argsort_sorted argsort_stable).
    now rewrite HgL.
  - (* columns *)
    apply Nat.eqb_neq in E1. f_equal. apply map_ext_in. intros c Hc.
    destruct (column_facts argsort argsort_perm T c TN TW Hc) as (CN & CW & CL).
    specialize (CL E1).
    set (C := filter (fun p => in_run c (px0 p)) (sx T)) in *.
    destruct (runs_of_spec 0 T TN TW (or_introl eq_refl)) as
      (_ & _ & _ & _ & _ & _ & _ & CHc & _ & _).
    assert (EV : filter (fun p => in_run c (px0 p)) (band_value argsort T)
                 = cut_value argsort C).
    { unfold band_value. apply Nat.eqb_neq in E1. rewrite E1.
      apply (filter_concat_chain px0
               (fun c' => cut_value argsort (filter (fun p => in_run c' (px0 p)) (sx T)))
               _ CHc); [|exact Hc].
      intros c' x Hc' Hx.
      destruct (column_facts argsort argsort_perm T c' TN TW Hc') as (CN' & CW' & _).
      apply (Permutation_in x (cut_value_perm argsort argsort_perm _ CN' CW')) in Hx.
      apply filter_In in Hx. tauto. }
    assert (EC : filter (fun p => in_run c (px0 p)) (sx (sy (g (band_value argsort T))))
                 = sx (sy (g (cut_value argsort C)))).
    { rewrite !(sort_by_filter argsort argsort_sorted argsort_stable).
      now rewrite Hg2, EV. }
    rewrite EC.
    rewrite (cut_value_sorted_input _ (sx (cut_value argsort C))) by apply Hg3.
    apply IH; try assumption; [lia|].
    unfold C. apply StronglySorted_filter.
    apply (sort_by_sorted argsort argsort_sorted).
Qed.

Lemma cut_again_x_sorted (n : nat) :
  forall C : list (Box * nat),
    (length C <= n)%nat -> C <> [] -> Forall well_formed (map fst C) ->
    StronglySorted (fun a b => px0 a <= px0 b) C ->
    cut_value argsort (sx (cut_value argsort C)) = cut_value argsort C.
Proof.
  induction n as [|n IH]; intros C Hlen Hne Hwf Hs.
  { destruct C; [congruence|simpl in Hlen; lia]. }
  apply (cut_again_core sx C); try assumption.
  - intros M. apply sort_by_perm, argsort_perm.
  - intros p M. apply (sort_by_filter argsort argsort_sorted argsort_stable).
  - intros V.
    rewrite (sort_by_alternate argsort argsort_sorted argsort_stable).
    now rewrite (sort_by_idem argsort argsort_sorted argsort_stable).
  - rewrite (sort_by_alternate argsort argsort_sorted argsort_stable).
    now rewrite (sort_by_sorted_id argsort argsort_sorted argsort_stable px0 C Hs).
  - intros C' HneC HwfC HlenC HsC. apply IH; try assumption. lia.
Qed.

Lemma cut_again (L : list (Box * nat)) :
  L <> [] -> Forall well_formed (map fst L) ->
  cut_value argsort (cut_value argsort L) = cut_value argsort L.
Proof.
  intros Hne Hwf. apply (cut_again_core (fun M => M) L); try assumption.
  - intros M. apply Permutation_refl.
  - reflexivity.
  - intros V. apply (sort_by_alternate argsort argsort_sorted argsort_stable).
  - apply (sort_by_idem argsort argsort_sorted argsort_stable).
  - intros C HneC HwfC _ HsC. apply (cut_again_x_sorted (length C)); auto.
Qed.

End Idempotence.

Lemma combine_fst_snd {A B : Type} (l : list (A * B)) :
  combine (map fst l) (map snd l) = l.
Proof.
  induction l as [|[a b] t IH]; simpl; [reflexivity|now rewrite IH].
Qed.

Lemma perm_same_snd {A : Type} (l1 : list (A * nat)) :
  forall l2, Permutation l1 l2 -> map snd l1 = map snd l2 ->
    NoDup (map snd l1) -> l1 = l2.
Proof.
  induction l1 as [|[a i] t1 IH]; intros l2 P E Hnd.
  - apply Permutation_nil in P. now subst.
  - destruct l2 as [|[b j] t2]; [discriminate|].
    cbn [map snd] in E, Hnd. injection E as Ei Et. subst j.
    inversion Hnd as [|? ? Hni Hnd']; subst.
    assert (Hin : In (a, i) ((b, i) :: t2))
      by (apply (Permutation_in _ P); now left).
    assert (Hab : a = b).
    { destruct Hin as [Hin|Hin]; [now injection Hin|].
      exfalso. apply Hni. rewrite Et.
      apply (in_map snd) in Hin. exact Hin. }
    subst b. f_equal. apply IH; try assumption.
    apply (Permutation_cons_inv P).
Qed.

Section SortAgain.

Variable argsort : list Z -> list nat.
Hypothesis argsort_perm : forall ks, Permutation (argsort ks) (seq 0 (length ks)).
Hypothesis argsort_sorted : forall ks, StronglySorted Z.le (take_idx ks (argsort ks)).
Hypothesis argsort_stable : forall ks v,
  filter (fun i => nth i ks 0 =? v) (argsort ks)
  = filter (fun i => nth i ks 0 =? v) (seq 0 (length ks)).

(** Sorting again, for an argsort that returns equal keys in input
    order (numpy's [kind='stable']; the default kind of the calls does
    not promise it).  On N >= 1 well-formed boxes with distinct identifiers, let
    [out] be what the cut appends.  There is exactly one way to reorder
    the boxes so that they are paired with the identifiers in the order
    [out], and the cut run on that reordered input appends [out] again. *)
Lemma recursive_xy_cut_sorted_again (fuel : nat) (boxes : list Box)
  (indices res res' : list nat) :
  boxes <> [] -> Forall well_formed boxes ->
  length boxes = length indices -> NoDup indices ->
  (length boxes <= fuel)%nat ->
  exists out boxes',
    recursive_xy_cut argsort fuel boxes indices res = Ok (res ++ out) /\
    length boxes' = length out /\
    Permutation (combine boxes' out) (combine boxes indices) /\
    (forall boxes'', length boxes'' = length out ->
       Permutation (combine boxes'' out) (combine boxes indices) ->
       boxes'' = boxes') /\
    recursive_xy_cut argsort fuel boxes' out res' = Ok (res' ++ out).
Proof.
  intros Hne Hwf Hlen Hnd Hfuel.
  set (L := combine boxes indices).
  assert (HneL : L <> []).
  { unfold L. destruct boxes, indices; simpl in *; congruence. }
  assert (HwfL : Forall well_formed (map fst L)).
  { unfold L. now rewrite combine_fst. }
  assert (HlenL : length L = length boxes).
  { unfold L. rewrite length_combine. lia. }
  pose proof (cut_value_perm argsort argsort_perm L HneL HwfL) as PO.
  set (O := cut_value argsort L) in *.
  assert (HndO : NoDup (map snd O)).
  { apply (Permutation_NoDup (Permutation_sym (Permutation_map snd PO))).
    unfold L. now rewrite combine_snd. }
  exists (map snd O), (map fst O). split; [|split; [|split; [|split]]].
  - rewrite recursive_xy_cut_pairs by exact Hlen. fold L.
    rewrite (cut_pairs_value argsort argsort_perm fuel L HneL HwfL) by lia.
    reflexivity.
  - now rewrite !length_map.
  - rewrite combine_fst_snd. exact PO.
  - intros boxes'' Hl P.
    assert (E : combine boxes'' (map snd O) = O).
    { apply perm_same_snd.
      - transitivity L; [exact P|now apply Permutation_sym].
      - now rewrite combine_snd.
      - now rewrite combine_snd. }
    rewrite <- E at 1. rewrite combine_fst; [reflexivity|exact Hl].
  - rewrite recursive_xy_cut_pairs by (now rewrite !length_map).
    rewrite combine_fst_snd.
    rewrite (cut_pairs_value argsort argsort_perm fuel O).
    + unfold O at 1.
      rewrite (cut_again argsort argsort_perm argsort_sorted argsort_stable L HneL HwfL).
      reflexivity.
    + apply (nonempty_perm _ _ PO HneL).
    + apply (Forall_map_fst_perm _ _ PO HwfL).
    + rewrite (Permutation_length PO). lia.
Qed.

End SortAgain.

(** The cut on the grid, and again on the grid reordered by its output. *)
Example grid_sorted_twice :
  recursive_xy_cut insertion_argsort 4 grid_boxes [0; 1; 2; 3]%nat []
    = Ok [1; 2; 3; 0]%nat /\
  recursive_xy_cut insertion_argsort 4
    (take_idx grid_boxes [1; 2; 3; 0]%nat) [1; 2; 3; 0]%nat []
    = Ok [1; 2; 3; 0]%nat.
Proof. split; vm_compute; reflexivity. Qed.

(** * Further properties *)

(** ** The profile splitter: bounds, cover, number of runs *)

Lemma split_Some_groups (h : list Z) (mv mg : Q) (starts ends : list Z) :
  split_projection_profile h mv mg = Some (starts, ends) ->
  exists a t,
    active_positions h mv = a :: t /\
    starts = map (hd 0) (groups_of mg a t) /\
    ends = map (fun g => last g 0 + 1) (groups_of mg a t) /\
    combine starts ends = map run_of_group (groups_of mg a t).
Proof.
  intros E. rewrite split_projection_profile_groups in E.
  destruct (active_positions h mv) as [|a t]; [discriminate|].
  injection E as <- <-. exists a, t. repeat split; try reflexivity.
  apply combine_map_same.
Qed.

Lemma active_iff (h : list Z) (mv : Q) (p : Z) :
  In p (active_positions h mv) <-> active h mv p.
Proof. apply active_positions_Qlt. Qed.

(** X1: every run the splitter returns lies inside the histogram and is
    not empty: [0 <= starts[i] < ends[i] <= len(arr_values)], so the pairs
    can be used as slice bounds. *)
Theorem split_runs_within_histogram (h : list Z) (min_value min_gap : Q)
  (starts ends : list Z) :
  split_projection_profile h min_value min_gap = Some (starts, ends) ->
  length starts = length ends /\
  forall r, In r (combine starts ends) ->
    0 <= fst r /\ fst r < snd r /\ snd r <= Z.of_nat (length h).
Proof.
  intros E. destruct (split_Some_groups _ _ _ _ _ E) as (a & t & Ea & Es & Ee & Ec).
  split; [subst starts ends; now rewrite !length_map|].
  intros r Hr. rewrite Ec in Hr.
  pose proof (active_positions_sorted h min_value) as Hs. rewrite Ea in Hs.
  destruct (runs_generic min_gap t a Hs) as (C & _ & Ends).
  destruct (Ends r Hr) as [H1 H2]. rewrite <- Ea in H1, H2.
  apply active_positions_spec in H1, H2.
  pose proof (chain_inv_in _ _ C Hr). lia.
Qed.

Lemma split_runs_within_histogram_witness :
  split_projection_profile [0; 1; 1; 0; 0; 1] 0 1 = Some ([1; 5], [3; 6]) /\
  length [1; 5] = length [3; 6] /\
  forall r, In r (combine [1; 5] [3; 6]) ->
    0 <= fst r /\ fst r < snd r /\ snd r <= Z.of_nat (length [0; 1; 1; 0; 0; 1]).
Proof.
  assert (E : split_projection_profile [0; 1; 1; 0; 0; 1] 0 1 = Some ([1; 5], [3; 6]))
    by (vm_compute; reflexivity).
  split; [exact E|].
  exact (split_runs_within_histogram [0; 1; 1; 0; 0; 1] 0 1 [1; 5] [3; 6] E).
Defined.

(** X2: for any thresholds, every active position lies in exactly one of
    the returned runs, and the first and the last position of every run
    are active. *)
Theorem active_position_in_one_run (h : list Z) (min_value min_gap : Q)
  (starts ends : list Z) :
  split_projection_profile h min_value min_gap = Some (starts, ends) ->
  (forall p, active h min_value p ->
     exists r, In r (combine starts ends) /\ fst r <= p < snd r /\
       forall r', In r' (combine starts ends) -> fst r' <= p < snd r' -> r' = r) /\
  (forall r, In r (combine starts ends) ->
     active h min_value (fst r) /\ active h min_value (snd r - 1)).
Proof.
  intros E. destruct (split_Some_groups _ _ _ _ _ E) as (a & t & Ea & _ & _ & Ec).
  rewrite Ec.
  pose proof (active_positions_sorted h min_value) as Hs. rewrite Ea in Hs.
  destruct (runs_generic min_gap t a Hs) as (C & Cov & Ends). split.
  - intros p Hp. apply active_iff in Hp. rewrite Ea in Hp.
    destruct (Cov p Hp) as (r & Hr & Hin). exists r. split; [exact Hr|].
    split; [now apply in_run_iff|].
    intros r' Hr' Hin'. apply (chain_unique _ r' r p C Hr' Hr); [|exact Hin].
    now apply in_run_iff.
  - intros r Hr. destruct (Ends r Hr) as [H1 H2]. rewrite <- Ea in H1, H2.
    split; now apply active_iff.
Qed.

Lemma active_position_in_one_run_witness :
  split_projection_profile [0; 1; 1; 0; 0; 1] 0 1 = Some ([1; 5], [3; 6]) /\
  (forall p, active [0; 1; 1; 0; 0; 1] 0 p ->
     exists r, In r (combine [1; 5] [3; 6]) /\ fst r <= p < snd r /\
       forall r', In r' (combine [1; 5] [3; 6]) -> fst r' <= p < snd r' -> r' = r) /\
  (forall r, In r (combine [1; 5] [3; 6]) ->
     active [0; 1; 1; 0; 0; 1] 0 (fst r) /\ active [0; 1; 1; 0; 0; 1] 0 (snd r - 1)).
Proof.
  assert (E : split_projection_profile [0; 1; 1; 0; 0; 1] 0 1 = Some ([1; 5], [3; 6]))
    by (vm_compute; reflexivity).
  split; [exact E|].
  exact (active_position_in_one_run [0; 1; 1; 0; 0; 1] 0 1 [1; 5] [3; 6] E).
Defined.

(** X3: with [min_gap] = 1 (the value the cut passes) the runs are exactly
    the maximal intervals of active positions: a position lies in a run
    if and only if it is active, and the positions just before and just
    after a run are not active. *)
Theorem unit_gap_runs_are_maximal_intervals (h : list Z) (min_value : Q)
  (starts ends : list Z) :
  split_projection_profile h min_value 1 = Some (starts, ends) ->
  (forall p, active h min_value p <->
     exists r, In r (combine starts ends) /\ fst r <= p < snd r) /\
  (forall r, In r (combine starts ends) ->
     ~ active h min_value (fst r - 1) /\ ~ active h min_value (snd r)).
Proof.
  intros E. destruct (split_Some_groups _ _ _ _ _ E) as (a & t & Ea & _ & _ & Ec).
  rewrite Ec.
  pose proof (active_positions_sorted h min_value) as Hs. rewrite Ea in Hs.
  destruct (runs_generic 1 t a Hs) as (_ & Cov & _).
  pose proof (runs_gap1 t a Hs) as Gap. split.
  - intros p. split.
    + intros Hp. apply active_iff in Hp. rewrite Ea in Hp.
      destruct (Cov p Hp) as (r & Hr & Hin). exists r.
      split; [exact Hr|now apply in_run_iff].
    + intros (r & Hr & Hin). apply active_iff. rewrite Ea.
      apply (proj1 (Gap r Hr)). exact Hin.
  - intros r Hr. destruct (Gap r Hr) as (_ & G2 & G3). rewrite <- Ea in G2, G3.
    split; intros H; apply active_iff in H; contradiction.
Qed.

Lemma unit_gap_runs_witness :
  split_projection_profile [0; 1; 1; 0; 0; 1] 0 1 = Some ([1; 5], [3; 6]) /\
  (forall p, active [0; 1; 1; 0; 0; 1] 0 p <->
     exists r, In r (combine [1; 5] [3; 6]) /\ fst r <= p < snd r) /\
  (forall r, In r (combine [1; 5] [3; 6]) ->
     ~ active [0; 1; 1; 0; 0; 1] 0 (fst r - 1) /\ ~ active [0; 1; 1; 0; 0; 1] 0 (snd r)).
Proof.
  assert (E : split_projection_profile [0; 1; 1; 0; 0; 1] 0 1 = Some ([1; 5], [3; 6]))
    by (vm_compute; reflexivity).
  split; [exact E|].
  exact (unit_gap_runs_are_maximal_intervals [0; 1; 1; 0; 0; 1] 0 [1; 5] [3; 6] E).
Defined.

Lemma groups_of_length (mg : Q) (t : list Z) (a : Z) :
  length (groups_of mg a t)
  = S (length (filter (fun d => gt_threshold d mg) (steps (a :: t)))).
Proof.
  revert a; induction t as [|p t' IH]; intros a; [reflexivity|].
  cbn [groups_of steps filter]. specialize (IH p).
  destruct (gt_threshold (p - a) mg).
  - cbn [length]. now rewrite IH.
  - destruct (groups_of_head mg t' p) as (g & gs & E). rewrite E in *.
    cbn [length] in *. exact IH.
Qed.

(** X4: the number of runs is one more than the number of steps between
    consecutive active positions that exceed [min_gap]. *)
Theorem split_run_count (h : list Z) (min_value min_gap : Q)
  (starts ends : list Z) :
  split_projection_profile h min_value min_gap = Some (starts, ends) ->
  length starts
  = S (length (filter (fun d => gt_threshold d min_gap)
                 (steps (active_positions h min_value)))) /\
  length ends = length starts.
Proof.
  intros E. destruct (split_Some_groups _ _ _ _ _ E) as (a & t & Ea & Es & Ee & _).
  subst starts ends. rewrite Ea, !length_map. split; [apply groups_of_length|reflexivity].
Qed.

Lemma split_run_count_witness :
  split_projection_profile [0; 1; 1; 0; 0; 1] 0 1 = Some ([1; 5], [3; 6]) /\
  length [1; 5]
  = S (length (filter (fun d => gt_threshold d 1)
                 (steps (active_positions [0; 1; 1; 0; 0; 1] 0)))) /\
  length [3; 6] = length [1; 5].
Proof.
  assert (E : split_projection_profile [0; 1; 1; 0; 0; 1] 0 1 = Some ([1; 5], [3; 6]))
    by (vm_compute; reflexivity).
  split; [exact E|].
  exact (split_run_count [0; 1; 1; 0; 0; 1] 0 1 [1; 5] [3; 6] E).
Defined.

Lemma filter_length_impl {A : Type} (f g : A -> bool) (l : list A) :
  (forall x, f x = true -> g x = true) ->
  (length (filter f l) <= length (filter g l))%nat.
Proof.
  intros H. induction l as [|a t IH]; simpl; [lia|].
  destruct (f a) eqn:Ef.
  - rewrite (H a Ef). simpl. lia.
  - destruct (g a); simpl; lia.
Qed.

(** X5: a larger [min_gap] never gives more runs: on one histogram and one
    [min_value], if [min_gap <= min_gap'] then the split with [min_gap']
    has at most as many runs as the split with [min_gap]. *)
Theorem larger_gap_fewer_runs (h : list Z) (min_value min_gap min_gap' : Q)
  (starts ends starts' ends' : list Z) :
  (min_gap <= min_gap')%Q ->
  split_projection_profile h min_value min_gap = Some (starts, ends) ->
  split_projection_profile h min_value min_gap' = Some (starts', ends') ->
  (length starts' <= length starts)%nat.
Proof.
  intros Hle E E'.
  rewrite (proj1 (split_run_count _ _ _ _ _ E)), (proj1 (split_run_count _ _ _ _ _ E')).
  apply le_n_S, filter_length_impl. intros d Hd.
  apply gt_threshold_true in Hd. apply gt_threshold_true.
  apply (Qle_lt_trans _ _ _ Hle Hd).
Qed.

Lemma larger_gap_fewer_runs_witness :
  (1 <= 3)%Q /\
  split_projection_profile [0; 1; 1; 0; 0; 1] 0 1 = Some ([1; 5], [3; 6]) /\
  split_projection_profile [0; 1; 1; 0; 0; 1] 0 3 = Some ([1], [6]) /\
  (length [1] <= length [1; 5])%nat.
Proof.
  assert (H : (1 <= 3)%Q) by (vm_compute; discriminate).
  assert (E : split_projection_profile [0; 1; 1; 0; 0; 1] 0 1 = Some ([1; 5], [3; 6]))
    by (vm_compute; reflexivity).
  assert (E' : split_projection_profile [0; 1; 1; 0; 0; 1] 0 3 = Some ([1], [6]))
    by (vm_compute; reflexivity).
  split; [exact H|]. split; [exact E|]. split; [exact E'|].
  exact (larger_gap_fewer_runs [0; 1; 1; 0; 0; 1] 0 1 3 [1; 5] [3; 6] [1] [6] H E E').
Defined.

Lemma groups_of_singletons (mg : Q) (t : list Z) (a : Z) :
  (mg < 1)%Q -> StronglySorted Z.lt (a :: t) ->
  groups_of mg a t = map (fun p => [p]) (a :: t).
Proof.
  intros Hmg. revert a; induction t as [|p t' IH]; intros a Hs; [reflexivity|].
  inversion Hs as [|? ? Hs' Ha]; subst. inversion Ha as [|? ? Hap _]; subst.
  cbn [groups_of].
  assert (G : gt_threshold (p - a) mg = true).
  { apply gt_threshold_true. apply (Qlt_le_trans _ 1); [exact Hmg|].
    change 1%Q with (inject_Z 1). rewrite <- Zle_Qle. lia. }
  rewrite G, (IH p Hs'). reflexivity.
Qed.

(** X6: with a [min_gap] below 1 no two active positions are merged: the
    splitter returns every active position [p] as a run [(p, p + 1)] of
    its own ([None] when there is none). *)
Theorem gap_below_one_isolates_positions (h : list Z) (min_value min_gap : Q) :
  (min_gap < 1)%Q ->
  split_projection_profile h min_value min_gap =
  match active_positions h min_value with
  | [] => None
  | act => Some (act, map (fun p => p + 1) act)
  end.
Proof.
  intros Hmg. rewrite split_projection_profile_groups.
  pose proof (active_positions_sorted h min_value) as Hs.
  destruct (active_positions h min_value) as [|a t]; [reflexivity|].
  rewrite (groups_of_singletons min_gap t a Hmg Hs), !map_map.
  cbn [hd last]. now rewrite map_id.
Qed.

Lemma gap_below_one_witness :
  (0 < 1)%Q /\
  split_projection_profile [0; 1; 1; 0; 0; 1] 0 0 =
  match active_positions [0; 1; 1; 0; 0; 1] 0 with
  | [] => None
  | act => Some (act, map (fun p => p + 1) act)
  end.
Proof.
  assert (H : (0 < 1)%Q) by reflexivity.
  split; [exact H|].
  exact (gap_below_one_isolates_positions [0; 1; 1; 0; 0; 1] 0 0 H).
Defined.

Lemma groups_of_one (mg : Q) (t : list Z) (a : Z) :
  (forall d, In d (steps (a :: t)) -> gt_threshold d mg = false) ->
  groups_of mg a t = [a :: t].
Proof.
  revert a; induction t as [|p t' IH]; intros a H; [reflexivity|].
  cbn [groups_of]. rewrite (H (p - a)) by (now left).
  rewrite (IH p); [reflexivity|]. intros d Hd. apply H. now right.
Qed.

Lemma steps_bound (n : Z) (l : list Z) :
  StronglySorted Z.lt l -> (forall p, In p l -> 0 <= p < n) ->
  forall d, In d (steps l) -> d < n.
Proof.
  induction l as [|a t IH]; intros Hs Hb d Hd; [contradiction|].
  destruct t as [|b t']; [contradiction|].
  inversion Hs as [|? ? Hs' Ha]; subst. destruct Hd as [<-|Hd].
  - pose proof (Hb a (or_introl eq_refl)).
    pose proof (Hb b (or_intror (or_introl eq_refl))). lia.
  - apply IH; try assumption. intros p Hp. apply Hb. now right.
Qed.

Lemma groups_of_span (mg : Q) (t : list Z) (a : Z) :
  hd 0 (map (hd 0) (groups_of mg a t)) = a /\
  last (map (fun g => last g 0 + 1) (groups_of mg a t)) 0 = last (a :: t) 0 + 1.
Proof.
  split.
  - destruct (groups_of_head mg t a) as (g & gs & E). now rewrite E.
  - revert a; induction t as [|p t' IH]; intros a; [reflexivity|].
    cbn [groups_of]. specialize (IH p).
    destruct (groups_of_head mg t' p) as (g & gs & E). rewrite E in *.
    change (last (a :: p :: t') 0) with (last (p :: t') 0). rewrite <- IH.
    destruct (gt_threshold (p - a) mg); [reflexivity|].
    destruct gs as [|g2 gs']; reflexivity.
Qed.

(** X7: the runs span the active part of the histogram: the first start
    is the first active position and the last end is the last active
    position plus one; and a [min_gap] of at least the length of the
    histogram merges everything into that single run. *)
Theorem split_runs_span (h : list Z) (min_value min_gap : Q)
  (starts ends : list Z) :
  split_projection_profile h min_value min_gap = Some (starts, ends) ->
  hd 0 starts = hd 0 (active_positions h min_value) /\
  last ends 0 = last (active_positions h min_value) 0 + 1 /\
  ((inject_Z (Z.of_nat (length h)) <= min_gap)%Q ->
   starts = [hd 0 (active_positions h min_value)] /\
   ends = [last (active_positions h min_value) 0 + 1]).
Proof.
  intros E. destruct (split_Some_groups _ _ _ _ _ E) as (a & t & Ea & Es & Ee & _).
  pose proof (active_positions_sorted h min_value) as Hs.
  pose proof (active_positions_spec h min_value) as Hin.
  rewrite Ea in *. subst starts ends.
  destruct (groups_of_span min_gap t a) as [H1 H2].
  split; [exact H1|]. split; [exact H2|].
  intros Hbig. rewrite (groups_of_one min_gap t a); [split; reflexivity|].
  intros d Hd. apply gt_threshold_false.
  apply (Qle_trans _ (inject_Z (Z.of_nat (length h)))); [|exact Hbig].
  rewrite <- Zle_Qle. apply Z.lt_le_incl.
  apply (steps_bound _ (a :: t) Hs); [|exact Hd].
  intros p Hp. apply Hin in Hp. tauto.
Qed.

Lemma split_runs_span_witness :
  split_projection_profile [0; 1; 1; 0; 0; 1] 0 6 = Some ([1], [6]) /\
  hd 0 [1] = hd 0 (active_positions [0; 1; 1; 0; 0; 1] 0) /\
  last [6] 0 = last (active_positions [0; 1; 1; 0; 0; 1] 0) 0 + 1 /\
  ((inject_Z (Z.of_nat (length [0; 1; 1; 0; 0; 1])) <= 6)%Q ->
   [1] = [hd 0 (active_positions [0; 1; 1; 0; 0; 1] 0)] /\
   [6] = [last (active_positions [0; 1; 1; 0; 0; 1] 0) 0 + 1]).
Proof.
  assert (E : split_projection_profile [0; 1; 1; 0; 0; 1] 0 6 = Some ([1], [6]))
    by (vm_compute; reflexivity).
  split; [exact E|].
  exact (split_runs_span [0; 1; 1; 0; 0; 1] 0 6 [1] [6] E).
Defined.

(** ** The projection: outcome, order of the boxes, any coordinates *)

Lemma axis_check (axis : Z) :
  negb ((axis =? 0) || (axis =? 1)) = false <-> axis = 0 \/ axis = 1.
Proof.
  rewrite negb_false_iff, orb_true_iff, !Z.eqb_eq. tauto.
Qed.

(** X8: which way [projection_by_bboxes] ends.  An axis other than 0 and 1
    fails the assertion whatever the boxes; on axis 0 or 1 an empty list
    of boxes and a list whose coordinates on the axis are all negative
    raise ValueError ([np.max] of nothing, [np.zeros] of a negative
    length); with a non-negative coordinate it returns an array. *)
Theorem projection_by_bboxes_outcome (boxes : list Box) (axis : Z) :
  (axis <> 0 /\ axis <> 1 -> projection_by_bboxes boxes axis = Raise AssertionError) /\
  (axis = 0 \/ axis = 1 ->
   (boxes = [] -> projection_by_bboxes boxes axis = Raise ValueError) /\
   (Forall (fun b => fst (axis_slice axis b) < 0 /\ snd (axis_slice axis b) < 0) boxes ->
    projection_by_bboxes boxes axis = Raise ValueError) /\
   (Exists (fun b => 0 <= fst (axis_slice axis b) \/ 0 <= snd (axis_slice axis b)) boxes ->
    exists h, projection_by_bboxes boxes axis = Ok h)).
Proof.
  split.
  - intros [H0 H1]. unfold projection_by_bboxes.
    apply Z.eqb_neq in H0, H1. now rewrite H0, H1.
  - intros Hax. split; [|split].
    + intros ->. unfold projection_by_bboxes.
      rewrite (proj2 (axis_check axis) Hax). reflexivity.
    + intros Hneg. destruct boxes as [|b0 bs].
      { unfold projection_by_bboxes. rewrite (proj2 (axis_check axis) Hax). reflexivity. }
      destruct (projection_by_bboxes_general (b0 :: bs) axis Hax) as (m & Hm & Hraise & _);
        [discriminate|].
      apply Hraise. destruct (np_max_spec _ _ Hm) as [Hin _].
      apply in_flat_map in Hin. destruct Hin as (se & Hse & Hmse).
      apply in_map_iff in Hse. destruct Hse as (b & <- & Hb).
      rewrite Forall_forall in Hneg. specialize (Hneg b Hb).
      destruct Hmse as [H|[H|[]]]; lia.
    + intros Hex. apply Exists_exists in Hex. destruct Hex as (b & Hb & Hpos).
      destruct (projection_by_bboxes_general boxes axis Hax) as (m & Hm & _ & Hok).
      { intros E. rewrite E in Hb. exact Hb. }
      destruct (np_max_spec _ _ Hm) as [_ Hmax].
      destruct Hok as (h & Hh & _); [|now exists h].
      assert (H1 : fst (axis_slice axis b) <= m).
      { apply Hmax, in_flat_map. exists (axis_slice axis b).
        split; [now apply in_map|now left]. }
      assert (H2 : snd (axis_slice axis b) <= m).
      { apply Hmax, in_flat_map. exists (axis_slice axis b).
        split; [now apply in_map|right; now left]. }
      lia.
Qed.

(** X9: the histogram does not depend on the order of the boxes:
    permuting the rows of [boxes] gives the same result, error included. *)
Theorem projection_order_independent (boxes boxes' : list Box) (axis : Z) :
  Permutation boxes boxes' ->
  projection_by_bboxes boxes axis = projection_by_bboxes boxes' axis.
Proof. apply projection_by_bboxes_perm. Qed.

Lemma projection_order_independent_witness :
  Permutation grid_boxes (rev grid_boxes) /\
  projection_by_bboxes grid_boxes 1 = projection_by_bboxes (rev grid_boxes) 1.
Proof.
  assert (P : Permutation grid_boxes (rev grid_boxes)) by apply Permutation_rev.
  split; [exact P|].
  exact (projection_order_independent grid_boxes (rev grid_boxes) 1 P).
Defined.

(** X10: for any boxes at all, when the projection returns an array its
    length is the largest coordinate on the axis (start coordinates
    included), and every entry is the number of boxes whose Python slice
    [res[start:end]] holds the position (a negative bound counts from the
    end, both bounds are clipped to the array); so every entry lies
    between 0 and the number of boxes. *)
Theorem projection_entries_any_boxes (boxes : list Box) (axis : Z) (h : list Z) :
  projection_by_bboxes boxes axis = Ok h ->
  np_max (flat_map (fun se => [fst se; snd se]) (map (axis_slice axis) boxes))
    = Some (Z.of_nat (length h)) /\
  forall i, (i < length h)%nat ->
    nth i h 0 =
    Z.of_nat (length (filter (fun b => in_slice (Z.of_nat (length h)) (axis_slice axis b)
                                         (Z.of_nat i)) boxes)) /\
    0 <= nth i h 0 <= Z.of_nat (length boxes).
Proof.
  intros E.
  assert (Hax : axis = 0 \/ axis = 1).
  { apply axis_check. unfold projection_by_bboxes in E.
    destruct (negb ((axis =? 0) || (axis =? 1))); [discriminate|reflexivity]. }
  assert (Hne : boxes <> []).
  { intros ->. unfold projection_by_bboxes in E.
    rewrite (proj2 (axis_check axis) Hax) in E. discriminate. }
  destruct (projection_by_bboxes_general boxes axis Hax Hne) as (m & Hm & Hraise & Hok).
  destruct (Z_lt_le_dec m 0) as [Hneg|Hpos].
  { rewrite (Hraise Hneg) in E. discriminate. }
  destruct (Hok Hpos) as (h' & Hh' & Hlen & Hnth).
  rewrite Hh' in E. injection E as <-.
  rewrite Hlen, Z2Nat.id by exact Hpos. split; [exact Hm|].
  intros i Hi. rewrite Hnth by (rewrite Hlen; exact Hi).
  split; [reflexivity|].
  pose proof (filter_length_le
                (fun b => in_slice m (axis_slice axis b) (Z.of_nat i)) boxes). lia.
Qed.

Lemma projection_entries_any_boxes_witness :
  projection_by_bboxes [mkBox (-2) 0 4 3; mkBox 1 0 1 2] 0 = Ok [0; 0; 1; 1] /\
  np_max (flat_map (fun se => [fst se; snd se])
            (map (axis_slice 0) [mkBox (-2) 0 4 3; mkBox 1 0 1 2]))
    = Some (Z.of_nat (length [0; 0; 1; 1])) /\
  forall i, (i < length [0; 0; 1; 1])%nat ->
    nth i [0; 0; 1; 1] 0 =
    Z.of_nat (length (filter (fun b => in_slice (Z.of_nat (length [0; 0; 1; 1]))
                                         (axis_slice 0 b) (Z.of_nat i))
                        [mkBox (-2) 0 4 3; mkBox 1 0 1 2])) /\
    0 <= nth i [0; 0; 1; 1] 0 <= Z.of_nat (length [mkBox (-2) 0 4 3; mkBox 1 0 1 2]).
Proof.
  assert (E : projection_by_bboxes [mkBox (-2) 0 4 3; mkBox 1 0 1 2] 0 = Ok [0; 0; 1; 1])
    by (vm_compute; reflexivity).
  split; [exact E|].
  exact (projection_entries_any_boxes [mkBox (-2) 0 4 3; mkBox 1 0 1 2] 0 [0; 0; 1; 1] E).
Defined.

Lemma in_slice_nonneg (m : Z) (se : Z * Z) (p : Z) :
  0 <= fst se <= m -> 0 <= snd se <= m ->
  in_slice m se p = in_run se p.
Proof.
  intros H1 H2. unfold in_slice, in_run, slice_bound.
  replace (fst se <? 0) with false by (symmetry; apply Z.ltb_ge; lia).
  replace (snd se <? 0) with false by (symmetry; apply Z.ltb_ge; lia).
  rewrite !Z.min_l by lia. reflexivity.
Qed.

(** X11: with non-negative coordinates on the axis, whatever the extents,
    every entry of the histogram is the number of boxes with
    [start <= p < end]; a box whose extent is empty ([end <= start], as
    the box of a vertical or horizontal segment) counts nowhere. *)
Theorem projection_nonnegative_boxes (boxes : list Box) (axis : Z) :
  boxes <> [] ->
  Forall (fun b => 0 <= fst (axis_slice axis b) /\ 0 <= snd (axis_slice axis b)) boxes ->
  axis = 0 \/ axis = 1 ->
  exists h,
    projection_by_bboxes boxes axis = Ok h /\
    forall p, 0 <= p < Z.of_nat (length h) ->
      nth (Z.to_nat p) h 0 = coverage boxes axis p /\
      coverage boxes axis p =
      coverage (filter (fun b => fst (axis_slice axis b) <? snd (axis_slice axis b)) boxes)
        axis p.
Proof.
  intros Hne Hnn Hax.
  destruct (projection_by_bboxes_general boxes axis Hax Hne) as (m & Hm & _ & Hok).
  destruct (np_max_spec _ _ Hm) as [_ Hmax]. rewrite Forall_forall in Hnn.
  assert (Hb : forall b, In b boxes ->
            0 <= fst (axis_slice axis b) <= m /\ 0 <= snd (axis_slice axis b) <= m).
  { intros b Hb. destruct (Hnn b Hb) as [H1 H2].
    assert (fst (axis_slice axis b) <= m).
    { apply Hmax, in_flat_map. exists (axis_slice axis b).
      split; [now apply in_map|now left]. }
    assert (snd (axis_slice axis b) <= m).
    { apply Hmax, in_flat_map. exists (axis_slice axis b).
      split; [now apply in_map|right; now left]. }
    lia. }
  assert (Hpos : 0 <= m).
  { destruct boxes as [|b0 bs]; [congruence|].
    destruct (Hb b0 (or_introl eq_refl)). lia. }
  destruct (Hok Hpos) as (h & Hh & Hlen & Hnth).
  exists h. split; [exact Hh|]. rewrite Hlen, Z2Nat.id by exact Hpos.
  intros p Hp. split.
  - rewrite Hnth by lia. unfold coverage. f_equal. f_equal.
    apply filter_ext_in. intros b Hbb. destruct (Hb b Hbb) as [H1 H2].
    rewrite Z2Nat.id by lia. now apply in_slice_nonneg.
  - unfold coverage. f_equal. f_equal. rewrite filter_filter.
    apply filter_ext. intros b.
    destruct (in_run (axis_slice axis b) p) eqn:E; [|reflexivity].
    apply in_run_iff in E. symmetry. apply Z.ltb_lt. lia.
Qed.

Lemma projection_nonnegative_boxes_witness :
  [mkBox 0 0 10 10; mkBox 20 0 20 10] <> [] /\
  Forall (fun b => 0 <= fst (axis_slice 0 b) /\ 0 <= snd (axis_slice 0 b))
    [mkBox 0 0 10 10; mkBox 20 0 20 10] /\
  (0 = 0 \/ 0 = 1) /\
  exists h,
    projection_by_bboxes [mkBox 0 0 10 10; mkBox 20 0 20 10] 0 = Ok h /\
    forall p, 0 <= p < Z.of_nat (length h) ->
      nth (Z.to_nat p) h 0 = coverage [mkBox 0 0 10 10; mkBox 20 0 20 10] 0 p /\
      coverage [mkBox 0 0 10 10; mkBox 20 0 20 10] 0 p =
      coverage (filter (fun b => fst (axis_slice 0 b) <? snd (axis_slice 0 b))
                  [mkBox 0 0 10 10; mkBox 20 0 20 10]) 0 p.
Proof.
  assert (H1 : [mkBox 0 0 10 10; mkBox 20 0 20 10] <> []) by discriminate.
  assert (H2 : Forall (fun b => 0 <= fst (axis_slice 0 b) /\ 0 <= snd (axis_slice 0 b))
                 [mkBox 0 0 10 10; mkBox 20 0 20 10]).
  { repeat constructor; simpl; lia. }
  split; [exact H1|]. split; [exact H2|]. split; [now left|].
  exact (projection_nonnegative_boxes [mkBox 0 0 10 10; mkBox 20 0 20 10] 0
           H1 H2 (or_introl eq_refl)).
Defined.

Lemma total_incr_from (lo hi : Z) (res : list Z) (p : Z) :
  total (incr_from p lo hi res)
  = total res
    + Z.max 0 (Z.min hi (p + Z.of_nat (length res)) - Z.max lo p).
Proof.
  revert p; induction res as [|v t IH]; intros p.
  - cbn [incr_from total fold_right length]. lia.
  - cbn [incr_from]. unfold total in *. cbn [fold_right length]. rewrite IH.
    destruct (lo <=? p) eqn:E1; destruct (p <? hi) eqn:E2; cbn [andb];
      try apply Z.leb_le in E1; try apply Z.leb_gt in E1;
      try apply Z.ltb_lt in E2; try apply Z.ltb_ge in E2; lia.
Qed.

Lemma total_repeat_0 (n : nat) : total (repeat 0 n) = 0.
Proof. induction n as [|n IH]; [reflexivity|]. unfold total in *. simpl. lia. Qed.

Lemma total_fold_slice_incr (cols : list (Z * Z)) (res : list Z) :
  (forall se, In se cols -> 0 <= fst se < snd se /\ snd se <= Z.of_nat (length res)) ->
  total (fold_left (fun res se => slice_incr res (fst se) (snd se)) cols res)
  = total res + total (map (fun se => snd se - fst se) cols).
Proof.
  revert res; induction cols as [|c cs IH]; intros res H.
  - unfold total. simpl. lia.
  - cbn [fold_left map]. rewrite IH.
    + unfold slice_incr. rewrite total_incr_from.
      destruct (H c (or_introl eq_refl)) as [H1 H2].
      unfold slice_bound.
      replace (fst c <? 0) with false by (symmetry; apply Z.ltb_ge; lia).
      replace (snd c <? 0) with false by (symmetry; apply Z.ltb_ge; lia).
      unfold total. cbn [fold_right]. lia.
    + intros se Hse. rewrite slice_incr_length. apply H. now right.
Qed.

(** X12: on well-formed boxes the entries of the histogram add up to the
    sum of the extents [end - start] of the boxes on the axis. *)
Theorem projection_total_is_sum_of_extents (boxes : list Box) (axis : Z) :
  boxes <> [] -> Forall well_formed boxes -> axis = 0 \/ axis = 1 ->
  exists h,
    projection_by_bboxes boxes axis = Ok h /\
    total h = total (map (fun b => snd (axis_slice axis b) - fst (axis_slice axis b)) boxes).
Proof.
  intros Hne Hwf Hax.
  destruct (projection_by_bboxes_well_formed boxes axis Hne Hwf Hax)
    as (h & m & Hm & Hh & Hlen & Hle & _).
  exists h. split; [exact Hh|].
  unfold projection_by_bboxes in Hh.
  rewrite (proj2 (axis_check axis) Hax), Hm in Hh.
  destruct (m <? 0) eqn:Em; [discriminate|]. injection Hh as <-.
  rewrite total_fold_slice_incr.
  - rewrite total_repeat_0, map_map. reflexivity.
  - intros se Hse. apply in_map_iff in Hse. destruct Hse as (b & <- & Hb).
    rewrite Forall_forall in Hwf, Hle. rewrite repeat_length.
    apply Z.ltb_ge in Em. rewrite Z2Nat.id by exact Em.
    split; [apply axis_slice_well_formed, Hwf, Hb|apply (Hle b Hb)].
Qed.

Lemma projection_total_witness :
  grid_boxes <> [] /\ Forall well_formed grid_boxes /\ (1 = 0 \/ 1 = 1) /\
  exists h,
    projection_by_bboxes grid_boxes 1 = Ok h /\
    total h = total (map (fun b => snd (axis_slice 1 b) - fst (axis_slice 1 b)) grid_boxes).
Proof.
  split; [exact grid_boxes_nonempty|]. split; [exact grid_boxes_well_formed|].
  split; [now right|].
  exact (projection_total_is_sum_of_extents grid_boxes 1 grid_boxes_nonempty
           grid_boxes_well_formed (or_intror eq_refl)).
Defined.

(** ** The cut: violated preconditions, the output list, the identifiers *)

Lemma take_idx_nil_l {A : Type} (idx : list nat) : take_idx (@nil A) idx = [].
Proof.
  unfold take_idx. induction idx as [|i t IH]; [reflexivity|].
  cbn [flat_map]. rewrite IH. now destruct i.
Qed.

(** X13: the two ways the cut fails on its preconditions, for any argsort
    and any call depth of at least one: arrays of different lengths fail
    the assertion, and no box at all (with no identifier) raises
    ValueError in the first projection. *)
Theorem recursive_xy_cut_precondition_errors (argsort : list Z -> list nat)
  (fuel : nat) (boxes : list Box) (indices res : list nat) :
  (length boxes <> length indices ->
   recursive_xy_cut argsort (S fuel) boxes indices res = Raise AssertionError) /\
  recursive_xy_cut argsort (S fuel) [] [] res = Raise ValueError.
Proof.
  split.
  - apply recursive_xy_cut_assert.
  - cbn [recursive_xy_cut length Nat.eqb negb]. cbv zeta.
    now rewrite take_idx_nil_l.
Qed.

Lemma compress_map {A B : Type} (f : A -> B) (m : list bool) (l : list A) :
  compress m (map f l) = map f (compress m l).
Proof.
  revert l; induction m as [|c m IH]; intros [|a l]; simpl; try reflexivity.
  destruct c; simpl; now rewrite IH.
Qed.

Lemma for_each_map_result {A S S' : Type} (g : S -> S')
  (body : A -> S -> result S) (body' : A -> S' -> result S') (l : list A) :
  (forall a s, In a l -> body' a (g s) = map_result g (body a s)) ->
  forall s, for_each body' l (g s) = map_result g (for_each body l s).
Proof.
  induction l as [|a t IH]; intros H s; [reflexivity|].
  cbn [for_each]. rewrite H by now left.
  destruct (body a s) as [s1|e]; cbn [map_result bind]; [|reflexivity].
  apply IH. intros; apply H; now right.
Qed.

Section Identifiers.

Variable argsort : list Z -> list nat.
Variable relabel : nat -> nat.

Lemma cut_band_relabel
  (rec rec' : list Box -> list nat -> list nat -> result (list nat))
  (ys_boxes : list Box) (ys_idx : list nat) (r : Z * Z) (res : list nat) :
  (forall bs ids res',
     rec' bs (map relabel ids) (map relabel res')
     = map_result (map relabel) (rec bs ids res')) ->
  cut_band argsort rec' ys_boxes (map relabel ys_idx) r (map relabel res)
  = map_result (map relabel) (cut_band argsort rec ys_boxes ys_idx r res).
Proof.
  intros Hrec. unfold cut_band. cbv zeta.
  rewrite compress_map, take_idx_map.
  destruct (projection_by_bboxes _ 0) as [xp|e]; cbn [bind map_result]; [|reflexivity].
  destruct (split_projection_profile xp 0 1) as [[c0 c1]|]; [|reflexivity].
  destruct (length c0 =? 1)%nat.
  - cbn [map_result]. now rewrite map_app.
  - apply for_each_map_result. intros c s _. unfold cut_column. cbv zeta.
    rewrite compress_map. apply Hrec.
Qed.

(** X14: the cut never looks at the identifiers.  For any argsort, any
    boxes and any relabelling of the identifiers, the call on the
    relabelled identifiers (and output list) returns the relabelled
    result of the call on the original ones, and fails the same way. *)
Theorem recursive_xy_cut_relabel (fuel : nat) :
  forall (boxes : list Box) (indices res : list nat),
    recursive_xy_cut argsort fuel boxes (map relabel indices) (map relabel res)
    = map_result (map relabel) (recursive_xy_cut argsort fuel boxes indices res).
Proof.
  induction fuel as [|fuel IH]; intros boxes indices res; [reflexivity|].
  cbn [recursive_xy_cut]. rewrite length_map.
  destruct (negb (length boxes =? length indices)%nat); [reflexivity|].
  cbv zeta. rewrite take_idx_map.
  destruct (projection_by_bboxes _ 1) as [yp|e]; cbn [bind map_result]; [|reflexivity].
  destruct (split_projection_profile yp 0 1) as [[r0 r1]|]; [|reflexivity].
  apply for_each_map_result. intros r s _.
  apply cut_band_relabel. intros bs ids res'. apply IH.
Qed.

End Identifiers.

(** X15: the output list is only extended, and what is appended does not
    depend on what it already holds: a call with output list [res]
    returns [res] followed by the result of the same call with an empty
    output list, and fails when that call fails. *)
Theorem recursive_xy_cut_extends_res (argsort : list Z -> list nat) (fuel : nat)
  (boxes : list Box) (indices res : list nat) :
  recursive_xy_cut argsort fuel boxes indices res
  = map_result (fun out => res ++ out) (recursive_xy_cut argsort fuel boxes indices []).
Proof.
  destruct (Nat.eq_dec (length boxes) (length indices)) as [Hlen|Hlen].
  - rewrite !recursive_xy_cut_pairs by exact Hlen.
    destruct (cut_pairs argsort fuel (combine boxes indices)); reflexivity.
  - destruct fuel; [reflexivity|].
    now rewrite !recursive_xy_cut_assert by exact Hlen.
Qed.

(** ** Reading order: top to bottom, left to right *)

Lemma precedes_map {A B : Type} (f : A -> B) (x y : A) (l : list A) :
  precedes x y l -> precedes (f x) (f y) (map f l).
Proof.
  intros (l1 & l2 & l3 & ->). exists (map f l1), (map f l2), (map f l3).
  now rewrite map_app, map_cons, map_app, map_cons.
Qed.

Lemma precedes_app {A : Type} (x y : A) (pre l post : list A) :
  precedes x y l -> precedes x y (pre ++ l ++ post).
Proof.
  intros (l1 & l2 & l3 & ->). exists (pre ++ l1), l2, (l3 ++ post).
  repeat (rewrite <- app_assoc; cbn [app]). reflexivity.
Qed.

Lemma precedes_concat_one {A : Type} (O : Z * Z -> list A) (R : list (Z * Z))
  (r : Z * Z) (x y : A) :
  In r R -> precedes x y (O r) -> precedes x y (concat (map O R)).
Proof.
  intros Hr H. apply in_split in Hr. destruct Hr as (R1 & R2 & ->).
  rewrite map_app, concat_app. cbn [map concat]. now apply precedes_app.
Qed.

Lemma precedes_concat_two {A : Type} (O : Z * Z -> list A)
  (R1 R2 R3 : list (Z * Z)) (r r' : Z * Z) (x y : A) :
  In x (O r) -> In y (O r') ->
  precedes x y (concat (map O (R1 ++ r :: R2 ++ r' :: R3))).
Proof.
  intros Hx Hy. apply in_split in Hx, Hy.
  destruct Hx as (u & v & Ex). destruct Hy as (u' & v' & Ey).
  exists (concat (map O R1) ++ u), (v ++ concat (map O R2) ++ u'),
         (v' ++ concat (map O R3)).
  rewrite map_app, concat_app. cbn [map concat].
  rewrite map_app, concat_app. cbn [map concat]. rewrite Ex, Ey.
  repeat (rewrite <- app_assoc; cbn [app]). reflexivity.
Qed.

Lemma chain_split (R : list (Z * Z)) (r r' : Z * Z) :
  chain R -> In r R -> In r' R -> snd r <= fst r' ->
  exists R1 R2 R3, R = R1 ++ r :: R2 ++ r' :: R3.
Proof.
  induction R as [|r1 rs IH]; intros C Hr Hr' Hle; [contradiction|].
  destruct (chain_inv _ _ C) as (C1 & C2 & C3).
  destruct Hr as [<-|Hr].
  - destruct Hr' as [<-|Hr']; [lia|].
    apply in_split in Hr'. destruct Hr' as (A & B & ->).
    now exists [], A, B.
  - destruct Hr' as [<-|Hr'].
    + specialize (C3 _ Hr). lia.
    + destruct (IH C2 Hr Hr' Hle) as (R1 & R2 & R3 & ->).
      now exists (r1 :: R1), R2, R3.
Qed.

Lemma chain_two_runs (R : list (Z * Z)) (r r' : Z * Z) (v v' : Z) :
  chain R -> In r R -> In r' R ->
  in_run r v = true -> in_run r' v' = true -> v < v' ->
  r = r' \/ snd r <= fst r'.
Proof.
  induction R as [|r1 rs IH]; intros C Hr Hr' Hv Hv' Hlt; [contradiction|].
  destruct (chain_inv _ _ C) as (C1 & C2 & C3).
  apply in_run_iff in Hv, Hv'.
  destruct Hr as [<-|Hr], Hr' as [<-|Hr'].
  - now left.
  - right. apply (C3 _ Hr').
  - specialize (C3 _ Hr). lia.
  - apply IH; try assumption; now apply in_run_iff.
Qed.

(** Every position of a run of well-formed boxes is covered by a box. *)
Lemma run_positions_covered (axis : Z) (L : list (Box * nat)) (r : Z * Z) (v : Z) :
  L <> [] -> Forall well_formed (map fst L) -> axis = 0 \/ axis = 1 ->
  In r (runs_of axis L) -> fst r <= v < snd r ->
  exists p, In p L /\ in_run (axis_slice axis (fst p)) v = true.
Proof.
  intros Hne Hwf Hax Hr Hv.
  assert (Hne' : map fst L <> []) by (destruct L; [congruence|discriminate]).
  destruct (projection_by_bboxes_well_formed (map fst L) axis Hne' Hwf Hax)
    as (h & m & _ & Hh & Hlen & _ & Hcov).
  unfold runs_of in Hr. rewrite Hh in Hr. rewrite profile_runs_groups in Hr.
  pose proof (active_positions_sorted h 0) as Hs.
  pose proof (active_positions_spec h 0 v) as Hin.
  destruct (active_positions h 0) as [|a t]; [contradiction|].
  destruct (runs_gap1 t a Hs r Hr) as (G1 & _ & _).
  apply G1, Hin in Hv. destruct Hv as [Hv1 Hv2].
  apply gt_threshold_0 in Hv2. rewrite Hcov in Hv2 by lia.
  apply coverage_pos in Hv2. destruct Hv2 as (b & Hb & Hcb).
  apply in_map_iff in Hb. destruct Hb as (p & <- & Hp). now exists p.
Qed.

Lemma coverage_zero (boxes : list Box) (axis g : Z) :
  coverage boxes axis g = 0 ->
  forall b, In b boxes -> in_run (axis_slice axis b) g = false.
Proof.
  intros H b Hb. destruct (in_run (axis_slice axis b) g) eqn:E; [|reflexivity].
  assert (Hpos : 0 < coverage boxes axis g) by (apply coverage_pos; now exists b).
  lia.
Qed.

Lemma in_combine_nth_error {A B : Type} (l : list A) (l' : list B) (i : nat)
  (a : A) (b : B) :
  nth_error l i = Some a -> nth_error l' i = Some b -> In (a, b) (combine l l').
Proof.
  intros Ha Hb. apply (nth_error_In _ i). now rewrite nth_error_combine, Ha, Hb.
Qed.

Section ReadingOrder.

Variable argsort : list Z -> list nat.
Hypothesis argsort_perm : forall ks, Permutation (argsort ks) (seq 0 (length ks)).

Lemma in_band_value (L : list (Box * nat)) (r : Z * Z) (p : Box * nat) :
  L <> [] -> Forall well_formed (map fst L) -> In r (runs_of 1 L) ->
  In p L -> in_run r (py0 p) = true ->
  In p (band_value argsort
          (filter (fun x => in_run r (py0 x)) (sort_by argsort py0 L))).
Proof.
  intros Hne Hwf Hr Hp Hin.
  destruct (band_facts argsort argsort_perm L r Hne Hwf Hr) as (TN & TW & _).
  apply (Permutation_in p (Permutation_sym (band_value_perm argsort argsort_perm _ TN TW))).
  apply filter_In. split; [|exact Hin].
  apply (Permutation_in p (Permutation_sym (sort_by_perm argsort argsort_perm py0 L)) Hp).
Qed.

Lemma in_column_value (T : list (Box * nat)) (c : Z * Z) (p : Box * nat) :
  T <> [] -> Forall well_formed (map fst T) -> In c (runs_of 0 T) ->
  In p T -> in_run c (px0 p) = true ->
  In p (cut_value argsort
          (filter (fun x => in_run c (px0 x)) (sort_by argsort px0 T))).
Proof.
  intros Hne Hwf Hc Hp Hin.
  destruct (column_facts argsort argsort_perm T c Hne Hwf Hc) as (CN & CW & _).
  apply (Permutation_in p (Permutation_sym (cut_value_perm argsort argsort_perm _ CN CW))).
  apply filter_In. split; [|exact Hin].
  apply (Permutation_in p (Permutation_sym (sort_by_perm argsort argsort_perm px0 T)) Hp).
Qed.

(** Across an empty row: the pair above comes first. *)
Lemma cut_value_rows (L : list (Box * nat)) (p q : Box * nat) (g : Z) :
  Forall well_formed (map fst L) -> In p L -> In q L ->
  py0 p < g <= py0 q ->
  (forall x, In x L -> in_run (axis_slice 1 (fst x)) g = false) ->
  precedes p q (cut_value argsort L).
Proof.
  intros Hwf Hp Hq Hg Hfree.
  assert (Hne : L <> []) by (intros E; rewrite E in Hp; exact Hp).
  rewrite (cut_value_bands argsort argsort_perm L Hne Hwf).
  destruct (runs_of_spec 1 L Hne Hwf (or_intror eq_refl)) as
    (_ & _ & _ & _ & _ & _ & _ & C & Cov & _).
  destruct (Cov p Hp) as (rp & Hrp & Hinp). destruct (Cov q Hq) as (rq & Hrq & Hinq).
  change (in_run rp (py0 p) = true) in Hinp. change (in_run rq (py0 q) = true) in Hinq.
  destruct (chain_two_runs _ rp rq (py0 p) (py0 q) C Hrp Hrq Hinp Hinq) as [E|Hle]; [lia| |].
  - exfalso. subst rq. apply in_run_iff in Hinp, Hinq.
    destruct (run_positions_covered 1 L rp g Hne Hwf (or_intror eq_refl) Hrp)
      as (x & Hx & Hcov); [lia|].
    rewrite (Hfree x Hx) in Hcov. discriminate.
  - destruct (chain_split _ rp rq C Hrp Hrq Hle) as (R1 & R2 & R3 & E).
    assert (Hp' := in_band_value L rp p Hne Hwf Hrp Hp Hinp).
    assert (Hq' := in_band_value L rq q Hne Hwf Hrq Hq Hinq).
    rewrite E.
    apply (precedes_concat_two
             (fun r => band_value argsort
                         (filter (fun x => in_run r (py0 x)) (sort_by argsort py0 L))));
      assumption.
Qed.

(** Across an empty column inside one band: the pair on the left comes
    first. *)
Lemma band_value_columns (T : list (Box * nat)) (p q : Box * nat) (g : Z) :
  Forall well_formed (map fst T) -> In p T -> In q T ->
  px0 p < g <= px0 q ->
  (forall x, In x T -> in_run (axis_slice 0 (fst x)) g = false) ->
  precedes p q (band_value argsort T).
Proof.
  intros Hwf Hp Hq Hg Hfree.
  assert (Hne : T <> []) by (intros E; rewrite E in Hp; exact Hp).
  destruct (runs_of_spec 0 T Hne Hwf (or_introl eq_refl)) as
    (_ & _ & _ & _ & _ & _ & _ & C & Cov & _).
  destruct (Cov p Hp) as (cp & Hcp & Hinp). destruct (Cov q Hq) as (cq & Hcq & Hinq).
  change (in_run cp (px0 p) = true) in Hinp. change (in_run cq (px0 q) = true) in Hinq.
  destruct (chain_two_runs _ cp cq (px0 p) (px0 q) C Hcp Hcq Hinp Hinq) as [E|Hle]; [lia| |].
  - exfalso. subst cq. apply in_run_iff in Hinp, Hinq.
    destruct (run_positions_covered 0 T cp g Hne Hwf (or_introl eq_refl) Hcp)
      as (x & Hx & Hcov); [lia|].
    rewrite (Hfree x Hx) in Hcov. discriminate.
  - destruct (chain_split _ cp cq C Hcp Hcq Hle) as (R1 & R2 & R3 & E).
    assert (Hp' := in_column_value T cp p Hne Hwf Hcp Hp Hinp).
    assert (Hq' := in_column_value T cq q Hne Hwf Hcq Hq Hinq).
    unfold band_value.
    assert (E1 : (length (runs_of 0 T) =? 1)%nat = false).
    { apply Nat.eqb_neq. rewrite E, length_app. cbn [length].
      rewrite length_app. cbn [length]. lia. }
    rewrite E1. revert Hp' Hq'. rewrite E. intros Hp' Hq'.
    apply (precedes_concat_two
             (fun c => cut_value argsort
                         (filter (fun x => in_run c (px0 x)) (sort_by argsort px0 T))));
      assumption.
Qed.

Lemma cut_value_columns (L : list (Box * nat)) (p q : Box * nat) (g : Z) :
  Forall well_formed (map fst L) -> In p L -> In q L ->
  vertical_gap (fst p) (fst q) <= 0 ->
  px0 p < g <= px0 q ->
  (forall x, In x L -> in_run (axis_slice 0 (fst x)) g = false) ->
  precedes p q (cut_value argsort L).
Proof.
  intros Hwf Hp Hq Hgap Hg Hfree.
  assert (Hne : L <> []) by (intros E; rewrite E in Hp; exact Hp).
  assert (Hne' : map fst L <> []) by (destruct L; [congruence|discriminate]).
  rewrite (cut_value_bands argsort argsort_perm L Hne Hwf).
  destruct (well_formed_runs (map fst L) 1 Hne' Hwf (or_intror eq_refl)) as
    (h & s & e & H1 & H2 & _ & _ & _ & _ & H7).
  assert (ER : runs_of 1 L = combine s e).
  { unfold runs_of. rewrite H1. apply (split_Some_runs _ _ _ _ _ H2). }
  assert (Hr : exists r, In r (runs_of 1 L) /\
                 in_run r (py0 p) = true /\ in_run r (py0 q) = true).
  { rewrite ER. rewrite Forall_forall in Hwf.
    assert (Wp := Hwf _ (in_map fst _ _ Hp)). assert (Wq := Hwf _ (in_map fst _ _ Hq)).
    destruct Wp as [_ Wp]. destruct Wq as [_ Wq]. unfold vertical_gap in Hgap.
    destruct (Z_le_gt_dec (y0 (fst p)) (y0 (fst q))) as [Hle|Hgt].
    - apply (H7 (fst p) (fst q)); [now apply in_map|now apply in_map|cbn; lia].
    - destruct (H7 (fst q) (fst p)) as (r & Hr & R1 & R2);
        [now apply in_map|now apply in_map|cbn; lia|].
      exists r. tauto. }
  destruct Hr as (r & Hr & Rp & Rq).
  destruct (band_facts argsort argsort_perm L r Hne Hwf Hr) as (TN & TW & _).
  pose proof (sort_by_perm argsort argsort_perm py0 L) as PS.
  apply (precedes_concat_one
           (fun r => band_value argsort
                       (filter (fun x => in_run r (py0 x)) (sort_by argsort py0 L)))
           _ r); [exact Hr|].
  apply (band_value_columns _ p q g); try assumption.
  - apply filter_In. split; [apply (Permutation_in p (Permutation_sym PS) Hp)|exact Rp].
  - apply filter_In. split; [apply (Permutation_in q (Permutation_sym PS) Hq)|exact Rq].
  - intros x Hx. apply filter_In in Hx. apply Hfree.
    apply (Permutation_in x PS). tauto.
Qed.

Lemma recursive_xy_cut_value (fuel : nat) (boxes : list Box) (indices res : list nat) :
  boxes <> [] -> Forall well_formed boxes ->
  length boxes = length indices -> (length boxes <= fuel)%nat ->
  recursive_xy_cut argsort fuel boxes indices res
  = Ok (res ++ map snd (cut_value argsort (combine boxes indices))).
Proof.
  intros Hne Hwf Hlen Hfuel. rewrite recursive_xy_cut_pairs by exact Hlen.
  rewrite (cut_pairs_value argsort argsort_perm fuel); [reflexivity| | |].
  - destruct boxes, indices; simpl in *; congruence.
  - now rewrite combine_fst.
  - rewrite length_combine. lia.
Qed.

(** X16: top to bottom.  On well-formed boxes, if a row [g] that no box
    covers lies below the top of box [a] and not below the top of box
    [b], the identifier of [a] is appended before the identifier of
    [b]. *)
Theorem box_above_empty_row_comes_first (fuel : nat) (boxes : list Box)
  (indices res : list nat) (i j : nat) (a b : Box) (ia ib : nat) (g : Z) :
  Forall well_formed boxes ->
  length boxes = length indices -> (length boxes <= fuel)%nat ->
  nth_error boxes i = Some a -> nth_error indices i = Some ia ->
  nth_error boxes j = Some b -> nth_error indices j = Some ib ->
  y0 a < g <= y0 b -> coverage boxes 1 g = 0 ->
  exists out,
    recursive_xy_cut argsort fuel boxes indices res = Ok (res ++ out) /\
    precedes ia ib out.
Proof.
  intros Hwf Hlen Hfuel Ha Hia Hb Hib Hg Hcov.
  assert (Hne : boxes <> []) by (intros E; rewrite E in Ha; destruct i; discriminate).
  exists (map snd (cut_value argsort (combine boxes indices))).
  split; [now apply recursive_xy_cut_value|].
  apply (precedes_map snd (a, ia) (b, ib)).
  apply (cut_value_rows _ (a, ia) (b, ib) g).
  - now rewrite combine_fst.
  - now apply (in_combine_nth_error _ _ i).
  - now apply (in_combine_nth_error _ _ j).
  - exact Hg.
  - intros [x ix] Hx. apply (coverage_zero boxes 1 g Hcov).
    apply (in_combine_l _ _ _ _ Hx).
Qed.

(** X17: left to right.  On well-formed boxes, if the vertical extents of
    boxes [a] and [b] touch or overlap and a column [g] that no box
    covers lies right of the left edge of [a] and not right of the left
    edge of [b], the identifier of [a] is appended before the identifier
    of [b]. *)
Theorem box_left_of_empty_column_comes_first (fuel : nat) (boxes : list Box)
  (indices res : list nat) (i j : nat) (a b : Box) (ia ib : nat) (g : Z) :
  Forall well_formed boxes ->
  length boxes = length indices -> (length boxes <= fuel)%nat ->
  nth_error boxes i = Some a -> nth_error indices i = Some ia ->
  nth_error boxes j = Some b -> nth_error indices j = Some ib ->
  vertical_gap a b <= 0 ->
  x0 a < g <= x0 b -> coverage boxes 0 g = 0 ->
  exists out,
    recursive_xy_cut argsort fuel boxes indices res = Ok (res ++ out) /\
    precedes ia ib out.
Proof.
  intros Hwf Hlen Hfuel Ha Hia Hb Hib Hgap Hg Hcov.
  assert (Hne : boxes <> []) by (intros E; rewrite E in Ha; destruct i; discriminate).
  exists (map snd (cut_value argsort (combine boxes indices))).
  split; [now apply recursive_xy_cut_value|].
  apply (precedes_map snd (a, ia) (b, ib)).
  apply (cut_value_columns _ (a, ia) (b, ib) g).
  - now rewrite combine_fst.
  - now apply (in_combine_nth_error _ _ i).
  - now apply (in_combine_nth_error _ _ j).
  - exact Hgap.
  - exact Hg.
  - intros [x ix] Hx. apply (coverage_zero boxes 0 g Hcov).
    apply (in_combine_l _ _ _ _ Hx).
Qed.

End ReadingOrder.

Lemma box_above_empty_row_witness :
  (forall ks, Permutation (insertion_argsort ks) (seq 0 (length ks))) /\
  Forall well_formed grid_boxes /\
  length grid_boxes = length (seq 0 4) /\ (length grid_boxes <= 4)%nat /\
  nth_error grid_boxes 1 = Some (mkBox 0 0 5 10) /\
  nth_error (seq 0 4) 1 = Some 1%nat /\
  nth_error grid_boxes 0 = Some (mkBox 10 20 15 30) /\
  nth_error (seq 0 4) 0 = Some 0%nat /\
  y0 (mkBox 0 0 5 10) < 15 <= y0 (mkBox 10 20 15 30) /\
  coverage grid_boxes 1 15 = 0 /\
  exists out,
    recursive_xy_cut insertion_argsort 4 grid_boxes (seq 0 4) [] = Ok ([] ++ out) /\
    precedes 1%nat 0%nat out.
Proof.
  assert (H4 : (length grid_boxes <= 4)%nat) by (simpl; lia).
  assert (Hg : y0 (mkBox 0 0 5 10) < 15 <= y0 (mkBox 10 20 15 30)) by (simpl; lia).
  assert (Hc : coverage grid_boxes 1 15 = 0) by reflexivity.
  split; [exact insertion_argsort_perm|]. split; [exact grid_boxes_well_formed|].
  split; [reflexivity|]. split; [exact H4|]. repeat (split; [reflexivity|]).
  split; [exact Hg|]. split; [exact Hc|].
  exact (box_above_empty_row_comes_first insertion_argsort insertion_argsort_perm
           4 grid_boxes (seq 0 4) [] 1 0 (mkBox 0 0 5 10) (mkBox 10 20 15 30) 1 0 15
           grid_boxes_well_formed eq_refl H4 eq_refl eq_refl eq_refl eq_refl Hg Hc).
Defined.

Lemma box_left_of_empty_column_witness :
  (forall ks, Permutation (insertion_argsort ks) (seq 0 (length ks))) /\
  Forall well_formed grid_boxes /\
  length grid_boxes = length (seq 0 4) /\ (length grid_boxes <= 4)%nat /\
  nth_error grid_boxes 1 = Some (mkBox 0 0 5 10) /\
  nth_error (seq 0 4) 1 = Some 1%nat /\
  nth_error grid_boxes 2 = Some (mkBox 10 0 15 10) /\
  nth_error (seq 0 4) 2 = Some 2%nat /\
  vertical_gap (mkBox 0 0 5 10) (mkBox 10 0 15 10) <= 0 /\
  x0 (mkBox 0 0 5 10) < 7 <= x0 (mkBox 10 0 15 10) /\
  coverage grid_boxes 0 7 = 0 /\
  exists out,
    recursive_xy_cut insertion_argsort 4 grid_boxes (seq 0 4) [] = Ok ([] ++ out) /\
    precedes 1%nat 2%nat out.
Proof.
  assert (H4 : (length grid_boxes <= 4)%nat) by (simpl; lia).
  assert (Hv : vertical_gap (mkBox 0 0 5 10) (mkBox 10 0 15 10) <= 0)
    by (vm_compute; discriminate).
  assert (Hg : x0 (mkBox 0 0 5 10) < 7 <= x0 (mkBox 10 0 15 10)) by (simpl; lia).
  assert (Hc : coverage grid_boxes 0 7 = 0) by reflexivity.
  split; [exact insertion_argsort_perm|]. split; [exact grid_boxes_well_formed|].
  split; [reflexivity|]. split; [exact H4|]. repeat (split; [reflexivity|]).
  split; [exact Hv|]. split; [exact Hg|]. split; [exact Hc|].
  exact (box_left_of_empty_column_comes_first insertion_argsort insertion_argsort_perm
           4 grid_boxes (seq 0 4) [] 1 2 (mkBox 0 0 5 10) (mkBox 10 0 15 10) 1 2 7
           grid_boxes_well_formed eq_refl H4 eq_refl eq_refl eq_refl eq_refl Hv Hg Hc).
Defined.

(** ** Inputs without equal keys *)

Lemma NoDup_map_filter {A B : Type} (key : A -> B) (f : A -> bool) (l : list A) :
  NoDup (map key l) -> NoDup (map key (filter f l)).
Proof.
  induction l as [|a t IH]; intros H; [constructor|].
  cbn [map] in H. inversion H as [|? ? Hn Hd]; subst. cbn [filter].
  destruct (f a); [|now apply IH]. cbn [map]. constructor; [|now apply IH].
  intros Hin. apply Hn. apply in_map_iff in Hin. destruct Hin as (x & Ex & Hx).
  apply filter_In in Hx. apply in_map_iff. exists x. tauto.
Qed.

Lemma filter_key_at_most_one {A : Type} (key : A -> Z) (v : Z) (l : list A) :
  NoDup (map key l) ->
  (length (filter (fun a => (key a =? v)%Z) l) <= 1)%nat.
Proof.
  induction l as [|a t IH]; intros H; [simpl; lia|].
  cbn [map] in H. inversion H as [|? ? Hn Hd]; subst. cbn [filter].
  destruct (key a =? v) eqn:E; [|now apply IH].
  apply Z.eqb_eq in E. cbn [length].
  destruct (filter (fun x => key x =? v) t) as [|b u] eqn:Ef; [simpl; lia|].
  exfalso. apply Hn.
  assert (Hb : In b (filter (fun x => key x =? v) t)) by (rewrite Ef; now left).
  apply filter_In in Hb. destruct Hb as [Hb Hk]. apply Z.eqb_eq in Hk.
  apply in_map_iff. exists b. split; [congruence|exact Hb].
Qed.

(** Two lists sorted by a key without repetition that hold the same
    members are equal. *)
Lemma sorted_perm_unique {A : Type} (key : A -> Z) (l1 l2 : list A) :
  StronglySorted (fun a b => key a <= key b) l1 ->
  StronglySorted (fun a b => key a <= key b) l2 ->
  Permutation l1 l2 -> NoDup (map key l1) -> l1 = l2.
Proof.
  intros S1 S2 P Hnd. apply (sorted_classes_unique key); try assumption.
  intros v. pose proof (filter_key_at_most_one key v l1 Hnd) as Hlen.
  pose proof (filter_perm (fun a => key a =? v) _ _ P) as Pf.
  destruct (filter (fun a => key a =? v) l1) as [|x [|y u]].
  - apply Permutation_nil in Pf. now symmetry.
  - apply Permutation_length_1_inv in Pf. now symmetry.
  - simpl in Hlen. lia.
Qed.

Lemma concat_each_ext {A B : Type} (body body' : A -> result (list B)) (l : list A) :
  (forall a, In a l -> body a = body' a) ->
  concat_each body l = concat_each body' l.
Proof.
  induction l as [|a t IH]; intros H; [reflexivity|].
  cbn [concat_each]. rewrite (H a) by now left.
  rewrite IH by (intros; apply H; now right). reflexivity.
Qed.

Section TieFree.

Variables argsort1 argsort2 : list Z -> list nat.
Hypothesis argsort1_perm : forall ks, Permutation (argsort1 ks) (seq 0 (length ks)).
Hypothesis argsort1_sorted : forall ks, StronglySorted Z.le (take_idx ks (argsort1 ks)).
Hypothesis argsort2_perm : forall ks, Permutation (argsort2 ks) (seq 0 (length ks)).
Hypothesis argsort2_sorted : forall ks, StronglySorted Z.le (take_idx ks (argsort2 ks)).

Lemma sort_by_tie_free {A : Type} (key : A -> Z) (L L' : list A) :
  Permutation L L' -> NoDup (map key L) ->
  sort_by argsort1 key L = sort_by argsort2 key L'.
Proof.
  intros P Hnd.
  pose proof (sort_by_perm argsort1 argsort1_perm key L) as P1.
  pose proof (sort_by_perm argsort2 argsort2_perm key L') as P2.
  apply (sorted_perm_unique key).
  - apply (sort_by_sorted argsort1 argsort1_sorted).
  - apply (sort_by_sorted argsort2 argsort2_sorted).
  - transitivity L; [exact P1|]. transitivity L'; [exact P|now apply Permutation_sym].
  - apply (Permutation_NoDup (Permutation_sym (Permutation_map key P1)) Hnd).
Qed.

Lemma cut_pairs_tie_free (fuel : nat) :
  forall L L' : list (Box * nat),
    Permutation L L' -> NoDup (map py0 L) -> NoDup (map px0 L) ->
    cut_pairs argsort1 fuel L = cut_pairs argsort2 fuel L'.
Proof.
  induction fuel as [|fuel IH]; intros L L' P Hy Hx; [reflexivity|].
  cbn [cut_pairs]. cbv zeta.
  rewrite <- (sort_by_tie_free py0 L L' P Hy).
  pose proof (sort_by_perm argsort1 argsort1_perm py0 L) as PS.
  set (S := sort_by argsort1 py0 L) in *.
  assert (HxS : NoDup (map px0 S))
    by apply (Permutation_NoDup (Permutation_sym (Permutation_map px0 PS)) Hx).
  assert (HyS : NoDup (map py0 S))
    by apply (Permutation_NoDup (Permutation_sym (Permutation_map py0 PS)) Hy).
  destruct (projection_by_bboxes (map fst S) 1) as [yp|e]; [|reflexivity].
  cbn [bind]. destruct (split_projection_profile yp 0 1) as [[r0 r1]|]; [|reflexivity].
  apply concat_each_ext. intros r _. unfold band_pairs. cbv zeta.
  set (T := filter (fun p => in_run r (py0 p)) S).
  assert (HxT : NoDup (map px0 T)) by (apply NoDup_map_filter; exact HxS).
  assert (HyT : NoDup (map py0 T)) by (apply NoDup_map_filter; exact HyS).
  rewrite <- (sort_by_tie_free px0 T T (Permutation_refl T) HxT).
  pose proof (sort_by_perm argsort1 argsort1_perm px0 T) as PX.
  set (X := sort_by argsort1 px0 T) in *.
  destruct (projection_by_bboxes (map fst X) 0) as [xp|e]; [|reflexivity].
  cbn [bind]. destruct (split_projection_profile xp 0 1) as [[c0 c1]|]; [|reflexivity].
  destruct (length c0 =? 1)%nat; [reflexivity|].
  apply concat_each_ext. intros c _. unfold column_pairs.
  apply IH; [apply Permutation_refl| |]; apply NoDup_map_filter.
  - apply (Permutation_NoDup (Permutation_sym (Permutation_map py0 PX)) HyT).
  - apply (Permutation_NoDup (Permutation_sym (Permutation_map px0 PX)) HxT).
Qed.

(** X18: when no two boxes share a vertical start coordinate and no two
    share a horizontal start coordinate, the result is fixed by the boxes
    alone: any two argsorts (each returning the positions in ascending
    key order) and any two orders of the same (box, identifier) pairs
    give the same result, or the same error. *)
Theorem tie_free_cut_is_determined (fuel : nat) (boxes boxes' : list Box)
  (indices indices' res : list nat) :
  length boxes = length indices -> length boxes' = length indices' ->
  Permutation (combine boxes indices) (combine boxes' indices') ->
  NoDup (map y0 boxes) -> NoDup (map x0 boxes) ->
  recursive_xy_cut argsort1 fuel boxes indices res
  = recursive_xy_cut argsort2 fuel boxes' indices' res.
Proof.
  intros Hlen Hlen' P Hy Hx.
  rewrite !recursive_xy_cut_pairs by assumption.
  rewrite (cut_pairs_tie_free fuel _ _ P); [reflexivity| |].
  - unfold py0. rewrite <- map_map, combine_fst by exact Hlen. exact Hy.
  - unfold px0. rewrite <- map_map, combine_fst by exact Hlen. exact Hx.
Qed.

End TieFree.

Lemma tie_free_cut_witness :
  let boxes := [mkBox 0 0 5 10; mkBox 10 2 15 12; mkBox 3 20 8 30] in
  let indices := [0; 1; 2]%nat in
  (forall ks, Permutation (insertion_argsort ks) (seq 0 (length ks))) /\
  (forall ks, StronglySorted Z.le (take_idx ks (insertion_argsort ks))) /\
  (forall ks, Permutation (reversing_argsort ks) (seq 0 (length ks))) /\
  (forall ks, StronglySorted Z.le (take_idx ks (reversing_argsort ks))) /\
  length boxes = length indices /\ length (rev boxes) = length (rev indices) /\
  Permutation (combine boxes indices) (combine (rev boxes) (rev indices)) /\
  NoDup (map y0 boxes) /\ NoDup (map x0 boxes) /\
  recursive_xy_cut insertion_argsort 3 boxes indices []
  = recursive_xy_cut reversing_argsort 3 (rev boxes) (rev indices) [].
Proof.
  cbv zeta.
  set (boxes := [mkBox 0 0 5 10; mkBox 10 2 15 12; mkBox 3 20 8 30]).
  set (indices := [0; 1; 2]%nat).
  assert (P : Permutation (combine boxes indices) (combine (rev boxes) (rev indices))).
  { change (combine (rev boxes) (rev indices)) with (rev (combine boxes indices)).
    apply Permutation_rev. }
  assert (Hy : NoDup (map y0 boxes)).
  { repeat constructor; simpl; intuition discriminate. }
  assert (Hx : NoDup (map x0 boxes)).
  { repeat constructor; simpl; intuition discriminate. }
  split; [exact insertion_argsort_perm|]. split; [exact insertion_argsort_sorted|].
  split; [exact reversing_argsort_perm|]. split; [exact reversing_argsort_sorted|].
  split; [reflexivity|]. split; [reflexivity|]. split; [exact P|].
  split; [exact Hy|]. split; [exact Hx|].
  exact (tie_free_cut_is_determined insertion_argsort reversing_argsort
           insertion_argsort_perm insertion_argsort_sorted
           reversing_argsort_perm reversing_argsort_sorted
           3 boxes (rev boxes) indices (rev indices) [] eq_refl eq_refl P Hy Hx).
Defined.

(** ** Sorting again *)

Lemma Box_eq_dec (a b : Box) : {a = b} + {a <> b}.
Proof. decide equality; apply Z.eq_dec. Qed.

Lemma pair_eq_dec (p q : Box * nat) : {p = q} + {p <> q}.
Proof. decide equality; [apply Nat.eq_dec|apply Box_eq_dec]. Qed.

Lemma NoDup_map_inj_on {A B : Type} (f : A -> B) (l : list A) :
  NoDup l -> (forall x y, In x l -> In y l -> f x = f y -> x = y) ->
  NoDup (map f l).
Proof.
  induction 1 as [|a t Hn Hd IH]; intros Hinj; [constructor|].
  cbn [map]. constructor.
  - intros Hin. apply in_map_iff in Hin. destruct Hin as (x & Ex & Hx).
    apply Hn. rewrite <- (Hinj x a); [exact Hx|now right|now left|exact Ex].
  - apply IH. intros x y Hx Hy. apply Hinj; now right.
Qed.

Lemma ties_apart_incl (L M : list (Box * nat)) :
  incl M L -> ties_apart L -> ties_apart M.
Proof.
  intros Hi H p q Hp Hq Hne Hy.
  destruct (H p q (Hi _ Hp) (Hi _ Hq) Hne Hy) as (g & Hg & Hfree).
  exists g. split; [exact Hg|]. intros x Hx. apply Hfree, Hi, Hx.
Qed.

Lemma tied_boxes_apart_pairs (boxes : list Box) (indices : list nat) :
  length boxes = length indices -> NoDup indices ->
  tied_boxes_apart boxes -> ties_apart (combine boxes indices).
Proof.
  intros Hlen Hnd H p q Hp Hq Hne Hy.
  apply In_nth_error in Hp, Hq. destruct Hp as (i & Hi). destruct Hq as (j & Hj).
  rewrite nth_error_combine in Hi, Hj.
  destruct (nth_error boxes i) as [a|] eqn:Ea; [|discriminate].
  destruct (nth_error indices i) as [ia|] eqn:Eia; [|discriminate].
  destruct (nth_error boxes j) as [b|] eqn:Eb; [|discriminate].
  destruct (nth_error indices j) as [ib|] eqn:Eib; [|discriminate].
  injection Hi as <-. injection Hj as <-.
  assert (Hij : i <> j) by (intros ->; congruence).
  destruct (H i j a b Ea Eb Hij Hy) as (g & Hg & Hcov).
  exists g. split; [exact Hg|]. intros x Hx.
  apply (coverage_zero boxes 0 g Hcov). destruct x as [c ic].
  apply (in_combine_l _ _ _ _ Hx).
Qed.

(** A band that is one column long holds no two pairs with the same
    [y0], when such pairs are kept apart by an empty column. *)
Lemma single_column_no_ties (T : list (Box * nat)) :
  T <> [] -> Forall well_formed (map fst T) -> NoDup T -> ties_apart T ->
  length (runs_of 0 T) = 1%nat -> NoDup (map py0 T).
Proof.
  intros Hne Hwf Hnd Hta Hone.
  apply NoDup_map_inj_on; [exact Hnd|]. intros p q Hp Hq Hy.
  destruct (pair_eq_dec p q) as [E|Hpq]; [exact E|exfalso].
  destruct (Hta p q Hp Hq Hpq Hy) as (g & Hg & Hfree).
  destruct (runs_of_spec 0 T Hne Hwf (or_introl eq_refl)) as
    (_ & _ & _ & _ & _ & _ & _ & _ & Cov & _).
  destruct (Cov p Hp) as (cp & Hcp & Hinp). destruct (Cov q Hq) as (cq & Hcq & Hinq).
  change (in_run cp (px0 p) = true) in Hinp. change (in_run cq (px0 q) = true) in Hinq.
  destruct (runs_of 0 T) as [|c [|c' rs]] eqn:ER; try discriminate.
  destruct Hcp as [<-|[]]. destruct Hcq as [<-|[]].
  apply in_run_iff in Hinp, Hinq.
  destruct (run_positions_covered 0 T c g Hne Hwf (or_introl eq_refl))
    as (x & Hx & Hcov); [rewrite ER; now left|lia|].
  rewrite (Hfree x Hx) in Hcov. discriminate.
Qed.

Section Determined.

Variables argsort1 argsort2 : list Z -> list nat.
Hypothesis argsort1_perm : forall ks, Permutation (argsort1 ks) (seq 0 (length ks)).
Hypothesis argsort1_sorted : forall ks, StronglySorted Z.le (take_idx ks (argsort1 ks)).
Hypothesis argsort2_perm : forall ks, Permutation (argsort2 ks) (seq 0 (length ks)).
Hypothesis argsort2_sorted : forall ks, StronglySorted Z.le (take_idx ks (argsort2 ks)).

(** The value of the cut depends neither on the order of equal keys nor on
    the order of the input, when pairs that start on the same row are
    kept apart by an empty column. *)
Lemma cut_value_determined (n : nat) :
  forall L L' : list (Box * nat),
    (length L <= n)%nat -> Permutation L L' ->
    L <> [] -> Forall well_formed (map fst L) -> NoDup L -> ties_apart L ->
    cut_value argsort1 L = cut_value argsort2 L'.
Proof.
  induction n as [|n IH]; intros L L' Hn P Hne Hwf Hnd Hta.
  { destruct L; [congruence|cbn [length] in Hn; lia]. }
  assert (Hne' : L' <> []) by apply (nonempty_perm _ _ (Permutation_sym P) Hne).
  assert (Hwf' : Forall well_formed (map fst L'))
    by apply (Forall_map_fst_perm _ _ (Permutation_sym P) Hwf).
  rewrite (cut_value_bands argsort1 argsort1_perm L Hne Hwf).
  rewrite (cut_value_bands argsort2 argsort2_perm L' Hne' Hwf').
  rewrite <- (runs_of_perm 1 L L' P).
  f_equal. apply map_ext_in. intros r Hr.
  assert (Hr' : In r (runs_of 1 L')) by now rewrite <- (runs_of_perm 1 L L' P).
  destruct (band_facts argsort1 argsort1_perm L r Hne Hwf Hr) as (TN & TW & TL).
  destruct (band_facts argsort2 argsort2_perm L' r Hne' Hwf' Hr') as (TN' & TW' & _).
  pose proof (sort_by_perm argsort1 argsort1_perm py0 L) as PS1.
  pose proof (sort_by_perm argsort2 argsort2_perm py0 L') as PS2.
  pose proof (sort_by_sorted argsort1 argsort1_sorted py0 L) as SS1.
  pose proof (sort_by_sorted argsort2 argsort2_sorted py0 L') as SS2.
  set (T1 := filter (fun p => in_run r (py0 p)) (sort_by argsort1 py0 L)) in *.
  set (T2 := filter (fun p => in_run r (py0 p)) (sort_by argsort2 py0 L')) in *.
  assert (PT : Permutation T1 T2).
  { apply filter_perm. transitivity L; [exact PS1|].
    transitivity L'; [exact P|now apply Permutation_sym]. }
  assert (HiT : incl T1 L).
  { intros x Hx. apply filter_In in Hx. apply (Permutation_in x PS1), Hx. }
  assert (HndT : NoDup T1).
  { apply NoDup_filter, (Permutation_NoDup (Permutation_sym PS1) Hnd). }
  assert (HtaT : ties_apart T1) by apply (ties_apart_incl L T1 HiT Hta).
  unfold band_value. rewrite <- (runs_of_perm 0 T1 T2 PT).
  destruct (length (runs_of 0 T1) =? 1)%nat eqn:E1.
  - apply Nat.eqb_eq in E1. apply (sorted_perm_unique py0).
    + apply StronglySorted_filter, SS1.
    + apply StronglySorted_filter, SS2.
    + exact PT.
    + now apply single_column_no_ties.
  - apply Nat.eqb_neq in E1. f_equal. apply map_ext_in. intros c Hc.
    destruct (column_facts argsort1 argsort1_perm T1 c TN TW Hc) as (CN & CW & CL).
    pose proof (sort_by_perm argsort1 argsort1_perm px0 T1) as PX1.
    pose proof (sort_by_perm argsort2 argsort2_perm px0 T2) as PX2.
    apply IH.
    + specialize (CL E1). lia.
    + apply filter_perm. transitivity T1; [exact PX1|].
      transitivity T2; [exact PT|now apply Permutation_sym].
    + exact CN.
    + exact CW.
    + apply NoDup_filter, (Permutation_NoDup (Permutation_sym PX1) HndT).
    + apply (ties_apart_incl T1); [|exact HtaT].
      intros x Hx. apply filter_In in Hx. apply (Permutation_in x PX1), Hx.
Qed.

End Determined.

Section Resorted.

Variable argsort : list Z -> list nat.
Hypothesis argsort_perm : forall ks, Permutation (argsort ks) (seq 0 (length ks)).
Hypothesis argsort_sorted : forall ks, StronglySorted Z.le (take_idx ks (argsort ks)).

(** The cut run again on its own output, for any order of equal keys. *)
Lemma recursive_xy_cut_resorted (fuel : nat) (boxes : list Box)
  (indices res res' : list nat) :
  boxes <> [] -> Forall well_formed boxes ->
  length boxes = length indices -> NoDup indices ->
  (length boxes <= fuel)%nat -> tied_boxes_apart boxes ->
  exists out boxes',
    recursive_xy_cut argsort fuel boxes indices res = Ok (res ++ out) /\
    length boxes' = length out /\
    Permutation (combine boxes' out) (combine boxes indices) /\
    (forall boxes'', length boxes'' = length out ->
       Permutation (combine boxes'' out) (combine boxes indices) ->
       boxes'' = boxes') /\
    recursive_xy_cut argsort fuel boxes' out res' = Ok (res' ++ out).
Proof.
  intros Hne Hwf Hlen Hnd Hfuel Hapart.
  set (L := combine boxes indices).
  assert (HneL : L <> []).
  { unfold L. destruct boxes, indices; simpl in *; congruence. }
  assert (HwfL : Forall well_formed (map fst L)).
  { unfold L. now rewrite combine_fst. }
  assert (HlenL : length L = length boxes).
  { unfold L. rewrite length_combine. lia. }
  assert (HndL : NoDup L).
  { apply (NoDup_map_inv snd). unfold L. now rewrite combine_snd. }
  assert (HtaL : ties_apart L) by now apply tied_boxes_apart_pairs.
  pose proof (cut_value_perm argsort argsort_perm L HneL HwfL) as PO.
  set (O := cut_value argsort L) in *.
  exists (map snd O), (map fst O). split; [|split; [|split; [|split]]].
  - rewrite recursive_xy_cut_pairs by exact Hlen. fold L.
    rewrite (cut_pairs_value argsort argsort_perm fuel L HneL HwfL) by lia.
    reflexivity.
  - now rewrite !length_map.
  - rewrite combine_fst_snd. exact PO.
  - intros boxes'' Hl P.
    assert (E : combine boxes'' (map snd O) = O).
    { apply perm_same_snd.
      - transitivity L; [exact P|now apply Permutation_sym].
      - now rewrite combine_snd.
      - rewrite combine_snd by exact Hl.
        apply (Permutation_NoDup (Permutation_sym (Permutation_map snd PO))).
        unfold L. now rewrite combine_snd. }
    rewrite <- E at 1. rewrite combine_fst; [reflexivity|exact Hl].
  - rewrite recursive_xy_cut_pairs by (now rewrite !length_map).
    rewrite combine_fst_snd.
    rewrite (cut_pairs_value argsort argsort_perm fuel O).
    + rewrite <- (cut_value_determined argsort argsort argsort_perm argsort_sorted
                    argsort_perm argsort_sorted (length L) L O (le_n _)
                    (Permutation_sym PO) HneL HwfL HndL HtaL).
      reflexivity.
    + apply (nonempty_perm _ _ PO HneL).
    + apply (Forall_map_fst_perm _ _ PO HwfL).
    + rewrite (Permutation_length PO). lia.
Qed.

End Resorted.


(** The two boxes of the grid that start on row 20, and the two that
    start on row 0, have the uncovered column 7 between them. *)
Lemma grid_boxes_ties_apart : tied_boxes_apart grid_boxes.
Proof.
  assert (Hc : coverage grid_boxes 0 7 = 0) by reflexivity.
  intros i j a b Hi Hj Hij Hy. unfold grid_boxes in Hi, Hj.
  destruct i as [|[|[|[|i]]]]; cbn [nth_error] in Hi;
    try (destruct i; discriminate); injection Hi as <-;
    destruct j as [|[|[|[|j]]]]; cbn [nth_error] in Hj;
    try (destruct j; discriminate); injection Hj as <-;
    cbn [y0] in Hy; try congruence; try discriminate;
    (exists 7; split; [cbn [x0]; lia|exact Hc]).
Qed.



(** ** Boxes of regions *)

Lemma fold_Qmin_spec (t : list Q) (a : Q) :
  let m := fold_left (fun m v => if Qle_bool v m then v else m) t a in
  In m (a :: t) /\ forall v, In v (a :: t) -> (m <= v)%Q.
Proof.
  revert a; induction t as [|b t IH]; intros a; cbv zeta.
  - simpl. split; [now left|]. intros v [<-|[]]. apply Qle_refl.
  - cbn [fold_left].
    destruct (IH (if Qle_bool b a then b else a)) as [H1 H2].
    assert (Ha : ((if Qle_bool b a then b else a) <= a)%Q /\
                 ((if Qle_bool b a then b else a) <= b)%Q).
    { destruct (Qle_bool b a) eqn:E.
      - apply Qle_bool_iff in E. split; [exact E|apply Qle_refl].
      - split; [apply Qle_refl|]. apply Qlt_le_weak, Qnot_le_lt.
        intros H. apply Qle_bool_iff in H. congruence. }
    split.
    + destruct H1 as [H1|H1]; [|right; now right].
      rewrite <- H1. destruct (Qle_bool b a); [right; now left|now left].
    + intros v [Hv|[Hv|Hv]].
      * subst v. apply (Qle_trans _ _ _ (H2 _ (or_introl eq_refl)) (proj1 Ha)).
      * subst v. apply (Qle_trans _ _ _ (H2 _ (or_introl eq_refl)) (proj2 Ha)).
      * apply H2. now right.
Qed.

Lemma fold_Qmax_spec (t : list Q) (a : Q) :
  let m := fold_left (fun m v => if Qle_bool m v then v else m) t a in
  In m (a :: t) /\ forall v, In v (a :: t) -> (v <= m)%Q.
Proof.
  revert a; induction t as [|b t IH]; intros a; cbv zeta.
  - simpl. split; [now left|]. intros v [<-|[]]. apply Qle_refl.
  - cbn [fold_left].
    destruct (IH (if Qle_bool a b then b else a)) as [H1 H2].
    assert (Ha : (a <= (if Qle_bool a b then b else a))%Q /\
                 (b <= (if Qle_bool a b then b else a))%Q).
    { destruct (Qle_bool a b) eqn:E.
      - apply Qle_bool_iff in E. split; [exact E|apply Qle_refl].
      - split; [apply Qle_refl|]. apply Qlt_le_weak, Qnot_le_lt.
        intros H. apply Qle_bool_iff in H. congruence. }
    split.
    + destruct H1 as [H1|H1]; [|right; now right].
      rewrite <- H1. destruct (Qle_bool a b); [right; now left|now left].
    + intros v [Hv|[Hv|Hv]].
      * subst v. apply (Qle_trans _ _ _ (proj1 Ha) (H2 _ (or_introl eq_refl))).
      * subst v. apply (Qle_trans _ _ _ (proj2 Ha) (H2 _ (or_introl eq_refl))).
      * apply H2. now right.
Qed.

Lemma Qarr_min_spec (l : list Q) :
  match Qarr_min l with
  | Ok m => In m l /\ forall v, In v l -> (m <= v)%Q
  | Raise e => l = [] /\ e = ValueError
  end.
Proof.
  destruct l as [|a t]; [now split|]. apply fold_Qmin_spec.
Qed.

Lemma Qarr_max_spec (l : list Q) :
  match Qarr_max l with
  | Ok m => In m l /\ forall v, In v l -> (v <= m)%Q
  | Raise e => l = [] /\ e = ValueError
  end.
Proof.
  destruct l as [|a t]; [now split|]. apply fold_Qmax_spec.
Qed.

(** The box of a region with at least one vertex, with what bounds it. *)
Lemma region_box_spec (reg : Region) :
  polygon reg <> [] ->
  exists xmin ymin xmax ymax,
    region_box reg
      = Ok (mkBox (Qfloor xmin) (Qfloor ymin) (Qceiling xmax) (Qceiling ymax)) /\
    (In xmin (map fst (polygon reg)) /\
     forall p, In p (polygon reg) -> (xmin <= fst p)%Q) /\
    (In ymin (map snd (polygon reg)) /\
     forall p, In p (polygon reg) -> (ymin <= snd p)%Q) /\
    (In xmax (map fst (polygon reg)) /\
     forall p, In p (polygon reg) -> (fst p <= xmax)%Q) /\
    (In ymax (map snd (polygon reg)) /\
     forall p, In p (polygon reg) -> (snd p <= ymax)%Q).
Proof.
  intros Hne. unfold region_box. cbv zeta.
  pose proof (Qarr_min_spec (map fst (polygon reg))) as Hxmin.
  pose proof (Qarr_min_spec (map snd (polygon reg))) as Hymin.
  pose proof (Qarr_max_spec (map fst (polygon reg))) as Hxmax.
  pose proof (Qarr_max_spec (map snd (polygon reg))) as Hymax.
  assert (N1 : map fst (polygon reg) <> []) by (destruct (polygon reg); [congruence|discriminate]).
  assert (N2 : map snd (polygon reg) <> []) by (destruct (polygon reg); [congruence|discriminate]).
  destruct (Qarr_min (map fst (polygon reg))) as [xmin|e]; [|destruct Hxmin; congruence].
  destruct (Qarr_min (map snd (polygon reg))) as [ymin|e]; [|destruct Hymin; congruence].
  destruct (Qarr_max (map fst (polygon reg))) as [xmax|e]; [|destruct Hxmax; congruence].
  destruct (Qarr_max (map snd (polygon reg))) as [ymax|e]; [|destruct Hymax; congruence].
  cbn [bind]. exists xmin, ymin, xmax, ymax. split; [reflexivity|].
  repeat split; try tauto.
  - intros p Hp. apply Hxmin. now apply in_map.
  - intros p Hp. apply Hymin. now apply in_map.
  - intros p Hp. apply Hxmax. now apply in_map.
  - intros p Hp. apply Hymax. now apply in_map.
Qed.

(** X19: the box built from a region's polygon is the smallest box with
    integer sides that encloses the polygon.  Every vertex lies within
    its sides, and each side is less than one unit away from a vertex;
    building it fails (ValueError) exactly on a polygon without vertex. *)
Theorem region_box_encloses_polygon (reg : Region) :
  (polygon reg = [] -> region_box reg = Raise ValueError) /\
  (polygon reg <> [] ->
   exists b,
     region_box reg = Ok b /\
     (forall p, In p (polygon reg) ->
        (inject_Z (x0 b) <= fst p)%Q /\ (fst p <= inject_Z (x1 b))%Q /\
        (inject_Z (y0 b) <= snd p)%Q /\ (snd p <= inject_Z (y1 b))%Q) /\
     (exists p, In p (polygon reg) /\ (fst p < inject_Z (x0 b + 1))%Q) /\
     (exists p, In p (polygon reg) /\ (inject_Z (x1 b - 1) < fst p)%Q) /\
     (exists p, In p (polygon reg) /\ (snd p < inject_Z (y0 b + 1))%Q) /\
     (exists p, In p (polygon reg) /\ (inject_Z (y1 b - 1) < snd p)%Q)).
Proof.
  split.
  - intros E. unfold region_box. now rewrite E.
  - intros Hne.
    destruct (region_box_spec reg Hne) as
      (xmin & ymin & xmax & ymax & Hb & [I1 L1] & [I2 L2] & [I3 L3] & [I4 L4]).
    eexists. split; [exact Hb|]. cbn [x0 y0 x1 y1]. split; [|split; [|split; [|split]]].
    + intros p Hp. repeat split.
      * apply (Qle_trans _ xmin); [apply Qfloor_le|now apply L1].
      * apply (Qle_trans _ xmax); [now apply L3|apply Qle_ceiling].
      * apply (Qle_trans _ ymin); [apply Qfloor_le|now apply L2].
      * apply (Qle_trans _ ymax); [now apply L4|apply Qle_ceiling].
    + apply in_map_iff in I1. destruct I1 as (p & <- & Hp). exists p.
      split; [exact Hp|apply Qlt_floor].
    + apply in_map_iff in I3. destruct I3 as (p & <- & Hp). exists p.
      split; [exact Hp|apply Qceiling_lt].
    + apply in_map_iff in I2. destruct I2 as (p & <- & Hp). exists p.
      split; [exact Hp|apply Qlt_floor].
    + apply in_map_iff in I4. destruct I4 as (p & <- & Hp). exists p.
      split; [exact Hp|apply Qceiling_lt].
Qed.

Lemma region_box_proper (reg : Region) :
  proper_polygon (polygon reg) ->
  exists b, region_box reg = Ok b /\ well_formed b.
Proof.
  intros (Hnn & (p & q & Hp & Hq & Hpq) & (p' & q' & Hp' & Hq' & Hpq')).
  assert (Hne : polygon reg <> []) by (intros E; rewrite E in Hp; exact Hp).
  destruct (region_box_spec reg Hne) as
    (xmin & ymin & xmax & ymax & Hb & [I1 L1] & [I2 L2] & [I3 L3] & [I4 L4]).
  eexists. split; [exact Hb|]. unfold well_formed. cbn [x0 y0 x1 y1].
  apply in_map_iff in I1, I2. destruct I1 as (v1 & E1 & Hv1). destruct I2 as (v2 & E2 & Hv2).
  assert (X0 : 0 <= Qfloor xmin).
  { rewrite <- (Qfloor_Z 0). apply Qfloor_resp_le. rewrite <- E1. apply (Hnn v1 Hv1). }
  assert (Y0 : 0 <= Qfloor ymin).
  { rewrite <- (Qfloor_Z 0). apply Qfloor_resp_le. rewrite <- E2. apply (Hnn v2 Hv2). }
  assert (X1 : Qfloor xmin < Qceiling xmax).
  { rewrite Zlt_Qlt. apply (Qle_lt_trans _ xmin); [apply Qfloor_le|].
    apply (Qle_lt_trans _ (fst p)); [now apply L1|].
    apply (Qlt_le_trans _ (fst q)); [exact Hpq|].
    apply (Qle_trans _ xmax); [now apply L3|apply Qle_ceiling]. }
  assert (Y1 : Qfloor ymin < Qceiling ymax).
  { rewrite Zlt_Qlt. apply (Qle_lt_trans _ ymin); [apply Qfloor_le|].
    apply (Qle_lt_trans _ (snd p')); [now apply L2|].
    apply (Qlt_le_trans _ (snd q')); [exact Hpq'|].
    apply (Qle_trans _ ymax); [now apply L4|apply Qle_ceiling]. }
  lia.
Qed.

Lemma region_boxes_length (regs : list Region) (boxes : list Box) :
  region_boxes regs = Ok boxes -> length boxes = length regs.
Proof.
  revert boxes; induction regs as [|reg t IH]; intros boxes H; cbn [region_boxes] in H.
  - now injection H as <-.
  - destruct (region_box reg) as [b|e]; [|discriminate]. cbn [bind] in H.
    destruct (region_boxes t) as [bs|e]; [|discriminate]. cbn [bind] in H.
    injection H as <-. cbn [length]. now rewrite (IH bs eq_refl).
Qed.

Lemma region_boxes_proper (regs : list Region) :
  (forall reg, In reg regs -> proper_polygon (polygon reg)) ->
  exists boxes, region_boxes regs = Ok boxes /\ Forall well_formed boxes.
Proof.
  induction regs as [|reg t IH]; intros H.
  - exists []. split; [reflexivity|constructor].
  - destruct (region_box_proper reg (H reg (or_introl eq_refl))) as (b & Hb & Wb).
    destruct IH as (bs & Hbs & Wbs); [intros r Hr; apply H; now right|].
    exists (b :: bs). cbn [region_boxes]. rewrite Hb, Hbs. cbn [bind].
    split; [reflexivity|now constructor].
Qed.

Lemma region_boxes_nonempty_polygons (regs : list Region) :
  Forall (fun reg => polygon reg <> []) regs ->
  exists boxes, region_boxes regs = Ok boxes.
Proof.
  induction 1 as [|reg t Hreg _ IH].
  - now exists [].
  - destruct (region_box_spec reg Hreg) as (a & b & c & d & Hb & _).
    destruct IH as (bs & Hbs). eexists. cbn [region_boxes].
    rewrite Hb, Hbs. reflexivity.
Qed.

Lemma region_box_raises (reg : Region) (e : exn) :
  region_box reg = Raise e -> e = ValueError.
Proof.
  destruct (polygon reg) as [|p t] eqn:E.
  - unfold region_box. rewrite E. cbn. congruence.
  - destruct (region_box_spec reg) as (a & b & c & d & Hb & _); [congruence|].
    rewrite Hb. discriminate.
Qed.

Lemma region_boxes_empty_polygon (regs : list Region) :
  Exists (fun reg => polygon reg = []) regs ->
  region_boxes regs = Raise ValueError.
Proof.
  induction 1 as [reg t Hreg|reg t _ IH]; cbn [region_boxes].
  - unfold region_box. rewrite Hreg. reflexivity.
  - destruct (region_box reg) as [b|e] eqn:E.
    + cbn [bind]. now rewrite IH.
    + cbn [bind]. now rewrite (region_box_raises reg e E).
Qed.

Lemma PageLayout_eta (pl : PageLayout) : mkPageLayout (regions pl) = pl.
Proof. now destruct pl. Qed.

(** ** The page as a whole *)

Section PageOrder.

Variable argsort : list Z -> list nat.
Variable categories : Type.
Variable split_page_layout_by_categories :
  PageLayout -> categories -> PageLayout * PageLayout.
Variable merge_page_layouts : PageLayout -> PageLayout -> PageLayout.

Local Abbreviation page :=
  (process_page argsort categories split_page_layout_by_categories
     merge_page_layouts).

(** X20: which way [process_page] ends, for any argsort and any recursion
    limit.  With fewer than two regions to sort it merges the two parts
    back untouched, whatever their polygons.  With two or more, a region
    whose polygon has no vertex makes it raise ValueError: the boxes are
    built before the [try] block, so there is no fall-back.  When every
    polygon has a vertex it returns a layout, since every failure of the
    cut is caught. *)
Theorem process_page_outcome (self_categories : categories) (fuel : nat)
  (layout : PageLayout) :
  let page_layout := fst (split_page_layout_by_categories layout self_categories) in
  let page_layout_ignore := snd (split_page_layout_by_categories layout self_categories) in
  ((length (regions page_layout) < 2)%nat ->
   page self_categories fuel layout
   = Ok (merge_page_layouts page_layout_ignore page_layout)) /\
  ((2 <= length (regions page_layout))%nat ->
   (Exists (fun reg => polygon reg = []) (regions page_layout) ->
    page self_categories fuel layout = Raise ValueError) /\
   (Forall (fun reg => polygon reg <> []) (regions page_layout) ->
    exists out, page self_categories fuel layout = Ok out)).
Proof.
  cbv zeta. unfold process_page.
  destruct (split_page_layout_by_categories layout self_categories) as [pl ign].
  cbn [fst snd]. split; [|intros Hlen; split].
  - intros Hlen. apply Nat.ltb_lt in Hlen. now rewrite Hlen.
  - intros Hex. assert (E : (length (regions pl) <? 2)%nat = false)
      by (apply Nat.ltb_ge; lia).
    rewrite E, (region_boxes_empty_polygon _ Hex). reflexivity.
  - intros Hall. assert (E : (length (regions pl) <? 2)%nat = false)
      by (apply Nat.ltb_ge; lia).
    rewrite E. destruct (region_boxes_nonempty_polygons _ Hall) as (boxes & ->).
    cbn [bind]. cbv zeta.
    destruct (falsy _); eexists; reflexivity.
Qed.

Hypothesis argsort_perm : forall ks, Permutation (argsort ks) (seq 0 (length ks)).

(** X21: a page of proper regions is only reordered.  When every region
    to sort has a polygon with non-negative coordinates, a positive width
    and a positive height, and the recursion limit is at least the number
    of regions, [process_page] returns the ignored part merged with a
    rearrangement of the regions to sort: none is lost, none is
    repeated. *)
Theorem process_page_reorders_proper_regions (self_categories : categories)
  (fuel : nat) (layout page_layout page_layout_ignore : PageLayout) :
  split_page_layout_by_categories layout self_categories
    = (page_layout, page_layout_ignore) ->
  (forall reg, In reg (regions page_layout) -> proper_polygon (polygon reg)) ->
  (length (regions page_layout) <= fuel)%nat ->
  exists ordered_regions,
    page self_categories fuel layout
    = Ok (merge_page_layouts page_layout_ignore (mkPageLayout ordered_regions)) /\
    Permutation ordered_regions (regions page_layout).
Proof.
  intros Hsplit Hproper Hfuel. unfold process_page. rewrite Hsplit.
  destruct (length (regions page_layout) <? 2)%nat eqn:E.
  { exists (regions page_layout). now rewrite PageLayout_eta. }
  apply Nat.ltb_ge in E.
  destruct (region_boxes_proper _ Hproper) as (boxes & Hb & Hwf).
  pose proof (region_boxes_length _ _ Hb) as Hlen.
  rewrite Hb. cbn [bind]. cbv zeta. unfold try_cut.
  destruct (recursive_xy_cut_well_formed argsort argsort_perm fuel boxes
              (seq 0 (length (regions page_layout))) [])
    as (out & Hout & P).
  - intros ->. cbn [length] in Hlen. lia.
  - exact Hwf.
  - now rewrite length_seq.
  - lia.
  - rewrite Hout. cbn [app]. destruct out as [|i r].
    + cbn [falsy]. exists (regions page_layout). now rewrite PageLayout_eta.
    + cbn [falsy]. exists (take_idx (regions page_layout) (i :: r)).
      split; [reflexivity|]. now apply take_idx_perm.
Qed.

(** X22: [process_page] never invents or repeats a region.  Whenever it
    returns, for any polygons and any recursion limit, the layout it
    merges back holds regions of the part to sort picked at distinct
    positions; it may hold fewer of them, never more. *)
Theorem process_page_never_duplicates (self_categories : categories)
  (fuel : nat) (layout page_layout page_layout_ignore out : PageLayout) :
  split_page_layout_by_categories layout self_categories
    = (page_layout, page_layout_ignore) ->
  page self_categories fuel layout = Ok out ->
  exists positions,
    out = merge_page_layouts page_layout_ignore
            (mkPageLayout (take_idx (regions page_layout) positions)) /\
    NoDup positions /\
    Forall (fun i => (i < length (regions page_layout))%nat) positions /\
    (length (take_idx (regions page_layout) positions)
     <= length (regions page_layout))%nat.
Proof.
  intros Hsplit H.
  assert (Hall : exists positions,
    out = merge_page_layouts page_layout_ignore
            (mkPageLayout (take_idx (regions page_layout) positions)) /\
    NoDup positions /\
    Forall (fun i => (i < length (regions page_layout))%nat) positions).
  { assert (Hsame : Ok out = Ok (merge_page_layouts page_layout_ignore page_layout) ->
      exists positions,
        out = merge_page_layouts page_layout_ignore
                (mkPageLayout (take_idx (regions page_layout) positions)) /\
        NoDup positions /\
        Forall (fun i => (i < length (regions page_layout))%nat) positions).
    { intros Ho. injection Ho as ->. exists (seq 0 (length (regions page_layout))).
      rewrite take_idx_seq, PageLayout_eta. split; [reflexivity|].
      split; [apply seq_NoDup|]. apply Forall_forall. intros i Hi.
      apply in_seq in Hi. lia. }
    unfold process_page in H. rewrite Hsplit in H.
    destruct (length (regions page_layout) <? 2)%nat; [now apply Hsame; symmetry|].
    destruct (region_boxes (regions page_layout)) as [boxes|e]; [|discriminate].
    cbn [bind] in H. cbv zeta in H. unfold try_cut in H.
    destruct (recursive_xy_cut argsort fuel boxes
                (seq 0 (length (regions page_layout))) []) as [res|e] eqn:Er.
    2:{ cbn [falsy] in H. now apply Hsame; symmetry. }
    destruct res as [|i r]; [cbn [falsy] in H; now apply Hsame; symmetry|].
    cbn [falsy] in H. injection H as <-.
    destruct (recursive_xy_cut_any argsort argsort_perm fuel boxes _ [] _
                (seq_NoDup _ 0) Er) as (new & Hnew & Hnd & Hincl).
    cbn [app] in Hnew. subst new. exists (i :: r).
    split; [reflexivity|]. split; [exact Hnd|].
    apply Forall_forall. intros j Hj. apply Hincl, in_seq in Hj. lia. }
  destruct Hall as (positions & Ho & Hnd & Hrange).
  exists positions. repeat split; try assumption.
  assert (Hl : length (take_idx (regions page_layout) positions) = length positions).
  { clear - Hrange. induction Hrange as [|i t Hi _ IH]; [reflexivity|].
    unfold take_idx in *. cbn [flat_map].
    destruct (nth_error (regions page_layout) i) eqn:E.
    - cbn [app length]. now rewrite IH.
    - apply nth_error_None in E. lia. }
  rewrite Hl.
  assert (Hinc : incl positions (seq 0 (length (regions page_layout)))).
  { intros j Hj. rewrite Forall_forall in Hrange. apply in_seq.
    specialize (Hrange j Hj). lia. }
  pose proof (NoDup_incl_length Hnd Hinc) as Hle. now rewrite length_seq in Hle.
Qed.

End PageOrder.

Lemma process_page_reorders_witness :
  let r0 := mkRegion 0 [(10, 20); (15, 20); (15, 30); (10, 30)]%Q in
  let r1 := mkRegion 1 [(0, 0); (5, 0); (5, 10); (0, 10)]%Q in
  let r2 := mkRegion 2 [(21 # 2, 1 # 2); (29 # 2, 19 # 2)]%Q in
  let layout := mkPageLayout [r0; r1; r2] in
  split_nothing_ignored layout tt = (layout, mkPageLayout []) /\
  (forall reg, In reg (regions layout) -> proper_polygon (polygon reg)) /\
  (length (regions layout) <= 3)%nat /\
  exists ordered_regions,
    process_page insertion_argsort unit split_nothing_ignored merge_appending tt 3 layout
    = Ok (merge_appending (mkPageLayout []) (mkPageLayout ordered_regions)) /\
    Permutation ordered_regions (regions layout).
Proof.
  cbv zeta.
  assert (Hp : forall reg,
    In reg (regions (mkPageLayout
      [mkRegion 0 [(10, 20); (15, 20); (15, 30); (10, 30)]%Q;
       mkRegion 1 [(0, 0); (5, 0); (5, 10); (0, 10)]%Q;
       mkRegion 2 [(21 # 2, 1 # 2); (29 # 2, 19 # 2)]%Q])) ->
    proper_polygon (polygon reg)).
  { intros reg Hreg. cbn [regions In] in Hreg.
    destruct Hreg as [<-|[<-|[<-|[]]]]; cbn [polygon]; split.
    - intros p Hp. cbn [In] in Hp.
      destruct Hp as [<-|[<-|[<-|[<-|[]]]]]; split; discriminate.
    - split; [exists (10, 20)%Q, (15, 20)%Q|exists (10, 20)%Q, (15, 30)%Q];
        cbn [In]; (split; [tauto|split; [tauto|reflexivity]]).
    - intros p Hp. cbn [In] in Hp.
      destruct Hp as [<-|[<-|[<-|[<-|[]]]]]; split; discriminate.
    - split; [exists (0, 0)%Q, (5, 0)%Q|exists (0, 0)%Q, (5, 10)%Q];
        cbn [In]; (split; [tauto|split; [tauto|reflexivity]]).
    - intros p Hp. cbn [In] in Hp.
      destruct Hp as [<-|[<-|[]]]; split; discriminate.
    - split; exists (21 # 2, 1 # 2)%Q, (29 # 2, 19 # 2)%Q;
        cbn [In]; (split; [tauto|split; [tauto|reflexivity]]). }
  split; [reflexivity|]. split; [exact Hp|]. split; [cbn; lia|].
  exact (process_page_reorders_proper_regions insertion_argsort unit
           split_nothing_ignored merge_appending insertion_argsort_perm tt 3
           _ _ _ eq_refl Hp (le_n 3)).
Defined.

Lemma process_page_never_duplicates_witness :
  let r0 := mkRegion 0 [(0, 0); (10, 0); (10, 10); (0, 10)]%Q in
  let r1 := mkRegion 1 [(20, 0); (20, 10)]%Q in
  let r2 := mkRegion 2 [(30, 0); (40, 0); (40, 10); (30, 10)]%Q in
  let layout := mkPageLayout [r0; r1; r2] in
  split_nothing_ignored layout tt = (layout, mkPageLayout []) /\
  process_page insertion_argsort unit split_nothing_ignored merge_appending tt 3 layout
    = Ok (mkPageLayout [r0; r2]) /\
  exists positions,
    mkPageLayout [r0; r2]
    = merge_appending (mkPageLayout [])
        (mkPageLayout (take_idx (regions layout) positions)) /\
    NoDup positions /\
    Forall (fun i => (i < length (regions layout))%nat) positions /\
    (length (take_idx (regions layout) positions) <= length (regions layout))%nat.
Proof.
  cbv zeta. split; [reflexivity|]. split; [vm_compute; reflexivity|].
  apply (process_page_never_duplicates insertion_argsort unit
           split_nothing_ignored merge_appending insertion_argsort_perm tt 3
           (mkPageLayout
              [mkRegion 0 [(0, 0); (10, 0); (10, 10); (0, 10)]%Q;
               mkRegion 1 [(20, 0); (20, 10)]%Q;
               mkRegion 2 [(30, 0); (40, 0); (40, 10); (30, 10)]%Q])
           _ (mkPageLayout [])).
  - reflexivity.
  - vm_compute. reflexivity.
Defined.

(** ** Sorting a sorted page *)

Lemma region_boxes_nth (regs : list Region) (boxes : list Box) :
  region_boxes regs = Ok boxes ->
  forall i,
    match nth_error regs i with
    | Some reg => exists b, nth_error boxes i = Some b /\ region_box reg = Ok b
    | None => nth_error boxes i = None
    end.
Proof.
  revert boxes; induction regs as [|reg t IH]; intros boxes H i; cbn [region_boxes] in H.
  - injection H as <-. now destruct i.
  - destruct (region_box reg) as [b|e] eqn:Eb; [|discriminate]. cbn [bind] in H.
    destruct (region_boxes t) as [bs|e]; [|discriminate]. cbn [bind] in H.
    injection H as <-. destruct i as [|i]; cbn [nth_error].
    + now exists b.
    + apply (IH bs eq_refl).
Qed.

Lemma region_boxes_take_idx (regs : list Region) (boxes : list Box) (idx : list nat) :
  region_boxes regs = Ok boxes ->
  region_boxes (take_idx regs idx) = Ok (take_idx boxes idx).
Proof.
  intros H. induction idx as [|i t IH]; [reflexivity|].
  unfold take_idx in *. cbn [flat_map].
  pose proof (region_boxes_nth regs boxes H i) as Hi.
  destruct (nth_error regs i) as [reg|].
  - destruct Hi as (b & -> & Hb). cbn [app region_boxes].
    rewrite Hb, IH. reflexivity.
  - rewrite Hi. exact IH.
Qed.

Lemma take_idx_seq_in_range (n : nat) (idx : list nat) :
  Forall (fun i => (i < n)%nat) idx -> take_idx (seq 0 n) idx = idx.
Proof.
  induction 1 as [|i t Hi _ IH]; [reflexivity|].
  unfold take_idx in *. cbn [flat_map]. rewrite nth_error_seq.
  apply Nat.ltb_lt in Hi. rewrite Hi. cbn [app Nat.add]. now rewrite IH.
Qed.

Lemma map_nth_seq {A : Type} (l : list A) (d : A) :
  map (fun i => nth i l d) (seq 0 (length l)) = l.
Proof.
  induction l as [|a t IH]; [reflexivity|].
  cbn [length seq map nth]. rewrite <- seq_shift, map_map. cbn [nth].
  now rewrite IH.
Qed.

Lemma map_inj_on {A B : Type} (f : A -> B) (l l' : list A) :
  (forall x y, In x l -> In y l' -> f x = f y -> x = y) ->
  map f l = map f l' -> l = l'.
Proof.
  revert l'; induction l as [|a t IH]; intros [|a' t'] Hinj H; try discriminate.
  - reflexivity.
  - cbn [map] in H. injection H as Ha Ht. f_equal.
    + apply Hinj; [now left|now left|exact Ha].
    + apply IH; [|exact Ht]. intros x y Hx Hy. apply Hinj; now right.
Qed.

Lemma recursive_xy_cut_positions (argsort : list Z -> list nat) (f : nat -> nat)
  (fuel : nat) :
  forall (boxes : list Box) (indices res : list nat),
    recursive_xy_cut argsort fuel boxes (map f indices) (map f res)
    = map_result (map f) (recursive_xy_cut argsort fuel boxes indices res).
Proof.
  induction fuel as [|fuel IH]; intros boxes indices res; [reflexivity|].
  cbn [recursive_xy_cut]. rewrite length_map.
  destruct (negb (length boxes =? length indices)%nat); [reflexivity|].
  cbv zeta. rewrite take_idx_map.
  destruct (projection_by_bboxes _ 1) as [yp|e]; cbn [bind map_result]; [|reflexivity].
  destruct (split_projection_profile yp 0 1) as [[r0 r1]|]; [|reflexivity].
  apply for_each_map_result. intros r s _.
  apply cut_band_relabel. intros bs ids res'. apply IH.
Qed.

Section SortedPage.

Variable argsort : list Z -> list nat.
Hypothesis argsort_perm : forall ks, Permutation (argsort ks) (seq 0 (length ks)).
Hypothesis argsort_sorted : forall ks, StronglySorted Z.le (take_idx ks (argsort ks)).

(** The cut of well-formed boxes, run again on the boxes put in the order
    it returned, returns the positions in ascending order. *)
Lemma recursive_xy_cut_sorted_positions (fuel : nat) (boxes : list Box) :
  boxes <> [] -> Forall well_formed boxes -> (length boxes <= fuel)%nat ->
  tied_boxes_apart boxes ->
  exists out,
    recursive_xy_cut argsort fuel boxes (seq 0 (length boxes)) [] = Ok out /\
    Permutation out (seq 0 (length boxes)) /\
    recursive_xy_cut argsort fuel (take_idx boxes out) (seq 0 (length boxes)) []
    = Ok (seq 0 (length boxes)).
Proof.
  intros Hne Hwf Hfuel Hapart. set (n := length boxes).
  assert (Hlen : length boxes = length (seq 0 n)) by now rewrite length_seq.
  destruct (recursive_xy_cut_resorted argsort argsort_perm argsort_sorted
              fuel boxes (seq 0 n) [] [] Hne Hwf Hlen (seq_NoDup n 0) Hfuel Hapart)
    as (out & boxes' & Hcut & Hl' & Hperm & Huniq & Hagain).
  cbn [app] in Hcut, Hagain.
  assert (Pout : Permutation out (seq 0 n)).
  { destruct (recursive_xy_cut_well_formed argsort argsort_perm fuel boxes
                (seq 0 n) [] Hne Hwf Hlen Hfuel) as (o & Ho & P).
    cbn [app] in Ho. rewrite Hcut in Ho. now injection Ho as ->. }
  assert (Hlo : length out = n).
  { rewrite (Permutation_length Pout). apply length_seq. }
  assert (Hrange : Forall (fun i => (i < n)%nat) out).
  { apply Forall_forall. intros i Hi. apply (Permutation_in i Pout), in_seq in Hi. lia. }
  assert (Hnd : NoDup out).
  { apply (Permutation_NoDup (Permutation_sym Pout)), seq_NoDup. }
  assert (Pb : Permutation (take_idx boxes out) boxes) by now apply take_idx_perm.
  assert (Hb' : take_idx boxes out = boxes').
  { apply Huniq.
    - rewrite (Permutation_length Pb). fold n. now rewrite Hlo.
    - destruct (take_idx_combine boxes (seq 0 n) out Hlen) as [Hc _].
      rewrite (take_idx_seq_in_range n out Hrange) in Hc. rewrite <- Hc.
      apply take_idx_perm. rewrite length_combine, <- Hlen, Nat.min_id. exact Pout. }
  exists out. split; [exact Hcut|]. split; [exact Pout|].
  rewrite Hb'. rewrite <- Hb' in Hl'.
  assert (Hne' : boxes' <> []).
  { intros E. rewrite Hb', E in Pb. apply Permutation_nil in Pb. congruence. }
  assert (Hwf' : Forall well_formed boxes').
  { rewrite <- Hb'. apply (Permutation_Forall (Permutation_sym Pb)), Hwf. }
  assert (Hlb' : length boxes' = n).
  { rewrite <- Hb'. apply (Permutation_length Pb). }
  destruct (recursive_xy_cut_well_formed argsort argsort_perm fuel boxes'
              (seq 0 n) [] Hne' Hwf') as (r & Hr & Pr).
  { now rewrite length_seq. }
  { rewrite Hlb'. exact Hfuel. }
  cbn [app] in Hr. rewrite Hr. f_equal.
  pose proof (recursive_xy_cut_positions argsort (fun i => nth i out 0%nat) fuel
                boxes' (seq 0 n) []) as Hrel.
  rewrite Hr in Hrel. cbn [map map_result] in Hrel.
  rewrite <- Hlo in Hrel at 1. rewrite map_nth_seq, Hagain in Hrel.
  injection Hrel as Hrel.
  apply (map_inj_on (fun i => nth i out 0%nat)).
  - intros x y Hx Hy. apply (Permutation_in x Pr), in_seq in Hx.
    apply in_seq in Hy. apply (proj1 (NoDup_nth out 0%nat) Hnd); lia.
  - rewrite <- Hrel. rewrite <- Hlo. now rewrite map_nth_seq.
Qed.

Variable categories : Type.
Variable split_page_layout_by_categories :
  PageLayout -> categories -> PageLayout * PageLayout.
Variable merge_page_layouts : PageLayout -> PageLayout -> PageLayout.

Local Abbreviation page :=
  (process_page argsort categories split_page_layout_by_categories
     merge_page_layouts).

(** X23: a sorted page stays as it is, for every argsort that returns the
    positions in ascending key order, whatever it does with equal keys.
    When every region to sort has a polygon with non-negative
    coordinates, a positive width and a positive height, the boxes of
    regions that start on the same row are kept apart by an empty column,
    and the recursion limit is at least the number of regions,
    [process_page] puts the regions in an order that a second pass
    keeps: any layout whose part to sort holds the regions in that order
    comes back with them in the same order. *)
Theorem process_page_keeps_sorted_page (self_categories : categories)
  (fuel : nat) (layout page_layout page_layout_ignore : PageLayout)
  (boxes : list Box) :
  split_page_layout_by_categories layout self_categories
    = (page_layout, page_layout_ignore) ->
  (forall reg, In reg (regions page_layout) -> proper_polygon (polygon reg)) ->
  region_boxes (regions page_layout) = Ok boxes ->
  tied_boxes_apart boxes ->
  (length (regions page_layout) <= fuel)%nat ->
  exists ordered_regions,
    page self_categories fuel layout
    = Ok (merge_page_layouts page_layout_ignore (mkPageLayout ordered_regions)) /\
    forall (categories' : categories) (layout' page_layout_ignore' : PageLayout),
      split_page_layout_by_categories layout' categories'
        = (mkPageLayout ordered_regions, page_layout_ignore') ->
      page categories' fuel layout'
      = Ok (merge_page_layouts page_layout_ignore' (mkPageLayout ordered_regions)).
Proof.
  intros Hsplit Hproper Hb Hapart Hfuel.
  destruct (length (regions page_layout) <? 2)%nat eqn:E.
  { exists (regions page_layout). split.
    - unfold process_page. now rewrite Hsplit, E, PageLayout_eta.
    - intros c' l' i' Hs'. unfold process_page. rewrite Hs'. cbn [regions].
      now rewrite E. }
  apply Nat.ltb_ge in E.
  destruct (region_boxes_proper _ Hproper) as (boxes0 & Hb0 & Hwf).
  rewrite Hb in Hb0. injection Hb0 as <-.
  pose proof (region_boxes_length _ _ Hb) as Hlen.
  assert (Hne : boxes <> []).
  { intros E0. rewrite E0 in Hlen. cbn [length] in Hlen. lia. }
  destruct (recursive_xy_cut_sorted_positions fuel boxes Hne Hwf)
    as (out & Hcut & Pout & Hagain); [lia|exact Hapart|].
  rewrite Hlen in Hcut, Pout, Hagain.
  assert (Hlo : length out = length (regions page_layout)).
  { rewrite (Permutation_length Pout). apply length_seq. }
  assert (Hlt : length (take_idx (regions page_layout) out)
                = length (regions page_layout)).
  { apply Permutation_length, take_idx_perm, Pout. }
  exists (take_idx (regions page_layout) out). split.
  - unfold process_page. rewrite Hsplit.
    replace (length (regions page_layout) <? 2)%nat with false
      by (symmetry; apply Nat.ltb_ge; lia).
    rewrite Hb. cbn [bind]. cbv zeta. unfold try_cut. rewrite Hcut.
    destruct out as [|i r]; [cbn [length] in Hlo; lia|]. reflexivity.
  - intros c' l' i' Hs'. unfold process_page. rewrite Hs'. cbn [regions].
    rewrite Hlt.
    replace (length (regions page_layout) <? 2)%nat with false
      by (symmetry; apply Nat.ltb_ge; lia).
    rewrite (region_boxes_take_idx _ _ out Hb). cbn [bind]. cbv zeta.
    unfold try_cut. rewrite Hagain.
    destruct (seq 0 (length (regions page_layout))) as [|i r] eqn:Es.
    { apply (f_equal (@length nat)) in Es. rewrite length_seq in Es.
      cbn [length] in Es. lia. }
    cbn [falsy]. rewrite <- Es, <- Hlt, take_idx_seq. reflexivity.
Qed.

End SortedPage.

Lemma grid_regions_boxes : region_boxes grid_regions = Ok grid_boxes.
Proof. vm_compute. reflexivity. Qed.

Lemma grid_regions_proper (reg : Region) :
  In reg grid_regions -> proper_polygon (polygon reg).
Proof.
  intros Hreg. unfold grid_regions in Hreg. cbn [In] in Hreg.
  destruct Hreg as [<-|[<-|[<-|[<-|[]]]]]; cbn [polygon]; split.
  - intros p Hp. cbn [In] in Hp.
    destruct Hp as [<-|[<-|[<-|[<-|[]]]]]; split; discriminate.
  - split; [exists (21 # 2, 41 # 2)%Q, (15, 41 # 2)%Q
           |exists (21 # 2, 41 # 2)%Q, (15, 30)%Q];
      cbn [In]; (split; [tauto|split; [tauto|reflexivity]]).
  - intros p Hp. cbn [In] in Hp.
    destruct Hp as [<-|[<-|[<-|[<-|[]]]]]; split; discriminate.
  - split; [exists (0, 0)%Q, (5, 0)%Q|exists (0, 0)%Q, (5, 10)%Q];
      cbn [In]; (split; [tauto|split; [tauto|reflexivity]]).
  - intros p Hp. cbn [In] in Hp.
    destruct Hp as [<-|[<-|[]]]; split; discriminate.
  - split; exists (10, 0)%Q, (29 # 2, 19 # 2)%Q;
      cbn [In]; (split; [tauto|split; [tauto|reflexivity]]).
  - intros p Hp. cbn [In] in Hp.
    destruct Hp as [<-|[<-|[<-|[<-|[]]]]]; split; discriminate.
  - split; [exists (1 # 3, 20)%Q, (5, 20)%Q|exists (1 # 3, 20)%Q, (5, 30)%Q];
      cbn [In]; (split; [tauto|split; [tauto|reflexivity]]).
Qed.

Lemma process_page_keeps_sorted_page_witness :
  let layout := mkPageLayout grid_regions in
  (forall ks, Permutation (reversing_argsort ks) (seq 0 (length ks))) /\
  (forall ks, StronglySorted Z.le (take_idx ks (reversing_argsort ks))) /\
  split_nothing_ignored layout tt = (layout, mkPageLayout []) /\
  (forall reg, In reg (regions layout) -> proper_polygon (polygon reg)) /\
  region_boxes (regions layout) = Ok grid_boxes /\
  tied_boxes_apart grid_boxes /\
  (length (regions layout) <= 4)%nat /\
  exists ordered_regions,
    process_page reversing_argsort unit split_nothing_ignored merge_appending tt 4 layout
    = Ok (merge_appending (mkPageLayout []) (mkPageLayout ordered_regions)) /\
    forall (categories' : unit) (layout' page_layout_ignore' : PageLayout),
      split_nothing_ignored layout' categories'
        = (mkPageLayout ordered_regions, page_layout_ignore') ->
      process_page reversing_argsort unit split_nothing_ignored merge_appending
        categories' 4 layout'
      = Ok (merge_appending page_layout_ignore' (mkPageLayout ordered_regions)).
Proof.
  cbv zeta. split; [exact reversing_argsort_perm|].
  split; [exact reversing_argsort_sorted|].
  split; [reflexivity|]. split; [exact grid_regions_proper|].
  split; [exact grid_regions_boxes|]. split; [exact grid_boxes_ties_apart|].
  split; [cbn; lia|].
  exact (process_page_keeps_sorted_page reversing_argsort reversing_argsort_perm
           reversing_argsort_sorted unit
           split_nothing_ignored merge_appending tt 4
           (mkPageLayout grid_regions) (mkPageLayout grid_regions) (mkPageLayout [])
           grid_boxes eq_refl grid_regions_proper grid_regions_boxes
           grid_boxes_ties_apart (Nat.le_refl 4)).
Defined.
